(** * Keystore of specter-diy: a shallow embedding of
      [src/components/keystore/keystore.c] and the properties of its
      derivation-path parser, extended-public-key encoder, PSBT policy
      check, change detector, signing pass and wallet-descriptor check. *)

From Stdlib Require Import ZArith List Ascii String Bool Lia.
From stdpp Require Import base list strings.

Local Open Scope Z_scope.

(* ===================================================================== *)
(** * 1. C values, memory and outcomes                                    *)
(* ===================================================================== *)

(** A call of a C function either returns a value or leaves the defined
    behaviour of C: it reads or writes outside an object, it reads
    through a null pointer, or its result hangs on a cell of an array
    that was never written.  [Undefined] records the second case; a call
    that is [Undefined] has no result the caller may rely on. *)
Inductive outcome (A : Type) : Type :=
| Ret (a : A)
| Undefined.
Arguments Ret {A} a.
Arguments Undefined {A}.

Definition bind {A B : Type} (m : outcome A) (k : A -> outcome B) : outcome B :=
  match m with
  | Ret a => k a
  | Undefined => Undefined
  end.

Notation "'let*' x ':=' m 'in' k" := (bind m (fun x => k))
  (at level 10, x name, m at level 100, k at level 200).

(** [size_t] and [uint32_t] are 32 bits wide on the target (an ARM
    Cortex-M microcontroller); unsigned arithmetic wraps around. *)
Definition SIZE_MAX : Z := 2 ^ 32 - 1.
Definition size_wrap (z : Z) : Z := z mod 2 ^ 32.
Definition u32 (z : Z) : Z := z mod 2 ^ 32.

(** A C string is the list of its characters; its object in memory is
    these characters followed by the terminating NUL. *)
Definition cstring : Type := list ascii.
Definition NUL : ascii := Ascii.zero.
Definition storage (s : cstring) : list ascii := s ++ [NUL].
Definition strlen (s : cstring) : Z := Z.of_nat (length s).
Definition str (s : string) : cstring := list_ascii_of_string s.

(** [load s idx] is the read [s[idx]]: the address [s + idx] is computed
    modulo the size of the address space, and the read is defined only
    inside the string's object, terminator included. *)
Definition load (s : cstring) (idx : Z) : option ascii :=
  let a := size_wrap idx in
  if a <? Z.of_nat (length (storage s)) then storage s !! Z.to_nat a else None.

(** A read that leaves the object has no defined value. *)
Definition deref_char (c : option ascii) : outcome ascii :=
  match c with
  | Some c => Ret c
  | None => Undefined
  end.

(** [strchr s c]: the offset of the first occurrence of [c] in [s]; the
    terminating NUL counts as part of the string, as in C. *)
Fixpoint index_of (c : ascii) (mem : list ascii) (k : Z) : option Z :=
  match mem with
  | [] => None
  | x :: mem' => if Ascii.eqb x c then Some k else index_of c mem' (k + 1)
  end.
Definition strchr (s : cstring) (c : ascii) : option Z := index_of c (storage s) 0.

(* ===================================================================== *)
(** * 2. The derivation path parser: [parse_derivation]                   *)
(* ===================================================================== *)

Definition VALID_CHARS : cstring := str "0123456789/'h".

(** From libwally's [wally_bip32.h]. *)
Definition BIP32_INITIAL_HARDENED_CHILD : Z := 0x80000000.

Definition slash : ascii := "/"%char.

(** First loop: every character of [cur[0..len)] must be one of
    [VALID_CHARS]; the separators are counted.  [mem] holds the bytes of
    the string's object from [cur[i]] on, so an empty [mem] means that
    [cur[i]] lies outside the object.  [None] is the [return NULL]. *)
Fixpoint count_loop (mem : list ascii) (i len derivationLen : Z)
  : outcome (option Z) :=
  if negb (i <? len) then Ret (Some derivationLen) else
  match mem with
  | [] => Undefined
  | c :: mem' =>
      match strchr VALID_CHARS c with
      | None => Ret None
      | Some _ =>
          count_loop mem' (i + 1) len
            (if Ascii.eqb c slash then size_wrap (derivationLen + 1)
             else derivationLen)
      end
  end.

(** Second loop: the indices are accumulated into the zero-initialised
    array [derivation]; an element that has reached the hardened range
    accepts no further character. *)
Fixpoint fill_loop (mem : list ascii) (i len : Z)
    (derivation : list Z) (current : nat) : outcome (option (list Z)) :=
  if negb (i <? len) then Ret (Some derivation) else
  match mem with
  | [] => Undefined
  | c :: mem' =>
      if Ascii.eqb c slash then fill_loop mem' (i + 1) len derivation (S current)
      else
        match strchr VALID_CHARS c with
        | None => Undefined
        | Some val =>
            match derivation !! current with
            | None => Undefined
            | Some d =>
                if BIP32_INITIAL_HARDENED_CHILD <=? d then Ret None
                else if val <? 10 then
                  fill_loop mem' (i + 1) len
                    (<[current := u32 (d * 10 + val)]> derivation) current
                else
                  fill_loop mem' (i + 1) len
                    (<[current := u32 (d + BIP32_INITIAL_HARDENED_CHILD)]> derivation)
                    current
            end
        end
  end.

(** The parser once [cur = path + off] and [len] are set: the test of
    [cur[len-1]] and the two loops.  [Ret (Some (derivation, derlen))]
    when the array is returned and [*derlen] is written, [Ret None] for
    [return NULL]. *)
Definition parse_from (path : cstring) (off len : Z)
  : outcome (option (list Z * Z)) :=
  let* last := deref_char (load path (off + size_wrap (len - 1))) in
  let len := if Ascii.eqb last slash then size_wrap (len - 1) else len in
  let mem := drop (Z.to_nat off) (storage path) in
  let* r := count_loop mem 0 len 1 in
  match r with
  | None => Ret None
  | Some derivationLen =>
      let derivation := repeat 0 (Z.to_nat derivationLen) in
      let* d := fill_loop mem 0 len derivation 0%nat in
      match d with
      | None => Ret None
      | Some derivation => Ret (Some (derivation, derivationLen))
      end
  end.

Definition parse_derivation (path : cstring) : outcome (option (list Z * Z)) :=
  let len := strlen path in
  let* c0 := deref_char (load path 0) in
  if Ascii.eqb c0 "m"%char then parse_from path 2 (size_wrap (len - 2))
  else parse_from path 0 len.

(** [path] read as the list of characters the two loops run over: the
    characters of [cur[0..len)] once the prefix and a trailing separator
    are removed.  The three strings for which the parser leaves the
    string's object have no such list. *)
Definition strip_slash (s : list ascii) : list ascii :=
  match last s with
  | Some c => if Ascii.eqb c slash then removelast s else s
  | None => s
  end.

Definition body (path : cstring) : option (list ascii) :=
  match path with
  | [] => None
  | c0 :: tl =>
      if Ascii.eqb c0 "m"%char then
        match tl with
        | [] => None
        | [c1] => if Ascii.eqb c1 slash then None else Some []
        | _ :: cur => Some (strip_slash cur)
        end
      else Some (strip_slash path)
  end.

(** The two loops over a list of characters that lies inside the object. *)
Fixpoint count_chars (s : list ascii) (derivationLen : Z) : option Z :=
  match s with
  | [] => Some derivationLen
  | c :: s' =>
      match strchr VALID_CHARS c with
      | None => None
      | Some _ =>
          count_chars s'
            (if Ascii.eqb c slash then size_wrap (derivationLen + 1)
             else derivationLen)
      end
  end.

Fixpoint fill_chars (s : list ascii) (derivation : list Z) (current : nat)
  : outcome (option (list Z)) :=
  match s with
  | [] => Ret (Some derivation)
  | c :: s' =>
      if Ascii.eqb c slash then fill_chars s' derivation (S current)
      else
        match strchr VALID_CHARS c with
        | None => Undefined
        | Some val =>
            match derivation !! current with
            | None => Undefined
            | Some d =>
                if BIP32_INITIAL_HARDENED_CHILD <=? d then Ret None
                else if val <? 10 then
                  fill_chars s' (<[current := u32 (d * 10 + val)]> derivation) current
                else
                  fill_chars s'
                    (<[current := u32 (d + BIP32_INITIAL_HARDENED_CHILD)]> derivation)
                    current
            end
        end
  end.

(** The parser on the characters of [cur[0..len)]. *)
Definition parse_chars (s : list ascii) : outcome (option (list Z * Z)) :=
  match count_chars s 1 with
  | None => Ret None
  | Some derivationLen =>
      let* d := fill_chars s (repeat 0 (Z.to_nat derivationLen)) 0%nat in
      match d with
      | None => Ret None
      | Some derivation => Ret (Some (derivation, derivationLen))
      end
  end.

Fixpoint slashes (s : list ascii) : Z :=
  match s with
  | [] => 0
  | c :: s' => (if Ascii.eqb c slash then 1 else 0) + slashes s'
  end.

Definition H : Z := BIP32_INITIAL_HARDENED_CHILD.

(* ===================================================================== *)
(** * 3. Data model                                                       *)
(* ===================================================================== *)

(** Bytes are integers in [0, 256); a byte buffer is a list of them. *)
Definition bytes : Type := list Z.

(** Modelled from the spec: [network_t], declared in [networks.h].  The
    spec's Network is the descriptor of one chain's conventions: name,
    extended-private and extended-public versions, the alternate
    extended-public versions of SLIP132, the legacy and script address
    prefixes and the bech32 prefix.  The fields carry the names under
    which [keystore.c] reads them. *)
Record network_t : Type := {
  name : cstring;
  bip32 : Z;
  p2pkh : Z;
  p2sh : Z;
  bech32 : cstring;
  xprv : Z;
  xpub : Z;
  ypub : Z;
  zpub : Z;
  Ypub : Z;
  Zpub : Z
}.

(** libwally's [struct ext_key], with the members the keystore touches. *)
Record ext_key : Type := {
  chain_code : bytes;
  depth : Z;
  child_num : Z;
  version : Z;
  priv_key : bytes;
  pub_key : bytes
}.

Definition set_version (k : ext_key) (v : Z) : ext_key :=
  {| chain_code := chain_code k; depth := depth k; child_num := child_num k;
     version := v; priv_key := priv_key k; pub_key := pub_key k |}.

(** Modelled from the spec: [keystore_t], declared in [keystore.h].  A
    keystore owns one master extended private key [root] and a
    fingerprint stored as eight hexadecimal characters.  [root] is a
    pointer; [keystore_init] leaves it null when it is given no
    mnemonic. *)
Record keystore_t : Type := {
  root : option ext_key;
  fingerprint : cstring
}.

(** libwally's PSBT structures.  A pointer member that may be null is an
    [option]; an array with its count is a list. *)
Record keypath_item : Type := {
  origin_fingerprint : bytes;
  origin_path : list Z
}.

Record wally_tx_output : Type := {
  satoshi : Z;
  script : bytes
}.

Record wally_tx : Type := {
  tx_version : Z;
  tx_inputs : list (bytes * Z);
  tx_outputs : list wally_tx_output;
  tx_locktime : Z
}.

Record wally_psbt_input : Type := {
  witness_utxo : option wally_tx_output;
  in_keypaths : option (list keypath_item);
  partial_sigs : option (list (bytes * bytes))
}.

Record wally_psbt_output : Type := {
  out_keypaths : option (list keypath_item)
}.

Record wally_psbt : Type := {
  tx : wally_tx;
  inputs : list wally_psbt_input;
  outputs : list wally_psbt_output
}.

Definition num_inputs (psbt : wally_psbt) : Z := Z.of_nat (length (inputs psbt)).
Definition num_outputs (psbt : wally_psbt) : Z := Z.of_nat (length (outputs psbt)).

(** The script types of [wally_script.h] and the address kinds of
    [wally_address.h] that the keystore names. *)
Inductive script_type : Type :=
| WALLY_SCRIPT_TYPE_UNKNOWN
| WALLY_SCRIPT_TYPE_OP_RETURN
| WALLY_SCRIPT_TYPE_P2PKH
| WALLY_SCRIPT_TYPE_P2SH
| WALLY_SCRIPT_TYPE_P2WPKH
| WALLY_SCRIPT_TYPE_P2WSH
| WALLY_SCRIPT_TYPE_MULTISIG.

Inductive address_type : Type :=
| WALLY_ADDRESS_TYPE_P2PKH
| WALLY_ADDRESS_TYPE_P2SH_P2WPKH.

Definition WALLY_SIGHASH_ALL : Z := 1.

(** Modelled from the spec: the status codes [KEYSTORE_PSBTERR_*] and
    [KEYSTORE_WALLET_ERR_*] of [keystore.h], whose numeric values the
    keystore's source file does not show.  The spec names the outcomes of
    the policy check (Ok, CannotSign, MixedInputs, UnsupportedPolicy) and
    of the descriptor check (ParseError, NotIncluded, CosignerMismatch);
    success is the [0] that the source assigns and tests ([err = 0],
    [err == 0]), and the error codes are distinct and different from it. *)
Inductive psbt_status : Type :=
| PSBT_OK
| KEYSTORE_PSBTERR_CANNOT_SIGN
| KEYSTORE_PSBTERR_MIXED_INPUTS
| KEYSTORE_PSBTERR_UNSUPPORTED_POLICY.

Inductive wallet_status : Type :=
| WALLET_OK
| KEYSTORE_WALLET_ERR_PARSING
| KEYSTORE_WALLET_ERR_NOT_INCLUDED
| KEYSTORE_WALLET_ERR_WRONG_XPUB.

Definition is_zero (e : psbt_status) : bool :=
  match e with PSBT_OK => true | _ => false end.

(** What the first [sscanf] of [keystore_check_wallet] delivers: its
    return value and the fields it assigned. *)
Record wallet_header : Type := {
  hdr_res : Z;
  hdr_name : cstring;
  hdr_type : cstring;
  hdr_m : Z;
  hdr_n : Z;
  hdr_rest : cstring
}.

(* ===================================================================== *)
(** * 4. The collaborators                                                *)
(* ===================================================================== *)

(** The functions of libwally that the keystore calls.  The keystore
    ignores their return codes, so they are taken as total. *)
Class Wally : Type := {
  wally_hash160 : bytes -> bytes;
  bip32_key_from_parent_path : ext_key -> list Z -> ext_key;
  bip32_key_serialize : ext_key -> bytes;
  wally_base58_from_bytes : bytes -> cstring;
  wally_scriptpubkey_get_type : bytes -> script_type;
  wally_addr_segwit_from_bytes : bytes -> cstring -> cstring;
  wally_bip32_key_to_addr_segwit : ext_key -> cstring -> cstring;
  wally_bip32_key_to_address : ext_key -> address_type -> Z -> cstring;
  wally_scriptpubkey_p2pkh_from_bytes : bytes -> bytes;
  wally_tx_get_btc_signature_hash : wally_tx -> Z -> bytes -> Z -> bytes;
  wally_ec_sig_from_bytes : bytes -> bytes -> bytes;
  wally_ec_sig_to_der : bytes -> bytes;
  wally_psbt_to_base64 : wally_psbt -> cstring
}.

(** The rest of the platform: the network table of [networks.h], and the
    C library's [sscanf] on the header format of a wallet descriptor,
    ["name=%[^\n]\ntype=%[^\n]\nm=%d\nn=%d\n%[^\0]"]: its return value
    and the fields it reads.  Where the fields are stored, and whether
    they fit there, is the business of [keystore_check_wallet]. *)
Class Platform : Type := {
  Mainnet : network_t;
  sscanf_header : cstring -> wallet_header
}.

(* ===================================================================== *)
(** * 5. The keystore                                                     *)
(* ===================================================================== *)

(** [cpu_to_be32] on the little-endian target is a byte swap; [memcpy]
    from the address of a word copies its bytes in memory order, least
    significant byte first. *)
Definition bswap_32 (v : Z) : Z :=
  Z.lor (Z.shiftl (Z.land v 0xff) 24)
    (Z.lor (Z.shiftl (Z.land v 0xff00) 8)
       (Z.lor (Z.shiftr (Z.land v 0xff0000) 8)
          (Z.shiftr (Z.land v 0xff000000) 24))).

Definition cpu_to_be32 (v : Z) : Z := bswap_32 v.

Definition word_bytes (v : Z) : bytes :=
  [Z.land v 0xff; Z.land (Z.shiftr v 8) 0xff;
   Z.land (Z.shiftr v 16) 0xff; Z.land (Z.shiftr v 24) 0xff].

Definition memcpy (dst src : bytes) (n : nat) : bytes := take n src ++ drop n dst.

(** The four bytes of [v], most significant first. *)
Definition be32_bytes (v : Z) : bytes :=
  [Z.land (Z.shiftr v 24) 0xff; Z.land (Z.shiftr v 16) 0xff;
   Z.land (Z.shiftr v 8) 0xff; Z.land v 0xff].

(** [p] dereferenced: a null pointer has nothing to read. *)
Definition deref {A : Type} (p : option A) : outcome A :=
  match p with
  | Some a => Ret a
  | None => Undefined
  end.

(** [memcmp(a, b, n) == 0] on two buffers. *)
Definition bytes_equal (a b : bytes) (n : nat) : bool :=
  bool_decide (take n a = take n b).

(** [strcmp(a, b) == 0]. *)
Definition string_equal (a b : cstring) : bool := bool_decide (a = b).

(** An argument passed for a parameter of type [uint8_t] is converted
    to eight bits. *)
Definition u8 (z : Z) : Z := z mod 2 ^ 8.

(** ** Strings inside character arrays *)

(** A character array is given by the cells of it that have been
    written.  [sscanf] stores a string and its terminator from the start
    of the array, so these cells are a prefix of the array: after a
    shorter string has been stored over a longer one, the cells behind
    its terminator still hold what is left of the longer one.  A read
    beyond the cells written meets a cell that was never written, or
    leaves the array, and has no defined value. *)
Definition load_in (obj : list ascii) (idx : Z) : option ascii :=
  let a := size_wrap idx in
  if a <? Z.of_nat (length obj) then obj !! Z.to_nat a else None.

(** The characters from the start of [mem] up to the first NUL. *)
Fixpoint until_nul (mem : list ascii) : option cstring :=
  match mem with
  | [] => None
  | c :: mem' =>
      if Ascii.eqb c NUL then Some []
      else match until_nul mem' with
           | Some s => Some (c :: s)
           | None => None
           end
  end.

(** The C string at [obj + p], as [strlen] and the conversion [%s] of
    [printf] read it. *)
Definition string_at (obj : list ascii) (p : nat) : outcome cstring :=
  deref (until_nul (drop p obj)).

(** [sscanf] storing a field into an array of [size] characters of which
    [cells] have been written: the string and its terminator have to
    fit.  A field that is not assigned leaves the array as it is. *)
Definition store_string (size : nat) (cells : list ascii)
    (field : option cstring) : outcome (list ascii) :=
  match field with
  | Some s =>
      if (length s <? size)%nat
      then Ret (s ++ NUL :: drop (S (length s)) cells)
      else Undefined
  | None => Ret cells
  end.

(** [parse_derivation(obj + p, &len)]: the parser called with a pointer
    into a character array, as [keystore_check_wallet] calls it with
    [derivation + 9].  The reads are those of [parse_derivation]; they
    are defined inside the cells written of the whole array, not of the
    string alone. *)
Definition parse_from_in (obj : list ascii) (cur len : Z)
  : outcome (option (list Z * Z)) :=
  let* last := deref_char (load_in obj (cur + size_wrap (len - 1))) in
  let len := if Ascii.eqb last slash then size_wrap (len - 1) else len in
  let mem := drop (Z.to_nat cur) obj in
  let* r := count_loop mem 0 len 1 in
  match r with
  | None => Ret None
  | Some derivationLen =>
      let derivation := repeat 0 (Z.to_nat derivationLen) in
      let* d := fill_loop mem 0 len derivation 0%nat in
      match d with
      | None => Ret None
      | Some derivation => Ret (Some (derivation, derivationLen))
      end
  end.

Definition parse_derivation_in (obj : list ascii) (p : nat)
  : outcome (option (list Z * Z)) :=
  let* path := string_at obj p in
  let len := strlen path in
  let* c0 := deref_char (load_in obj (Z.of_nat p)) in
  if Ascii.eqb c0 "m"%char
  then parse_from_in obj (Z.of_nat p + 2) (size_wrap (len - 2))
  else parse_from_in obj (Z.of_nat p) len.

Section Keystore.
Context {W : Wally} {P : Platform}.

(** The version word that [keystore_get_xpub] selects, in the byte order
    in which it is stored ([ver]). *)
Definition select_version (network : network_t) (derivation : list Z)
    (len use_slip132 : Z) : outcome Z :=
  let ver := cpu_to_be32 (xpub network) in
  if negb (Z.land (if 0 <? len then 1 else 0) use_slip132 =? 0) then
    let* d0 := deref (derivation !! 0%nat) in
    if d0 =? BIP32_INITIAL_HARDENED_CHILD + 84 then
      Ret (cpu_to_be32 (zpub network))
    else if d0 =? BIP32_INITIAL_HARDENED_CHILD + 49 then
      Ret (cpu_to_be32 (ypub network))
    else if d0 =? BIP32_INITIAL_HARDENED_CHILD + 48 then
      if 4 <=? len then
        let* d3 := deref (derivation !! 3%nat) in
        if d3 =? BIP32_INITIAL_HARDENED_CHILD + 1 then
          Ret (cpu_to_be32 (Ypub network))
        else if d3 =? BIP32_INITIAL_HARDENED_CHILD + 2 then
          Ret (cpu_to_be32 (Zpub network))
        else Ret ver
      else Ret ver
    else Ret ver
  else Ret ver.

(** [keystore_get_xpub] up to the call of [wally_base58_from_bytes]: the
    serialized key [xpub_raw] with its header overwritten.  [None] is the
    [return -1]. *)
Definition keystore_get_xpub_raw (key : keystore_t) (path : cstring)
    (network : network_t) (use_slip132 : Z) : outcome (option bytes) :=
  let* parsed := parse_derivation path in
  match parsed with
  | None => Ret None
  | Some (derivation, len) =>
      let* r := deref (root key) in
      let child := bip32_key_from_parent_path r derivation in
      let child := set_version child (xprv network) in
      let xpub_raw := bip32_key_serialize child in
      let* ver := select_version network derivation len use_slip132 in
      Ret (Some (memcpy xpub_raw (word_bytes ver) 4))
  end.

(** [keystore_get_xpub]: [Some s] when it returns [0] with [*xpub = s],
    [None] when it returns [-1]. *)
Definition keystore_get_xpub (key : keystore_t) (path : cstring)
    (network : network_t) (use_slip132 : Z) : outcome (option cstring) :=
  let* raw := keystore_get_xpub_raw key path network use_slip132 in
  match raw with
  | None => Ret None
  | Some xpub_raw => Ret (Some (wally_base58_from_bytes xpub_raw))
  end.

(** [keystore_get_xpub] after the parser has returned [parsed]. *)
Definition xpub_of_parsed (key : keystore_t) (network : network_t)
    (use_slip132 : Z) (parsed : option (list Z * Z)) : outcome (option cstring) :=
  match parsed with
  | None => Ret None
  | Some (derivation, len) =>
      let* r := deref (root key) in
      let child := bip32_key_from_parent_path r derivation in
      let child := set_version child (xprv network) in
      let xpub_raw := bip32_key_serialize child in
      let* ver := select_version network derivation len use_slip132 in
      Ret (Some (wally_base58_from_bytes (memcpy xpub_raw (word_bytes ver) 4)))
  end.

(** [keystore_get_xpub(key, obj + p, network, use_slip132, &xpub)]: the
    encoder called with a path that lies inside a character array. *)
Definition keystore_get_xpub_in (key : keystore_t) (obj : list ascii) (p : nat)
    (network : network_t) (use_slip132 : Z) : outcome (option cstring) :=
  let* parsed := parse_derivation_in obj p in
  xpub_of_parsed key network use_slip132 parsed.

(** ** [keystore_check_psbt] *)

(** The inner loop over [keypaths->items], left at the first match. *)
Fixpoint can_sign_loop (h160 : bytes) (items : list keypath_item) : bool :=
  match items with
  | [] => false
  | item :: items' =>
      if bytes_equal (origin_fingerprint item) h160 4 then true
      else can_sign_loop h160 items'
  end.

(** The loop over the inputs, from input [i] on, with the current [err]. *)
Fixpoint check_inputs (h160 : bytes) (ins : list wally_psbt_input)
    (err : psbt_status) : psbt_status :=
  match ins with
  | [] => err
  | input :: ins' =>
      match in_keypaths input with
      | None => KEYSTORE_PSBTERR_CANNOT_SIGN
      | Some items =>
          let can_sign := can_sign_loop h160 items in
          if negb can_sign && is_zero err then KEYSTORE_PSBTERR_MIXED_INPUTS
          else
            let err := if can_sign then PSBT_OK else err in
            if negb (length items =? 1)%nat then KEYSTORE_PSBTERR_UNSUPPORTED_POLICY
            else check_inputs h160 ins' err
      end
  end.

Definition keystore_check_psbt (key : keystore_t) (psbt : wally_psbt)
  : outcome psbt_status :=
  let* r := deref (root key) in
  let h160 := wally_hash160 (pub_key r) in
  Ret (check_inputs h160 (inputs psbt) KEYSTORE_PSBTERR_CANNOT_SIGN).

(** ** [keystore_output_is_change] *)

(** The index is a parameter of type [uint8_t]: whatever the caller
    passes, the function works on its value converted to eight bits. *)
Definition keystore_output_is_change (key : keystore_t) (psbt : wally_psbt)
    (i : Z) : outcome Z :=
  let i := u8 i in
  if num_outputs psbt <=? i then Ret 0 else
  let* output := deref (outputs psbt !! Z.to_nat i) in
  match out_keypaths output with
  | None => Ret 0
  | Some items =>
      if negb (length items =? 1)%nat then Ret 0 else
      let* item := deref (items !! 0%nat) in
      let pk :=
        match root key with
        | Some r => Some (bip32_key_from_parent_path r (origin_path item))
        | None => None
        end in
      let* txout := deref (tx_outputs (tx psbt) !! Z.to_nat i) in
      let network := Mainnet in
      let* addrs :=
        match wally_scriptpubkey_get_type (script txout) with
        | WALLY_SCRIPT_TYPE_P2WPKH =>
            let* pk := deref pk in
            Ret (Some (wally_addr_segwit_from_bytes (script txout) (bech32 network),
                       wally_bip32_key_to_addr_segwit pk (bech32 network)))
        | WALLY_SCRIPT_TYPE_P2SH =>
            let* pk := deref pk in
            Ret (Some (wally_base58_from_bytes
                         (p2sh network :: take 20 (drop 2 (script txout))),
                       wally_bip32_key_to_address pk
                         WALLY_ADDRESS_TYPE_P2SH_P2WPKH (p2sh network)))
        | WALLY_SCRIPT_TYPE_P2PKH =>
            let* pk := deref pk in
            Ret (Some (wally_base58_from_bytes
                         (p2pkh network :: take 20 (drop 3 (script txout))),
                       wally_bip32_key_to_address pk
                         WALLY_ADDRESS_TYPE_P2PKH (p2pkh network)))
        | _ => Ret None
        end in
      match addrs with
      | None => Ret 0
      | Some (addr, addr2) => Ret (if string_equal addr addr2 then 1 else 0)
      end
  end.

(** ** [keystore_sign_psbt] *)

Definition set_partial_sigs (input : wally_psbt_input)
    (sigs : option (list (bytes * bytes))) : wally_psbt_input :=
  {| witness_utxo := witness_utxo input; in_keypaths := in_keypaths input;
     partial_sigs := sigs |}.

(** [add_new_partial_sig], after [partial_sigs_map_init_alloc] when the
    map is still null. *)
Definition add_new_partial_sig (input : wally_psbt_input) (pub der : bytes)
  : wally_psbt_input :=
  let sigs := match partial_sigs input with Some l => l | None => [] end in
  set_partial_sigs input (Some (sigs ++ [(pub, der)])).

(** What [wally_psbt_init_alloc] and [wally_psbt_set_global_tx] leave in
    [signed_psbt]: the transaction and blank inputs and outputs. *)
Definition blank_input : wally_psbt_input :=
  {| witness_utxo := None; in_keypaths := None; partial_sigs := None |}.
Definition blank_output : wally_psbt_output := {| out_keypaths := None |}.
Definition wally_psbt_init (psbt : wally_psbt) : wally_psbt :=
  {| tx := tx psbt;
     inputs := repeat blank_input (length (inputs psbt));
     outputs := repeat blank_output (length (outputs psbt)) |}.

(** The loop over the inputs, from input [i] on; [signed_ins] are the
    inputs of [signed_psbt].  [None] is the [return -1]. *)
Fixpoint sign_inputs (key : keystore_t) (t : wally_tx)
    (ins : list wally_psbt_input) (i : Z) (signed_ins : list wally_psbt_input)
  : outcome (option (list wally_psbt_input)) :=
  match ins with
  | [] => Ret (Some signed_ins)
  | input :: ins' =>
      match witness_utxo input with
      | None => Ret None
      | Some utxo =>
          let* items := deref (in_keypaths input) in
          let* item := deref (items !! 0%nat) in
          let* r := deref (root key) in
          let pk := bip32_key_from_parent_path r (origin_path item) in
          let script := wally_scriptpubkey_p2pkh_from_bytes (pub_key pk) in
          let hash :=
            wally_tx_get_btc_signature_hash t i script (satoshi utxo) in
          let sig := wally_ec_sig_from_bytes (drop 1 (priv_key pk)) hash in
          let der := wally_ec_sig_to_der sig ++ [WALLY_SIGHASH_ALL] in
          let* signed_input := deref (signed_ins !! Z.to_nat i) in
          sign_inputs key t ins' (i + 1)
            (<[Z.to_nat i := add_new_partial_sig signed_input (pub_key pk) der]>
               signed_ins)
      end
  end.

(** [keystore_sign_psbt key psbt output]: the value returned and the
    content of the caller's slot [*output] afterwards; [output] is the
    content of the slot before the call. *)
Definition keystore_sign_psbt (key : keystore_t) (psbt : wally_psbt)
    (output : option cstring) : outcome (Z * option cstring) :=
  let signed_psbt := wally_psbt_init psbt in
  let* r := sign_inputs key (tx psbt) (inputs psbt) 0 (inputs signed_psbt) in
  match r with
  | None => Ret (-1, output)
  | Some signed_ins =>
      let signed_psbt :=
        {| tx := tx signed_psbt; inputs := signed_ins;
           outputs := outputs signed_psbt |} in
      Ret (0, Some (wally_psbt_to_base64 signed_psbt))
  end.

(** ** [keystore_check_wallet] *)

Definition isspace (c : ascii) : bool :=
  let n := nat_of_ascii c in
  ((n =? 32) || ((9 <=? n) && (n <=? 13)))%nat.

(** The longest prefix of characters that satisfy [p], and what follows. *)
Fixpoint span (p : ascii -> bool) (s : list ascii) : list ascii * list ascii :=
  match s with
  | [] => ([], [])
  | c :: s' =>
      if p c then let '(a, b) := span p s' in (c :: a, b) else ([], s)
  end.

(** [sscanf(line, "[%[^]]]%s", derivation, xpub)]: the return value (the
    number of fields assigned, [-1] for end of input before the first)
    and the fields assigned. *)
Definition sscanf_entry (line : cstring)
  : Z * option cstring * option cstring :=
  match line with
  | [] => (-1, None, None)
  | c :: s1 =>
      if negb (Ascii.eqb c "["%char) then (0, None, None) else
      let '(d, s2) := span (fun x => negb (Ascii.eqb x "]"%char)) s1 in
      match d, s2 with
      | [], [] => (-1, None, None)
      | [], _ => (0, None, None)
      | _, [] => (1, Some d, None)
      | _, _ :: s3 =>
          let '(_, s4) := span isspace s3 in
          let '(x, _) := span (fun y => negb (isspace y)) s4 in
          match x with
          | [] => (1, Some d, None)
          | _ => (2, Some d, Some x)
          end
      end
  end.

(** [memcmp(a, b, n) == 0] on the cells written of two arrays: the
    comparison is settled at the first byte that differs. *)
Fixpoint memcmp_buf (a b : list ascii) (n : nat) {struct n} : outcome bool :=
  match n with
  | O => Ret true
  | S n' =>
      match a, b with
      | x :: a', y :: b' =>
          if Ascii.eqb x y then memcmp_buf a' b' n' else Ret false
      | _, _ => Undefined
      end
  end.

(** The body of the cosigner loop after a successful [sscanf]: [inl] is a
    [return], [inr] is the value of [err] with which the loop goes on.
    [derivation] are the cells written of the array [derivation], which
    begin with the origin just stored; [xpub] is the key just stored.
    The path handed to the encoder is the pointer [derivation + 9]. *)
Definition check_cosigner (keystore : keystore_t) (network : network_t)
    (derivation : list ascii) (xpub : cstring) (err : wallet_status)
  : outcome (wallet_status + wallet_status) :=
  let* mine := memcmp_buf derivation (storage (fingerprint keystore)) 8 in
  if mine then
    let* mypub := keystore_get_xpub_in keystore derivation 9 network 0 in
    let* myslippub := keystore_get_xpub_in keystore derivation 9 network 0 in
    match myslippub with
    | None => Ret (inl KEYSTORE_WALLET_ERR_WRONG_XPUB)
    | Some myslippub =>
        let* mypub := deref mypub in
        if string_equal mypub xpub || string_equal myslippub xpub
        then Ret (inr WALLET_OK)
        else Ret (inl KEYSTORE_WALLET_ERR_WRONG_XPUB)
    end
  else Ret (inr err).

(** The loop [for (i = 0; i < n; i++)], with [count = n - i] rounds to
    go.  [rest] is the text that the first [sscanf] stored at the start
    of a block of [size] zero bytes, and [line] is the offset of the
    pointer [line] in this block: behind the text it reads the empty
    string, behind the block nothing.  [derivation] and [xpub] are the
    cells written of the two arrays, none before the first round.  The
    [printf] reads both arrays as strings before the result of [sscanf]
    is tested. *)
Fixpoint cosigner_loop (keystore : keystore_t) (network : network_t)
    (count : nat) (size : nat) (rest : cstring) (line : nat)
    (derivation xpub : list ascii) (err : wallet_status)
  : outcome wallet_status :=
  match count with
  | O => Ret err
  | S count' =>
      let* l := if (line <? size)%nat then Ret (drop line rest) else Undefined in
      let '(res, d, x) := sscanf_entry l in
      let* derivation := store_string 150 derivation d in
      let* xpub := store_string 150 xpub x in
      let* _ := string_at derivation 0 in
      let* _ := string_at xpub 0 in
      if res <? 2 then Ret KEYSTORE_WALLET_ERR_PARSING else
      let* d := deref d in
      let* x := deref x in
      let* step := check_cosigner keystore network derivation x err in
      match step with
      | inl status => Ret status
      | inr err =>
          cosigner_loop keystore network count' size rest
            (line + (length d + length x + 3)) derivation xpub err
      end
  end.

(** [keystore_check_wallet]: the first [sscanf] stores [name] into a
    [char[100]], [type] into a [char[10]] and the text after the header
    into the block of [strlen(buf) + 1] zero bytes that [calloc]
    returned; each is stored when the conversion before it has
    succeeded. *)
Definition keystore_check_wallet (keystore : keystore_t) (network : network_t)
    (buf : cstring) : outcome wallet_status :=
  let size := S (length buf) in
  let hdr := sscanf_header buf in
  let res := hdr_res hdr in
  let* _ := store_string 100 [] (if 1 <=? res then Some (hdr_name hdr) else None) in
  let* _ := store_string 10 [] (if 2 <=? res then Some (hdr_type hdr) else None) in
  let* _ := store_string size [] (if 5 <=? res then Some (hdr_rest hdr) else None) in
  if res <? 5 then Ret KEYSTORE_WALLET_ERR_PARSING else
  cosigner_loop keystore network (Z.to_nat (hdr_n hdr)) size (hdr_rest hdr) 0
    [] [] KEYSTORE_WALLET_ERR_NOT_INCLUDED.

End Keystore.

(* ===================================================================== *)
(** * 6. Vocabulary of the properties                                     *)
(* ===================================================================== *)

(** An input is signable by the keystore whose key hashes to [h160] when
    one of its keypaths carries the first four bytes of [h160]. *)
Definition signable (h160 : bytes) (input : wally_psbt_input) : bool :=
  match in_keypaths input with
  | Some items =>
      existsb (fun item => bytes_equal (origin_fingerprint item) h160 4) items
  | None => false
  end.

Definition has_keypaths (input : wally_psbt_input) : bool :=
  match in_keypaths input with Some _ => true | None => false end.

Definition keypath_count (input : wally_psbt_input) : option nat :=
  match in_keypaths input with Some items => Some (length items) | None => None end.

Definition single_keypath (input : wally_psbt_input) : bool :=
  match in_keypaths input with Some [_] => true | _ => false end.

(** No signable input of [ins] is followed by one that is not. *)
Definition signable_run (h160 : bytes) (ins : list wally_psbt_input) : Prop :=
  forall (i j : nat) (a b : wally_psbt_input),
    (i < j)%nat -> ins !! i = Some a -> ins !! j = Some b ->
    signable h160 a = true -> signable h160 b = true.

(** The input has no keypaths set, or a set with exactly one entry. *)
Definition not_multi (input : wally_psbt_input) : bool :=
  match in_keypaths input with
  | None | Some [_] => true
  | Some _ => false
  end.

Definition valid_char (c : ascii) : Prop := is_Some (strchr VALID_CHARS c).

Definition is_marker (c : ascii) : bool :=
  Ascii.eqb c "'"%char || Ascii.eqb c "h"%char.

(** The version word the spec asks for under SLIP132 tagging, by the
    first and the fourth element of the path. *)
Definition slip132_version (network : network_t) (derivation : list Z) : Z :=
  match derivation !! 0%nat with
  | Some d0 =>
      if d0 =? BIP32_INITIAL_HARDENED_CHILD + 84 then zpub network
      else if d0 =? BIP32_INITIAL_HARDENED_CHILD + 49 then ypub network
      else if d0 =? BIP32_INITIAL_HARDENED_CHILD + 48 then
        match derivation !! 3%nat with
        | Some d3 =>
            if d3 =? BIP32_INITIAL_HARDENED_CHILD + 1 then Ypub network
            else if d3 =? BIP32_INITIAL_HARDENED_CHILD + 2 then Zpub network
            else xpub network
        | None => xpub network
        end
      else xpub network
  | None => xpub network
  end.

(* ===================================================================== *)
(** * 7. A test double of the collaborators                               *)
(* ===================================================================== *)

(** Stand-ins for libwally and the C library with which the keystore can
    be run on concrete inputs.  They keep the shapes of the real
    functions (a 20-byte hash, a serialization that starts with the
    version word, an injective text encoding) and nothing else. *)
Module Double.

Definition hex_digit (n : Z) : ascii :=
  nth (Z.to_nat n) (str "0123456789abcdef") "0"%char.

Definition hex (b : bytes) : cstring :=
  flat_map (fun x => [hex_digit (x / 16 mod 16); hex_digit (x mod 16)]) b.

Definition hash160 (b : bytes) : bytes := take 20 (drop 1 b ++ repeat 0 20%nat).

Definition derive (k : ext_key) (path : list Z) : ext_key :=
  {| chain_code := chain_code k;
     depth := depth k + Z.of_nat (length path);
     child_num := match last path with Some c => c | None => child_num k end;
     version := version k;
     priv_key := priv_key k ++ map (fun i => i mod 251) path;
     pub_key := pub_key k ++ map (fun i => i mod 251) path |}.

Definition serialize (k : ext_key) : bytes :=
  be32_bytes (version k) ++ [depth k mod 256] ++ pub_key k.

Definition script_class (s : bytes) : script_type :=
  match s with
  | 0 :: _ => WALLY_SCRIPT_TYPE_P2WPKH
  | 0xa9 :: _ => WALLY_SCRIPT_TYPE_P2SH
  | 0x76 :: _ => WALLY_SCRIPT_TYPE_P2PKH
  | _ => WALLY_SCRIPT_TYPE_UNKNOWN
  end.

Definition base64 (psbt : wally_psbt) : cstring :=
  flat_map
    (fun input =>
       match partial_sigs input with
       | Some sigs => flat_map (fun '(pub, der) => hex pub ++ str ":" ++ hex der ++ str ";") sigs
       | None => str "-;"
       end)
    (inputs psbt).

#[global] Instance wally : Wally := {|
  wally_hash160 := hash160;
  bip32_key_from_parent_path := derive;
  bip32_key_serialize := serialize;
  wally_base58_from_bytes := hex;
  wally_scriptpubkey_get_type := script_class;
  wally_addr_segwit_from_bytes := fun s hrp => hrp ++ str "1" ++ hex (drop 2 s);
  wally_bip32_key_to_addr_segwit :=
    fun k hrp => hrp ++ str "1" ++ hex (hash160 (pub_key k));
  wally_bip32_key_to_address := fun k _ v => hex (v :: hash160 (pub_key k));
  wally_scriptpubkey_p2pkh_from_bytes :=
    fun pub => [0x76; 0xa9; 20] ++ hash160 pub ++ [0x88; 0xac];
  wally_tx_get_btc_signature_hash :=
    fun _ i scr amount => i mod 256 :: amount mod 256 :: take 30 scr;
  wally_ec_sig_from_bytes := fun priv hash => priv ++ hash;
  wally_ec_sig_to_der := fun s => 0x30 :: s;
  wally_psbt_to_base64 := base64
|}.

Definition mainnet : network_t := {|
  name := str "main"; bip32 := 0; p2pkh := 0; p2sh := 5; bech32 := str "bc";
  xprv := 0x0488ade4; xpub := 0x0488b21e; ypub := 0x049d7cb2;
  zpub := 0x04b24746; Ypub := 0x0295b43f; Zpub := 0x02aa7ed3
|}.

(** A scanner for descriptor headers written as the format expects them:
    ["name=..."], ["type=..."], ["m=<digits>"], ["n=<digits>"], each on a
    line of its own, then the rest of the text. *)
Fixpoint match_literal (lit s : list ascii) : option (list ascii) :=
  match lit, s with
  | [], _ => Some s
  | a :: lit', b :: s' => if Ascii.eqb a b then match_literal lit' s' else None
  | _ :: _, [] => None
  end.

Definition digit_value (c : ascii) : option Z :=
  let n := nat_of_ascii c in
  if ((48 <=? n) && (n <=? 57))%nat then Some (Z.of_nat n - 48) else None.

Definition is_digit (c : ascii) : bool :=
  match digit_value c with Some _ => true | None => false end.

Definition scan_int (s : list ascii) : option (Z * list ascii) :=
  let '(_, s) := span isspace s in
  let '(ds, s') := span is_digit s in
  match ds with
  | [] => None
  | _ =>
      Some (fold_left
              (fun acc c => acc * 10 + match digit_value c with Some v => v | None => 0 end)
              ds 0, s')
  end.

Definition not_newline (c : ascii) : bool := negb (Ascii.eqb c "010"%char).

Definition header (res : Z) (nm ty : cstring) (m n : Z) (rest : cstring)
  : wallet_header :=
  {| hdr_res := res; hdr_name := nm; hdr_type := ty; hdr_m := m; hdr_n := n;
     hdr_rest := rest |}.

Definition scan_header (buf : cstring) : wallet_header :=
  match match_literal (str "name=") buf with
  | None => header 0 [] [] 0 0 []
  | Some s =>
  let '(nm, s) := span not_newline s in
  match nm with [] => header 0 [] [] 0 0 [] | _ =>
  match match_literal (str "type=") (snd (span isspace s)) with
  | None => header 1 nm [] 0 0 []
  | Some s =>
  let '(ty, s) := span not_newline s in
  match ty with [] => header 1 nm [] 0 0 [] | _ =>
  match match_literal (str "m=") (snd (span isspace s)) with
  | None => header 2 nm ty 0 0 []
  | Some s =>
  match scan_int s with
  | None => header 2 nm ty 0 0 []
  | Some (m, s) =>
  match match_literal (str "n=") (snd (span isspace s)) with
  | None => header 3 nm ty m 0 []
  | Some s =>
  match scan_int s with
  | None => header 3 nm ty m 0 []
  | Some (n, s) =>
  match snd (span isspace s) with
  | [] => header 4 nm ty m n []
  | rest => header 5 nm ty m n rest
  end end end end end end end end end.

#[global] Instance platform : Platform := {|
  Mainnet := mainnet;
  sscanf_header := scan_header
|}.

(** A keystore whose fingerprint is [a1b2c3d4], and keypaths that carry
    this fingerprint or a foreign one. *)
Definition root_key : ext_key :=
  {| chain_code := []; depth := 0; child_num := 0; version := 0x0488ade4;
     priv_key := [0; 7; 7; 7]; pub_key := [2; 0xa1; 0xb2; 0xc3; 0xd4; 9] |}.

Definition key : keystore_t :=
  {| root := Some root_key; fingerprint := str "a1b2c3d4" |}.

Definition mine : keypath_item :=
  {| origin_fingerprint := [0xa1; 0xb2; 0xc3; 0xd4];
     origin_path := [H + 84; H; H; 0; 0] |}.

Definition foreign : keypath_item :=
  {| origin_fingerprint := [0xde; 0xad; 0xbe; 0xef];
     origin_path := [H + 84; H; H; 0; 1] |}.

Definition utxo : wally_tx_output := {| satoshi := 1000; script := [0; 20; 1; 2; 3] |}.

Definition input_with (items : option (list keypath_item)) : wally_psbt_input :=
  {| witness_utxo := Some utxo; in_keypaths := items; partial_sigs := None |}.

Definition no_witness (input : wally_psbt_input) : wally_psbt_input :=
  {| witness_utxo := None; in_keypaths := in_keypaths input;
     partial_sigs := partial_sigs input |}.

Definition proposal (ins : list wally_psbt_input) : wally_psbt :=
  {| tx := {| tx_version := 2; tx_inputs := map (fun _ => ([], 0)) ins;
              tx_outputs := [utxo]; tx_locktime := 0 |};
     inputs := ins;
     outputs := [ {| out_keypaths := Some [mine] |} ] |}.

(** A one-of-one descriptor whose only cosigner is this keystore at
    [48'/0'/0'/2'], with the given extended public key. *)
Definition lines (ls : list string) : cstring :=
  flat_map (fun l => str l ++ ["010"%char]) ls.

Definition descriptor (recorded : string) : cstring :=
  lines ["name=My wallet"; "type=wsh"; "m=1"; "n=1";
         "[a1b2c3d4/48h/0h/0h/2h]" ++ recorded]%string.

End Double.

(* ===================================================================== *)
(** * 7a. Further functions of the keystore                               *)
(* ===================================================================== *)

(** ** [sprintf] conversions *)

Definition digit_char (d : Z) : ascii := ascii_of_nat (48 + Z.to_nat d).

(** The decimal numeral of [n >= 0] with at most [width] digits. *)
Fixpoint decimal_upto (width : nat) (n : Z) : list ascii :=
  match width with
  | O => []
  | S width' =>
      (if n / 10 =? 0 then [] else decimal_upto width' (n / 10))
      ++ [digit_char (n mod 10)]
  end.

(** The decimal numeral of [n] for [0 <= n < 10^10]. *)
Definition decimal (n : Z) : cstring := decimal_upto 10 n.

(** [sprintf("%d", n)] for an [int]. *)
Definition sprintf_d (n : Z) : cstring :=
  if n <? 0 then "-"%char :: decimal (- n) else decimal n.

Definition hex_char (d : Z) : ascii :=
  nth (Z.to_nat d) (str "0123456789abcdef") "0"%char.

(** [sprintf("%02x", b)] for a [uint8_t]. *)
Definition sprintf_02x (b : Z) : cstring :=
  [hex_char (b / 16 mod 16); hex_char (b mod 16)].

(** ** [keystore_init] *)

(** The functions of libwally that turn a mnemonic into the root key. *)
Class WallySeed : Type := {
  bip39_mnemonic_to_seed : cstring -> option cstring -> bytes;
  bip32_key_from_seed : bytes -> Z -> ext_key
}.

(** From libwally's [wally_bip32.h]. *)
Definition BIP32_VER_TEST_PRIVATE : Z := 0x04358394.

Section Init.
Context {W : Wally} {B : WallySeed}.

(** The four [sprintf(key->fingerprint + 2*i, "%02x", h160[i])]. *)
Definition fingerprint_of (h160 : bytes) : outcome cstring :=
  let* b0 := deref (h160 !! 0%nat) in
  let* b1 := deref (h160 !! 1%nat) in
  let* b2 := deref (h160 !! 2%nat) in
  let* b3 := deref (h160 !! 3%nat) in
  Ret (sprintf_02x b0 ++ sprintf_02x b1 ++ sprintf_02x b2 ++ sprintf_02x b3).

(** [keystore_init mnemonic password key]: the value returned and the
    keystore [*key] afterwards; a null [mnemonic] or [key] is [None]. *)
Definition keystore_init (mnemonic password : option cstring)
    (key : option keystore_t) : outcome (Z * option keystore_t) :=
  match key with
  | None => Ret (-1, None)
  | Some k =>
      match mnemonic with
      | None => Ret (0, Some {| root := None; fingerprint := fingerprint k |})
      | Some words =>
          let seed := bip39_mnemonic_to_seed words password in
          let r := bip32_key_from_seed seed BIP32_VER_TEST_PRIVATE in
          let h160 := wally_hash160 (pub_key r) in
          let* fp := fingerprint_of h160 in
          Ret (0, Some {| root := Some r; fingerprint := fp |})
      end
  end.

End Init.

(** ** [keystore_get_addr] and [wallet_get_addresses] *)

(** Modelled from the spec: the two address kinds [KEYSTORE_BECH32_ADDRESS]
    and [KEYSTORE_BASE58_ADDRESS] of [keystore.h], between which the
    caller of [keystore_get_addr] selects by a flag. *)
Inductive address_flag : Type :=
| KEYSTORE_BECH32_ADDRESS
| KEYSTORE_BASE58_ADDRESS.

(** Modelled from the spec: [wallet_t], declared in [keystore.h]: a
    handle on a keystore and a network with the index [val] of the
    wallet (0 is the single-key wallet), the address index and the
    display name. *)
Record wallet_t : Type := {
  w_val : Z;
  w_keystore : keystore_t;
  w_network : network_t;
  w_address : Z;
  w_name : cstring
}.

(** What [wallet_get_addresses] does for a stored multisig wallet
    ([val != 0]): it reads the descriptor file with [fopen] and [fscanf]
    and builds the script from the keys it finds.  File access is not
    modelled; this branch is a parameter. *)
Class WalletFiles : Type := {
  multisig_addresses : wallet_t -> outcome (Z * option cstring * option cstring)
}.

Section Addresses.
Context {W : Wally} {F : WalletFiles}.

(** [keystore_get_addr]: [Some addr] when it returns [WALLY_OK] with
    [*addr] set, [None] when it returns [-1].  The calls into libwally
    are taken to return [WALLY_OK]. *)
Definition keystore_get_addr (key : keystore_t) (path : cstring)
    (network : network_t) (flag : address_flag) : outcome (option cstring) :=
  let* parsed := parse_derivation path in
  match parsed with
  | None => Ret None
  | Some (derivation, len) =>
      let* r := deref (root key) in
      let child := bip32_key_from_parent_path r derivation in
      let child := set_version child (xprv network) in
      match flag with
      | KEYSTORE_BECH32_ADDRESS =>
          Ret (Some (wally_bip32_key_to_addr_segwit child (bech32 network)))
      | KEYSTORE_BASE58_ADDRESS =>
          Ret (Some (wally_bip32_key_to_address child
                       WALLY_ADDRESS_TYPE_P2SH_P2WPKH (p2sh network)))
      end
  end.

(** [sprintf(path, "m/84h/%dh/0h/0/%d", network->bip32, address)]. *)
Definition default_path (network : network_t) (address : Z) : cstring :=
  str "m/84h/" ++ sprintf_d (bip32 network) ++ str "h/0h/0/" ++ sprintf_d address.

(** [wallet_get_addresses wallet base58_addr bech32_addr]: the value
    returned and the two slots afterwards; the arguments are the slots
    before the call. *)
Definition wallet_get_addresses (wallet : wallet_t)
    (base58_addr bech32_addr : option cstring)
  : outcome (Z * option cstring * option cstring) :=
  if w_val wallet =? 0 then
    let path := default_path (w_network wallet) (w_address wallet) in
    let* a1 := keystore_get_addr (w_keystore wallet) path (w_network wallet)
                 KEYSTORE_BECH32_ADDRESS in
    let bech32_addr := match a1 with Some a => Some a | None => bech32_addr end in
    let* a2 := keystore_get_addr (w_keystore wallet) path (w_network wallet)
                 KEYSTORE_BASE58_ADDRESS in
    let base58_addr := match a2 with Some a => Some a | None => base58_addr end in
    Ret (0, base58_addr, bech32_addr)
  else multisig_addresses wallet.

End Addresses.

(** ** Vocabulary *)

(** One segment of a path, the characters between two separators, read
    from the value [a] of [derivation[current]]: the value the second
    loop leaves there, [None] when it returns [NULL]. *)
Fixpoint segment (seg : list ascii) (a : Z) : option Z :=
  match seg with
  | [] => Some a
  | c :: seg' =>
      if BIP32_INITIAL_HARDENED_CHILD <=? a then None
      else
        match strchr VALID_CHARS c with
        | Some val =>
            segment seg'
              (if val <? 10 then u32 (a * 10 + val)
               else u32 (a + BIP32_INITIAL_HARDENED_CHILD))
        | None => None
        end
  end.

(** Segments joined by separators. *)
Fixpoint join (seg : list ascii) (segs : list (list ascii)) : list ascii :=
  match segs with
  | [] => seg
  | seg' :: segs' => seg ++ slash :: join seg' segs'
  end.

(** A path element, index and hardened flag, written with the marker
    [m], and the element as a number of the derivation array. *)
Definition render_element (m : ascii) (e : Z * bool) : list ascii :=
  decimal (fst e) ++ (if snd e then [m] else []).

Definition element_value (e : Z * bool) : Z :=
  fst e + (if snd e then BIP32_INITIAL_HARDENED_CHILD else 0).

(** The text of a path: its elements joined by separators, with or
    without the prefix ["m/"]. *)
Definition render_path (prefix : bool) (m : ascii) (e : Z * bool)
    (es : list (Z * bool)) : cstring :=
  (if prefix then str "m/" else [])
  ++ join (render_element m e) (map (render_element m) es).

(** A decimal digit, and a segment of characters that are valid, are no
    separators and are not ['m']. *)
Definition digit_like (c : ascii) : Prop :=
  exists d, 0 <= d < 10 /\ c = digit_char d.

Definition plain_segment (seg : list ascii) : Prop :=
  seg <> [] /\
  Forall (fun c => valid_char c /\ Ascii.eqb c slash = false
                   /\ Ascii.eqb c "m"%char = false) seg.

(** ['] written as [h]. *)
Definition as_h (c : ascii) : ascii :=
  if Ascii.eqb c "'"%char then "h"%char else c.

(** A cosigner line of a descriptor: ["[origin]xpub"] and the character
    [sep] that ends the line. *)
Definition newline : ascii := "010"%char.

Definition render_cosigner (sep : ascii) (e : cstring * cstring) : cstring :=
  "["%char :: fst e ++ "]"%char :: snd e ++ [sep].

Definition render_cosigners (sep : ascii) (es : list (cstring * cstring)) : cstring :=
  concat (map (render_cosigner sep) es).

(** The fields that [sscanf] reads back from a cosigner line: an origin
    without [']'], a key without white space, both non-empty and short
    enough for the buffers. *)
Definition well_formed_cosigner (e : cstring * cstring) : Prop :=
  fst e <> [] /\ snd e <> [] /\
  Forall (fun c => c <> "]"%char) (fst e) /\
  Forall (fun c => isspace c = false) (snd e) /\
  (length (fst e) < 150)%nat /\ (length (snd e) < 150)%nat.

Section WalletVocabulary.
Context {W : Wally}.

(** A cosigner line of another signer: the comparison of its origin
    with the keystore's fingerprint finds a difference. *)
Definition foreign_line (keystore : keystore_t) (e : cstring * cstring) : Prop :=
  memcmp_buf (storage (fst e)) (storage (fingerprint keystore)) 8 = Ret false.

(** A cosigner line of this keystore that records the plain encoding of
    the key at the path that follows the fingerprint and one more
    character. *)
Definition own_plain_line (keystore : keystore_t) (network : network_t)
    (e : cstring * cstring) : Prop :=
  exists sep path,
    fst e = fingerprint keystore ++ sep :: path /\
    Forall (fun c => c <> NUL) path /\
    keystore_get_xpub keystore path network 0 = Ret (Some (snd e)).

(** The cells written of an array hold a string: a terminator is among
    them. *)
Definition holds_string (cells : list ascii) : Prop :=
  exists s t, cells = s ++ NUL :: t.

(** The fields of the header fit where [keystore_check_wallet] has them
    stored: the name in [char name[100]], the type in [char type[10]],
    the text after the header in the block of [strlen(buf) + 1] bytes. *)
Definition header_fits (buf : cstring) (hdr : wallet_header) : Prop :=
  (length (hdr_name hdr) < 100)%nat /\
  (length (hdr_type hdr) < 10)%nat /\
  (length (hdr_rest hdr) <= length buf)%nat.

End WalletVocabulary.

Module Double2.

#[global] Instance seed : WallySeed := {|
  bip39_mnemonic_to_seed :=
    fun words password =>
      map (fun c => Z.of_nat (nat_of_ascii c))
        (words ++ match password with Some p => p | None => [] end);
  bip32_key_from_seed :=
    fun seed v =>
      {| chain_code := []; depth := 0; child_num := 0; version := v;
         priv_key := 0 :: take 32 seed; pub_key := 2 :: take 32 seed |}
|}.

#[global] Instance files : WalletFiles := {|
  multisig_addresses := fun _ => Ret (-1, None, None)
|}.

Definition default_wallet (address : Z) : wallet_t :=
  {| w_val := 0; w_keystore := Double.key; w_network := Double.mainnet;
     w_address := address; w_name := str "Default (single key)" |}.

(** A descriptor text: the header with the declared number [n] of
    cosigners, then the given lines. *)
Definition descriptor_of (n : string) (ls : list string) : cstring :=
  Double.lines
    ("name=My wallet"%string :: "type=wsh"%string :: "m=1"%string
     :: String.append "n=" n :: ls).

End Double2.

(* ===================================================================== *)
(** * 8. The parser                                                       *)
(* ===================================================================== *)

Example parse_m_84h_0h_0h :
  parse_derivation (str "m/84h/0h/0h") = Ret (Some ([H + 84; H; H], 3)).
Proof. reflexivity. Qed.

Example parse_either_marker :
  parse_derivation (str "84h/0h/0h/0/5") = parse_derivation (str "84'/0'/0'/0/5")
  /\ parse_derivation (str "84'/0'/0'/0/5/") = Ret (Some ([H + 84; H; H; 0; 5], 5)).
Proof. split; reflexivity. Qed.

Example parse_invalid_character :
  parse_derivation (str "44h/x") = Ret None.
Proof. reflexivity. Qed.

Lemma size_wrap_small (z : Z) : 0 <= z < 2 ^ 32 -> size_wrap z = z.
Proof. intros Hz. unfold size_wrap. apply Z.mod_small. exact Hz. Qed.

Lemma slashes_bounds (s : list ascii) : 0 <= slashes s <= Z.of_nat (length s).
Proof.
  induction s as [|c s IH]; simpl; [lia|].
  destruct (Ascii.eqb c slash); lia.
Qed.

Lemma slashes_app (s t : list ascii) : slashes (s ++ t) = slashes s + slashes t.
Proof. induction s as [|c s IH]; simpl; [reflexivity|]. rewrite IH. lia. Qed.

(** The first loop, run inside the object, is [count_chars] on the
    characters it visits. *)
Lemma count_loop_chars (mem : list ascii) :
  forall i len derivationLen,
    i <= len -> len - i <= Z.of_nat (length mem) ->
    count_loop mem i len derivationLen
    = Ret (count_chars (take (Z.to_nat (len - i)) mem) derivationLen).
Proof.
  induction mem as [|c mem IH]; intros i len dl Hi Hlen; simpl in *.
  - assert (len = i) by lia. subst len.
    rewrite Z.ltb_irrefl. simpl. rewrite take_nil. reflexivity.
  - destruct (Z.ltb_spec i len) as [Hlt|Hge]; simpl.
    + replace (Z.to_nat (len - i)) with (S (Z.to_nat (len - (i + 1)))) by lia.
      simpl. destruct (strchr VALID_CHARS c); [|reflexivity].
      apply IH; lia.
    + replace (len - i) with 0 by lia. reflexivity.
Qed.

Lemma fill_loop_chars (mem : list ascii) :
  forall i len derivation current,
    i <= len -> len - i <= Z.of_nat (length mem) ->
    fill_loop mem i len derivation current
    = fill_chars (take (Z.to_nat (len - i)) mem) derivation current.
Proof.
  induction mem as [|c mem IH]; intros i len d cur Hi Hlen; simpl in *.
  - assert (len = i) by lia. subst len.
    rewrite Z.ltb_irrefl. simpl. rewrite take_nil. reflexivity.
  - destruct (Z.ltb_spec i len) as [Hlt|Hge]; simpl.
    + replace (Z.to_nat (len - i)) with (S (Z.to_nat (len - (i + 1)))) by lia.
      simpl. destruct (Ascii.eqb c slash); [apply IH; lia|].
      destruct (strchr VALID_CHARS c) as [val|]; [|reflexivity].
      destruct (d !! cur) as [e|]; [|reflexivity].
      destruct (BIP32_INITIAL_HARDENED_CHILD <=? e); [reflexivity|].
      destruct (val <? 10); apply IH; lia.
    + replace (len - i) with 0 by lia. reflexivity.
Qed.

Lemma strip_slash_snoc (s : list ascii) (c : ascii) :
  strip_slash (s ++ [c]) = if Ascii.eqb c slash then s else s ++ [c].
Proof.
  unfold strip_slash. rewrite last_snoc.
  destruct (Ascii.eqb c slash); [apply removelast_last | reflexivity].
Qed.

Lemma load_inside (pre post : list ascii) (c : ascii) :
  Z.of_nat (length (pre ++ c :: post)) < SIZE_MAX ->
  load (pre ++ c :: post) (Z.of_nat (length pre)) = Some c.
Proof.
  intros Hlen. unfold load, storage. rewrite !length_app in *. simpl in *.
  unfold SIZE_MAX in Hlen.
  rewrite size_wrap_small by lia.
  destruct (Z.ltb_spec (Z.of_nat (length pre))
              (Z.of_nat (length pre + S (length post) + 1))) as [_|Hge]; [|lia].
  rewrite Nat2Z.id, <- app_assoc.
  rewrite lookup_app_r by lia. rewrite Nat.sub_diag. reflexivity.
Qed.

(** After the prefix, on a region [cur] that is not empty, the parser is
    [parse_chars] on [cur] without its trailing separator. *)
Lemma parse_from_chars (pre cur : list ascii) (c : ascii) :
  Z.of_nat (length (pre ++ cur ++ [c])) < SIZE_MAX ->
  parse_from (pre ++ cur ++ [c]) (Z.of_nat (length pre))
    (Z.of_nat (length (cur ++ [c])))
  = parse_chars (strip_slash (cur ++ [c])).
Proof.
  intros Hlen. unfold parse_from.
  assert (Hb : Z.of_nat (length pre) + Z.of_nat (length cur) + 1 < 2 ^ 32 - 1).
  { rewrite !length_app in Hlen. simpl in Hlen. unfold SIZE_MAX in Hlen. lia. }
  rewrite !length_app. simpl length.
  rewrite (size_wrap_small (Z.of_nat (length cur + 1) - 1)) by lia.
  replace (Z.of_nat (length pre) + (Z.of_nat (length cur + 1) - 1))
    with (Z.of_nat (length (pre ++ cur))) by (rewrite length_app; lia).
  replace (pre ++ cur ++ [c]) with ((pre ++ cur) ++ c :: []) at 1
    by (rewrite <- app_assoc; reflexivity).
  rewrite load_inside by (rewrite <- app_assoc; exact Hlen).
  simpl bind. rewrite Nat2Z.id.
  unfold storage. rewrite <- !app_assoc, drop_app_length.
  rewrite strip_slash_snoc.
  unfold parse_chars. change ([c] ++ [NUL]) with [c; NUL].
  destruct (Ascii.eqb c slash).
  - rewrite count_loop_chars by (rewrite ?length_app; simpl; lia).
    rewrite Z.sub_0_r.
    replace (Z.to_nat (Z.of_nat (length cur + 1) - 1)) with (length cur) by lia.
    rewrite take_app_length. simpl bind.
    destruct (count_chars cur 1) as [derivationLen|]; [|reflexivity].
    rewrite fill_loop_chars by (rewrite ?length_app; simpl; lia).
    rewrite Z.sub_0_r.
    replace (Z.to_nat (Z.of_nat (length cur + 1) - 1)) with (length cur) by lia.
    rewrite take_app_length. reflexivity.
  - assert (Htake : take (length cur + 1) (cur ++ [c; NUL]) = cur ++ [c]).
    { replace (cur ++ [c; NUL]) with ((cur ++ [c]) ++ [NUL])
        by (rewrite <- app_assoc; reflexivity).
      apply take_app_length'. rewrite length_app. simpl. lia. }
    rewrite count_loop_chars by (rewrite ?length_app; simpl; lia).
    rewrite Z.sub_0_r, Nat2Z.id, Htake. simpl bind.
    destruct (count_chars (cur ++ [c]) 1) as [derivationLen|]; [|reflexivity].
    rewrite fill_loop_chars by (rewrite ?length_app; simpl; lia).
    rewrite Z.sub_0_r, Nat2Z.id, Htake. reflexivity.
Qed.

Lemma snoc_of_nonempty (s : list ascii) :
  s <> [] -> exists s' c, s = s' ++ [c].
Proof.
  intros Hne. apply last_is_Some in Hne as [c Hc].
  apply last_Some in Hc as [s' ->]. eauto.
Qed.

(** The three strings on which the parser leaves the string's object. *)
Lemma body_None (path : cstring) :
  body path = None <-> path = str "" \/ path = str "m" \/ path = str "m/".
Proof.
  split.
  - destruct path as [|c0 tl]; [auto|]. simpl.
    destruct (Ascii.eqb_spec c0 "m"%char) as [->|_].
    + destruct tl as [|c1 [|c2 tl]]; [auto| |discriminate].
      destruct (Ascii.eqb_spec c1 slash) as [->|_]; [auto|discriminate].
    + discriminate.
  - intros [-> | [-> | ->]]; reflexivity.
Qed.

(** On every other string the parser is [parse_chars] on its [body]. *)
Lemma parse_derivation_body (path : cstring) (b : list ascii) :
  strlen path < SIZE_MAX ->
  body path = Some b ->
  parse_derivation path = parse_chars b.
Proof.
  intros Hlen Hbody. unfold parse_derivation.
  destruct path as [|c0 tl]; [discriminate|].
  pose proof (load_inside [] tl c0 Hlen) as Hload.
  change (load (c0 :: tl) 0 = Some c0) in Hload. rewrite Hload.
  simpl bind. simpl in Hbody.
  destruct (Ascii.eqb c0 "m"%char).
  - destruct tl as [|c1 [|c2 tl]]; [discriminate| |].
    + destruct (Ascii.eqb c1 slash) eqn:Hc1; [discriminate|].
      injection Hbody as <-.
      unfold parse_from.
      change (load [c0; c1] (2 + size_wrap (size_wrap (strlen [c0; c1] - 2) - 1)))
        with (Some c1).
      simpl bind. rewrite Hc1. reflexivity.
    + injection Hbody as <-.
      destruct (snoc_of_nonempty (c2 :: tl)) as (cur & c & Hcur); [discriminate|].
      rewrite Hcur.
      unfold strlen, SIZE_MAX in *. rewrite Hcur in Hlen.
      replace (size_wrap (Z.of_nat (length (c0 :: c1 :: cur ++ [c])) - 2))
        with (Z.of_nat (length (cur ++ [c]))).
      * apply (parse_from_chars [c0; c1] cur c). exact Hlen.
      * simpl length in *. rewrite size_wrap_small; lia.
  - injection Hbody as <-.
    destruct (snoc_of_nonempty (c0 :: tl)) as (cur & c & Hcur); [discriminate|].
    rewrite Hcur. unfold strlen in *. rewrite Hcur in Hlen.
    apply (parse_from_chars [] cur c). exact Hlen.
Qed.

Lemma count_chars_Some (s : list ascii) :
  forall derivationLen n,
    0 <= derivationLen ->
    derivationLen + Z.of_nat (length s) < 2 ^ 32 ->
    count_chars s derivationLen = Some n ->
    n = derivationLen + slashes s /\ Forall valid_char s.
Proof.
  induction s as [|c s IH]; intros dl n Hdl Hlen Hcount; simpl in *.
  - injection Hcount as <-. split; [lia | constructor].
  - destruct (strchr VALID_CHARS c) as [val|] eqn:Hval; [|discriminate].
    destruct (Ascii.eqb c slash).
    + rewrite size_wrap_small in Hcount by lia.
      apply IH in Hcount as [-> HF]; [|lia|lia].
      split; [lia|]. constructor; [|exact HF]. unfold valid_char. rewrite Hval. eauto.
    + apply IH in Hcount as [-> HF]; [|lia|lia].
      split; [lia|]. constructor; [|exact HF]. unfold valid_char. rewrite Hval. eauto.
Qed.

(** The second loop stays inside [derivation] as long as the array has
    one element more than there are separators left to cross. *)
Lemma fill_chars_defined (s : list ascii) :
  forall derivation current,
    Forall valid_char s ->
    Z.of_nat current + slashes s < Z.of_nat (length derivation) ->
    fill_chars s derivation current <> Undefined.
Proof.
  induction s as [|c s IH]; intros d cur HF Hroom; simpl in *; [discriminate|].
  inversion HF as [|? ? [val Hval] HF']; subst.
  pose proof (slashes_bounds s) as Hs.
  destruct (Ascii.eqb c slash).
  - apply IH; [exact HF'|lia].
  - rewrite Hval.
    destruct (lookup_lt_is_Some_2 d cur) as [x Hx]; [lia|].
    rewrite Hx.
    destruct (BIP32_INITIAL_HARDENED_CHILD <=? x); [discriminate|].
    destruct (val <? 10); (apply IH; [exact HF'|rewrite length_insert; lia]).
Qed.

Lemma parse_chars_defined (s : list ascii) :
  Z.of_nat (length s) < SIZE_MAX -> parse_chars s <> Undefined.
Proof.
  intros Hlen. unfold parse_chars, SIZE_MAX in *.
  destruct (count_chars s 1) as [n|] eqn:Hcount; [|discriminate].
  apply count_chars_Some in Hcount as [-> HF]; [|lia|lia].
  pose proof (slashes_bounds s) as Hs.
  pose proof (fill_chars_defined s (repeat 0 (Z.to_nat (1 + slashes s))) 0 HF) as Hd.
  rewrite repeat_length in Hd.
  destruct (fill_chars s (repeat 0 (Z.to_nat (1 + slashes s))) 0) as [[d|]|];
    simpl; try discriminate.
  exfalso. apply Hd; [lia | reflexivity].
Qed.

Lemma body_length (path : cstring) (b : list ascii) :
  body path = Some b -> (length b <= length path)%nat.
Proof.
  assert (Hstrip : forall s, (length (strip_slash s) <= length s)%nat).
  { intros s. destruct s as [|x s] using rev_ind; [simpl; lia|].
    rewrite strip_slash_snoc, length_app. simpl.
    destruct (Ascii.eqb x slash); [lia | rewrite length_app; simpl; lia]. }
  destruct path as [|c0 tl]; [discriminate|]. simpl.
  destruct (Ascii.eqb c0 "m"%char).
  - destruct tl as [|c1 [|c2 tl]]; [discriminate| |].
    + destruct (Ascii.eqb c1 slash); [discriminate|].
      intros [= <-]. simpl. lia.
    + intros [= <-]. pose proof (Hstrip (c2 :: tl)). simpl in *. lia.
  - intros [= <-]. apply (Hstrip (c0 :: tl)).
Qed.

(** The parser reads outside the string exactly on [""], ["m"] and
    ["m/"]. *)
Lemma parse_derivation_Undefined (path : cstring) :
  strlen path < SIZE_MAX ->
  parse_derivation path = Undefined
  <-> path = str "" \/ path = str "m" \/ path = str "m/".
Proof.
  intros Hlen. split.
  - intros Hundef. apply body_None.
    destruct (body path) as [b|] eqn:Hbody; [|reflexivity].
    rewrite (parse_derivation_body path b Hlen Hbody) in Hundef.
    apply parse_chars_defined in Hundef; [contradiction|].
    apply body_length in Hbody. unfold strlen in Hlen. lia.
  - intros [-> | [-> | ->]]; reflexivity.
Qed.

Lemma marker_val (m : ascii) :
  is_marker m = true ->
  Ascii.eqb m slash = false /\
  exists val, strchr VALID_CHARS m = Some val /\ (val <? 10) = false.
Proof.
  unfold is_marker. intros Hm. apply orb_true_iff in Hm as [Hm|Hm];
    apply Ascii.eqb_eq in Hm; subst m; (split; [reflexivity|]).
  - exists 11. split; reflexivity.
  - exists 12. split; reflexivity.
Qed.

(** A marker puts [derivation[current]] into the hardened range, and the
    next character of the segment meets the test that returns [NULL]. *)
Lemma fill_chars_hardened (pre : list ascii) :
  forall (m c : ascii) (post : list ascii) (derivation : list Z) (current : nat),
    Forall valid_char (pre ++ m :: c :: post) ->
    is_marker m = true ->
    c <> slash ->
    Forall (fun d => 0 <= d) derivation ->
    Z.of_nat current + slashes pre < Z.of_nat (length derivation) ->
    fill_chars (pre ++ m :: c :: post) derivation current = Ret None.
Proof.
  induction pre as [|x pre IH]; intros m c post d cur HF Hm Hc Hd Hroom.
  - simpl in *.
    destruct (marker_val m Hm) as (Hms & val & Hval & Hval10).
    rewrite Hms, Hval.
    destruct (lookup_lt_is_Some_2 d cur) as [e He]; [lia|]. rewrite He.
    destruct (Z.leb_spec BIP32_INITIAL_HARDENED_CHILD e) as [Hle|Hlt];
      [reflexivity|].
    rewrite Hval10.
    destruct (Ascii.eqb_spec c slash) as [->|_]; [contradiction|].
    inversion HF as [|? ? _ HF']. inversion HF' as [|? ? [v Hv] _]. subst.
    rewrite Hv, list_lookup_insert_eq by lia.
    assert (0 <= e) by (eapply (Forall_lookup_1 _ d); eassumption).
    unfold u32, BIP32_INITIAL_HARDENED_CHILD in *.
    rewrite Z.mod_small by lia.
    destruct (Z.leb_spec 0x80000000 (e + 0x80000000)); [reflexivity|lia].
  - simpl in *. inversion HF as [|? ? [v Hv] HF']. subst.
    pose proof (slashes_bounds pre) as Hs.
    destruct (Ascii.eqb x slash).
    + apply IH; try assumption. lia.
    + rewrite Hv.
      destruct (lookup_lt_is_Some_2 d cur) as [e He]; [lia|]. rewrite He.
      destruct (BIP32_INITIAL_HARDENED_CHILD <=? e); [reflexivity|].
      assert (Hu : forall z, 0 <= u32 z).
      { intros z. unfold u32. apply Z.mod_pos_bound. lia. }
      destruct (v <? 10);
        (apply IH; try assumption;
         [apply Forall_insert; [assumption | apply Hu]
         | rewrite length_insert; lia]).
Qed.

Lemma parse_chars_hardened (pre post : list ascii) (m c : ascii) :
  Z.of_nat (length (pre ++ m :: c :: post)) < SIZE_MAX ->
  is_marker m = true ->
  c <> slash ->
  parse_chars (pre ++ m :: c :: post) = Ret None.
Proof.
  intros Hlen Hm Hc. unfold parse_chars, SIZE_MAX in *.
  destruct (count_chars (pre ++ m :: c :: post) 1) as [n|] eqn:Hcount;
    [|reflexivity].
  apply count_chars_Some in Hcount as [-> HF]; [|lia|lia].
  rewrite (fill_chars_hardened pre m c post); [reflexivity|assumption..| |].
  - apply List.Forall_forall. intros x Hx. apply repeat_spec in Hx. lia.
  - rewrite repeat_length, slashes_app.
    pose proof (slashes_bounds pre). pose proof (slashes_bounds (m :: c :: post)).
    lia.
Qed.

Lemma strip_slash_keeps (pre post : list ascii) (m c : ascii) :
  c <> slash ->
  exists post', strip_slash (pre ++ m :: c :: post) = pre ++ m :: c :: post'.
Proof.
  intros Hc. destruct post as [|z post _] using rev_ind.
  - exists []. replace (pre ++ [m; c]) with ((pre ++ [m]) ++ [c])
      by (rewrite <- app_assoc; reflexivity).
    rewrite strip_slash_snoc.
    destruct (Ascii.eqb_spec c slash); [contradiction|reflexivity].
  - replace (pre ++ m :: c :: post ++ [z]) with ((pre ++ m :: c :: post) ++ [z])
      by (rewrite <- app_assoc; reflexivity).
    rewrite strip_slash_snoc. destruct (Ascii.eqb z slash).
    + exists post. reflexivity.
    + exists (post ++ [z]). rewrite <- app_assoc. reflexivity.
Qed.

(** C3.  On the empty string, on ["m"] and on ["m/"] the parser reads
    outside the bounds of the string it was given: [cur[len-1]] is
    [path[-1]] for the empty string, and for ["m"] and ["m/"] the length
    wraps around to [SIZE_MAX] and the first loop runs past the
    terminator.  The parser is not memory-safe on every input. *)
Theorem parse_derivation_leaves_the_string :
  parse_derivation (str "") = Undefined /\
  parse_derivation (str "m") = Undefined /\
  parse_derivation (str "m/") = Undefined.
Proof. repeat split; reflexivity. Qed.

(** C8.  Parsing the empty path string does not yield a path of length
    0: the parser reads [path[-1]], and on an empty region its loops
    return the one-element path [[0]] with [*derlen = 1], as they do for
    ["/"]. *)
Theorem parse_derivation_empty_path :
  parse_derivation (str "") = Undefined /\
  parse_chars [] = Ret (Some ([0], 1)) /\
  parse_derivation (str "/") = Ret (Some ([0], 1)).
Proof. repeat split; reflexivity. Qed.

(** No string at all is parsed to a path of length 0. *)
Lemma parse_derivation_never_empty (path : cstring) (derivation : list Z) (n : Z) :
  strlen path < SIZE_MAX ->
  parse_derivation path = Ret (Some (derivation, n)) ->
  1 <= n.
Proof.
  intros Hlen Hparse.
  destruct (body path) as [b|] eqn:Hbody.
  - rewrite (parse_derivation_body path b Hlen Hbody) in Hparse.
    apply body_length in Hbody. unfold strlen, SIZE_MAX, parse_chars in *.
    destruct (count_chars b 1) as [k|] eqn:Hcount; [|discriminate].
    apply count_chars_Some in Hcount as [-> _]; [|lia|lia].
    destruct (fill_chars b _ 0) as [[d|]|]; simpl in Hparse; try discriminate.
    injection Hparse as _ <-. pose proof (slashes_bounds b). lia.
  - apply body_None in Hbody.
    destruct Hbody as [-> | [-> | ->]]; discriminate.
Qed.

(** C7.  In every path string, a hardening marker that the parser
    processes and that is followed in the same segment by one more
    character (a digit, or a second marker) makes the parser return
    [NULL].  The marker is processed when it lies after the two
    characters that are skipped for a leading ['m']. *)
Theorem hardened_segment_accepts_nothing_more
    (path pre post : cstring) (m c : ascii) :
  strlen path < SIZE_MAX ->
  path = pre ++ m :: c :: post ->
  is_marker m = true ->
  c <> slash ->
  head path <> Some "m"%char \/ (2 <= length pre)%nat ->
  parse_derivation path = Ret None.
Proof.
  intros Hlen -> Hm Hc Hpos.
  assert (Hbody : exists pre' post',
             body (pre ++ m :: c :: post) = Some (pre' ++ m :: c :: post')
             /\ (length (pre' ++ m :: c :: post')
                 <= length (pre ++ m :: c :: post))%nat).
  { destruct (body (pre ++ m :: c :: post)) as [b|] eqn:Hb.
    2:{ exfalso. apply body_None in Hb. unfold str in Hb. simpl in Hb.
        destruct Hb as [Hb | [Hb | Hb]]; destruct pre as [|? [|? [|? ?]]];
          try discriminate Hb.
        injection Hb as _ -> _. apply Hc. reflexivity. }
    pose proof (body_length _ _ Hb) as Hbl.
    destruct pre as [|c0 pre].
    - simpl in Hb. destruct (Ascii.eqb_spec m "m"%char) as [->|_];
        [vm_compute in Hm; discriminate Hm|].
      destruct (strip_slash_keeps [] post m c Hc) as [post' Hs].
      simpl in Hs. rewrite Hs in Hb. injection Hb as <-.
      exists [], post'. split; [reflexivity | exact Hbl].
    - simpl in Hb. destruct (Ascii.eqb_spec c0 "m"%char) as [->|Hne].
      + destruct Hpos as [Hhd | Hpre]; [contradiction Hhd; reflexivity|].
        destruct pre as [|c1 pre]; [simpl in Hpre; lia|].
        destruct (strip_slash_keeps pre post m c Hc) as [post' Hs].
        assert (Hcur : exists x tl, pre ++ m :: c :: post = x :: tl)
          by (destruct pre; simpl; eauto).
        destruct Hcur as (x & tl & Hcur). simpl in Hb. rewrite Hcur in Hb.
        rewrite <- Hcur, Hs in Hb. injection Hb as <-.
        exists pre, post'. split; [reflexivity | exact Hbl].
      + destruct (strip_slash_keeps (c0 :: pre) post m c Hc) as [post' Hs].
        simpl in Hs. rewrite Hs in Hb. injection Hb as <-.
        exists (c0 :: pre), post'. split; [reflexivity | exact Hbl]. }
  destruct Hbody as (pre' & post' & Hbody & Hbl).
  rewrite (parse_derivation_body _ _ Hlen Hbody).
  apply parse_chars_hardened; try assumption.
  unfold strlen in Hlen. lia.
Qed.

Lemma hardened_segment_accepts_nothing_more_witness :
  strlen (str "m/44h1/0") < SIZE_MAX /\
  parse_derivation (str "m/44h1/0") = Ret None /\
  parse_derivation (str "0''") = Ret None.
Proof.
  split; [reflexivity|]. split.
  - apply (hardened_segment_accepts_nothing_more
             (str "m/44h1/0") (str "m/44") (str "/0") "h"%char "1"%char);
      [reflexivity | reflexivity | reflexivity | discriminate | right; simpl; lia].
  - apply (hardened_segment_accepts_nothing_more
             (str "0''") (str "0") [] "'"%char "'"%char);
      [reflexivity | reflexivity | reflexivity | discriminate | left; discriminate].
Defined.

(* ===================================================================== *)
(** * 9. The policy check                                                 *)
(* ===================================================================== *)

Section Policy.
Variable h160 : bytes.

Lemma can_sign_loop_signable (input : wally_psbt_input) (items : list keypath_item) :
  in_keypaths input = Some items ->
  can_sign_loop h160 items = signable h160 input.
Proof.
  intros Hk. unfold signable. rewrite Hk. clear Hk.
  induction items as [|item items IH]; simpl; [reflexivity|].
  destruct (bytes_equal (origin_fingerprint item) h160 4); [reflexivity|exact IH].
Qed.

Lemma single_keypath_items (input : wally_psbt_input) :
  single_keypath input = true -> exists item, in_keypaths input = Some [item].
Proof.
  unfold single_keypath. destruct (in_keypaths input) as [[|item [|? ?]]|];
    try discriminate. eauto.
Qed.

(** One round of the loop on an input with exactly one keypath. *)
Lemma check_inputs_single (input : wally_psbt_input) (ins : list wally_psbt_input)
    (err : psbt_status) :
  single_keypath input = true ->
  check_inputs h160 (input :: ins) err
  = if signable h160 input then check_inputs h160 ins PSBT_OK
    else if is_zero err then KEYSTORE_PSBTERR_MIXED_INPUTS
         else check_inputs h160 ins err.
Proof.
  intros Hs. destruct (single_keypath_items input Hs) as [item Hk].
  simpl. rewrite Hk, (can_sign_loop_signable input [item] Hk).
  destruct (signable h160 input); simpl; [reflexivity|].
  destruct (is_zero err); reflexivity.
Qed.

Lemma signable_run_tail (input : wally_psbt_input) (ins : list wally_psbt_input) :
  signable_run h160 (input :: ins) -> signable_run h160 ins.
Proof.
  intros Hrun i j a b Hij Ha Hb. apply (Hrun (S i) (S j)); [lia|exact Ha|exact Hb].
Qed.

Lemma signable_run_head (input : wally_psbt_input) (ins : list wally_psbt_input) :
  signable_run h160 (input :: ins) -> signable h160 input = true ->
  Forall (fun x => signable h160 x = true) ins.
Proof.
  intros Hrun Hs. apply Forall_lookup. intros j b Hb.
  apply (Hrun 0%nat (S j) input b); [lia|reflexivity|exact Hb|exact Hs].
Qed.

(** Signable input first: a later input that has keypaths and is not
    signable ends the loop with [MIXED_INPUTS]. *)
Lemma check_inputs_mixed (pre : list wally_psbt_input) :
  forall (x : wally_psbt_input) (post : list wally_psbt_input) (err : psbt_status),
    Forall (fun a => single_keypath a = true) pre ->
    is_zero err = true \/ Exists (fun a => signable h160 a = true) pre ->
    has_keypaths x = true ->
    signable h160 x = false ->
    check_inputs h160 (pre ++ x :: post) err = KEYSTORE_PSBTERR_MIXED_INPUTS.
Proof.
  induction pre as [|a pre IH]; intros x post err Hsingle Hsig Hkp Hx.
  - destruct Hsig as [Hz|Hex]; [|inversion Hex].
    simpl. unfold has_keypaths in Hkp.
    destruct (in_keypaths x) as [items|] eqn:Hitems; [|discriminate].
    rewrite (can_sign_loop_signable x items Hitems), Hx, Hz. reflexivity.
  - inversion Hsingle as [|? ? Ha Hpre]; subst.
    change ((a :: pre) ++ x :: post) with (a :: (pre ++ x :: post)).
    rewrite (check_inputs_single a _ err Ha).
    destruct (signable h160 a) eqn:Hsa.
    + apply IH; auto.
    + destruct (is_zero err) eqn:Hz; [reflexivity|].
      apply IH; auto. right.
      destruct Hsig as [Hz'|Hex]; [congruence|].
      inversion Hex; subst; [congruence|assumption].
Qed.

(** An input without keypaths ends the loop with [CANNOT_SIGN] when the
    inputs before it pass. *)
Lemma check_inputs_no_keypaths (pre : list wally_psbt_input) :
  forall (x : wally_psbt_input) (post : list wally_psbt_input) (err : psbt_status),
    Forall (fun a => single_keypath a = true) pre ->
    signable_run h160 pre ->
    (is_zero err = true -> Forall (fun a => signable h160 a = true) pre) ->
    in_keypaths x = None ->
    check_inputs h160 (pre ++ x :: post) err = KEYSTORE_PSBTERR_CANNOT_SIGN.
Proof.
  induction pre as [|a pre IH]; intros x post err Hsingle Hrun Hz Hx.
  - simpl. rewrite Hx. reflexivity.
  - inversion Hsingle as [|? ? Ha Hpre]; subst.
    change ((a :: pre) ++ x :: post) with (a :: (pre ++ x :: post)).
    rewrite (check_inputs_single a _ err Ha).
    destruct (signable h160 a) eqn:Hsa.
    + apply IH; auto.
      * eapply signable_run_tail; eassumption.
      * intros _. eapply signable_run_head; eassumption.
    + destruct (is_zero err) eqn:Hze.
      * specialize (Hz eq_refl). inversion Hz; subst. congruence.
      * apply IH; auto.
        -- eapply signable_run_tail; eassumption.
        -- intros Hz'. congruence.
Qed.

(** No input signable, none with several keypaths: [err] is never
    changed and no round returns anything else. *)
Lemma check_inputs_none_signable (ins : list wally_psbt_input) :
  Forall (fun a => signable h160 a = false /\ not_multi a = true) ins ->
  check_inputs h160 ins KEYSTORE_PSBTERR_CANNOT_SIGN = KEYSTORE_PSBTERR_CANNOT_SIGN.
Proof.
  induction ins as [|a ins IH]; intros HF; [reflexivity|].
  inversion HF as [|? ? [Hsa Hnm] HF']; subst.
  unfold not_multi in Hnm.
  destruct (in_keypaths a) as [[|item [|? ?]]|] eqn:Hk; try discriminate.
  - rewrite check_inputs_single by (unfold single_keypath; rewrite Hk; reflexivity).
    rewrite Hsa. simpl. apply IH. exact HF'.
  - simpl. rewrite Hk. reflexivity.
Qed.

(** The count of keypaths is examined on every input that has keypaths
    and is reached with a non-zero [err] or is itself signable. *)
Lemma check_inputs_unsupported (pre : list wally_psbt_input) :
  forall (x : wally_psbt_input) (post : list wally_psbt_input)
         (items : list keypath_item) (err : psbt_status),
    Forall (fun a => has_keypaths a = true /\ signable h160 a = false) pre ->
    is_zero err = false ->
    in_keypaths x = Some items ->
    length items <> 1%nat ->
    check_inputs h160 (pre ++ x :: post) err = KEYSTORE_PSBTERR_UNSUPPORTED_POLICY.
Proof.
  induction pre as [|a pre IH]; intros x post items err Hpre Hz Hx Hlen.
  - simpl. rewrite Hx, Hz, andb_false_r.
    destruct (Nat.eqb_spec (length items) 1); [contradiction|reflexivity].
  - inversion Hpre as [|? ? [Hka Hsa] Hpre']; subst.
    unfold has_keypaths in Hka.
    destruct (in_keypaths a) as [its|] eqn:Hits; [|discriminate].
    simpl. rewrite Hits, (can_sign_loop_signable a its Hits), Hsa, Hz. simpl.
    destruct (length its =? 1)%nat; simpl; [|reflexivity].
    eapply IH; eassumption.
Qed.

End Policy.

Section PolicyClaims.
Context {W : Wally}.

(** C1, as the code has it.  When the inputs up to some input [x] all
    have exactly one keypath and one of them is signable, and [x] has
    keypaths of which none carries the keystore's fingerprint, the check
    returns [MIXED_INPUTS].  The signable input comes first here; the
    statement is silent about the other order. *)
Theorem check_psbt_mixed_inputs (key : keystore_t) (r : ext_key)
    (psbt : wally_psbt) (pre post : list wally_psbt_input) (x : wally_psbt_input) :
  root key = Some r ->
  inputs psbt = pre ++ x :: post ->
  Forall (fun a => single_keypath a = true) pre ->
  Exists (fun a => signable (wally_hash160 (pub_key r)) a = true) pre ->
  has_keypaths x = true ->
  signable (wally_hash160 (pub_key r)) x = false ->
  keystore_check_psbt key psbt = Ret KEYSTORE_PSBTERR_MIXED_INPUTS.
Proof.
  intros Hroot Hins Hsingle Hsig Hkp Hx.
  unfold keystore_check_psbt. rewrite Hroot. simpl. rewrite Hins.
  f_equal. apply check_inputs_mixed; auto.
Qed.

(** C5, as the code has it.  (1) A proposal with an input that has no
    keypaths at all is answered with [CANNOT_SIGN] when the inputs
    before it have exactly one keypath each and no signable one among
    them is followed by one that is not.  (2) A proposal in which no
    input is signable is answered with [CANNOT_SIGN] when no input has a
    keypaths set with a number of entries other than one; the proposal
    without inputs is such a proposal. *)
Theorem check_psbt_cannot_sign (key : keystore_t) (r : ext_key) (psbt : wally_psbt) :
  root key = Some r ->
  (forall (pre post : list wally_psbt_input) (x : wally_psbt_input),
      inputs psbt = pre ++ x :: post ->
      in_keypaths x = None ->
      Forall (fun a => single_keypath a = true) pre ->
      signable_run (wally_hash160 (pub_key r)) pre ->
      keystore_check_psbt key psbt = Ret KEYSTORE_PSBTERR_CANNOT_SIGN)
  /\
  (Forall (fun a => signable (wally_hash160 (pub_key r)) a = false
                    /\ not_multi a = true) (inputs psbt) ->
   keystore_check_psbt key psbt = Ret KEYSTORE_PSBTERR_CANNOT_SIGN).
Proof.
  intros Hroot. unfold keystore_check_psbt. rewrite Hroot. simpl. split.
  - intros pre post x Hins Hx Hsingle Hrun. rewrite Hins. f_equal.
    apply check_inputs_no_keypaths; auto. discriminate.
  - intros HF. f_equal. apply check_inputs_none_signable. exact HF.
Qed.

(** C10, as the code has it.  An input whose keypaths set is present
    with a number of entries other than one is answered with
    [UNSUPPORTED_POLICY], whether or not one of its keypaths carries
    the keystore's fingerprint, when every earlier input has keypaths
    and none of the earlier inputs is signable. *)
Theorem check_psbt_counts_every_input (key : keystore_t) (r : ext_key)
    (psbt : wally_psbt) (pre post : list wally_psbt_input) (x : wally_psbt_input)
    (items : list keypath_item) :
  root key = Some r ->
  inputs psbt = pre ++ x :: post ->
  Forall (fun a => has_keypaths a = true
                   /\ signable (wally_hash160 (pub_key r)) a = false) pre ->
  in_keypaths x = Some items ->
  length items <> 1%nat ->
  keystore_check_psbt key psbt = Ret KEYSTORE_PSBTERR_UNSUPPORTED_POLICY.
Proof.
  intros Hroot Hins Hpre Hx Hlen.
  unfold keystore_check_psbt. rewrite Hroot. simpl. rewrite Hins.
  f_equal. eapply check_inputs_unsupported; eauto.
Qed.

End PolicyClaims.

Lemma signable_run_one (h160 : bytes) (a : wally_psbt_input) :
  signable_run h160 [a].
Proof.
  intros i j x y Hij _ Hy. destruct j as [|j]; [lia|]. discriminate Hy.
Qed.

(** C1 as the spec words it fails on these two proposals.  In each,
    input 0 is signable and input 1 is not.  In the first, input 0
    carries two keypaths and is answered with [UNSUPPORTED_POLICY]; in
    the second, input 1 has no keypaths and is answered with
    [CANNOT_SIGN]. *)
Lemma check_psbt_mixed_inputs_counterexample :
  let h160 := wally_hash160 (pub_key Double.root_key) in
  let two := Double.input_with (Some [Double.mine; Double.foreign]) in
  let one := Double.input_with (Some [Double.mine]) in
  let other := Double.input_with (Some [Double.foreign]) in
  let bare := Double.input_with None in
  (signable h160 two = true /\ signable h160 other = false /\
   keystore_check_psbt Double.key (Double.proposal [two; other])
   = Ret KEYSTORE_PSBTERR_UNSUPPORTED_POLICY) /\
  (signable h160 one = true /\ signable h160 bare = false /\
   keystore_check_psbt Double.key (Double.proposal [one; bare])
   = Ret KEYSTORE_PSBTERR_CANNOT_SIGN).
Proof. repeat split; reflexivity. Qed.

Lemma check_psbt_mixed_inputs_witness :
  keystore_check_psbt Double.key
    (Double.proposal [Double.input_with (Some [Double.mine]);
                      Double.input_with (Some [Double.foreign])])
  = Ret KEYSTORE_PSBTERR_MIXED_INPUTS.
Proof.
  apply (check_psbt_mixed_inputs Double.key Double.root_key _
           [Double.input_with (Some [Double.mine])] []
           (Double.input_with (Some [Double.foreign])));
    [reflexivity | reflexivity | repeat constructor | | reflexivity | reflexivity].
  apply Exists_cons_hd. reflexivity.
Defined.

(** With the input that is not signable in front, the same two inputs
    pass the check with status [0]. *)
Example check_psbt_unsignable_first :
  keystore_check_psbt Double.key
    (Double.proposal [Double.input_with (Some [Double.foreign]);
                      Double.input_with (Some [Double.mine])])
  = Ret PSBT_OK.
Proof. reflexivity. Qed.

(** C5 as the spec words it fails on this proposal: input 1 has no
    keypaths at all and no input is signable, yet input 0, with two
    foreign keypaths, is answered with [UNSUPPORTED_POLICY]. *)
Lemma check_psbt_cannot_sign_counterexample :
  let h160 := wally_hash160 (pub_key Double.root_key) in
  let two := Double.input_with (Some [Double.foreign; Double.foreign]) in
  let bare := Double.input_with None in
  in_keypaths bare = None /\
  signable h160 two = false /\ signable h160 bare = false /\
  keystore_check_psbt Double.key (Double.proposal [two; bare])
  = Ret KEYSTORE_PSBTERR_UNSUPPORTED_POLICY.
Proof. repeat split; reflexivity. Qed.

Lemma check_psbt_cannot_sign_witness :
  keystore_check_psbt Double.key
    (Double.proposal [Double.input_with (Some [Double.foreign]);
                      Double.input_with None])
  = Ret KEYSTORE_PSBTERR_CANNOT_SIGN
  /\ keystore_check_psbt Double.key (Double.proposal [])
     = Ret KEYSTORE_PSBTERR_CANNOT_SIGN.
Proof.
  split.
  - apply (proj1 (check_psbt_cannot_sign Double.key Double.root_key _ eq_refl)
             [Double.input_with (Some [Double.foreign])] []
             (Double.input_with None));
      [reflexivity | reflexivity | repeat constructor | apply signable_run_one].
  - apply (proj2 (check_psbt_cannot_sign Double.key Double.root_key
                    (Double.proposal []) eq_refl)).
    constructor.
Defined.

(** C10 as the spec words it fails on this proposal: input 0 is signable
    with one keypath and triggers nothing; input 1 has two keypaths,
    none with the keystore's fingerprint, and is answered with
    [MIXED_INPUTS] before its keypaths are counted. *)
Lemma check_psbt_counts_every_input_counterexample :
  let h160 := wally_hash160 (pub_key Double.root_key) in
  let one := Double.input_with (Some [Double.mine]) in
  let two := Double.input_with (Some [Double.foreign; Double.foreign]) in
  keystore_check_psbt Double.key (Double.proposal [one]) = Ret PSBT_OK /\
  keypath_count two = Some 2%nat /\
  signable h160 two = false /\
  keystore_check_psbt Double.key (Double.proposal [one; two])
  = Ret KEYSTORE_PSBTERR_MIXED_INPUTS.
Proof. repeat split; reflexivity. Qed.

Lemma check_psbt_counts_every_input_witness :
  keystore_check_psbt Double.key
    (Double.proposal [Double.input_with (Some [Double.foreign]);
                      Double.input_with (Some [Double.foreign; Double.foreign])])
  = Ret KEYSTORE_PSBTERR_UNSUPPORTED_POLICY.
Proof.
  apply (check_psbt_counts_every_input Double.key Double.root_key _
           [Double.input_with (Some [Double.foreign])] []
           (Double.input_with (Some [Double.foreign; Double.foreign]))
           [Double.foreign; Double.foreign]);
    [reflexivity | reflexivity | repeat constructor | reflexivity | discriminate].
Defined.

(* ===================================================================== *)
(** * 10. Change detection and the signing pass                           *)
(* ===================================================================== *)

Section ChangeAndSign.
Context {W : Wally} {P : Platform}.

Lemma u8_small (i : Z) : 0 <= i < 256 -> u8 i = i.
Proof. intros Hi. unfold u8. apply Z.mod_small. lia. Qed.

(** C9.  For an output index, a value of the eight-bit parameter, at or
    beyond the number of outputs the change detector returns [0]: the
    index is tested before anything is read. *)
Theorem output_is_change_out_of_range (key : keystore_t) (psbt : wally_psbt) (i : Z) :
  0 <= i < 256 ->
  num_outputs psbt <= i ->
  keystore_output_is_change key psbt i = Ret 0.
Proof.
  intros Hr Hi. unfold keystore_output_is_change. rewrite (u8_small i Hr).
  cbv zeta.
  destruct (Z.leb_spec (num_outputs psbt) i) as [_|Hlt]; [reflexivity|lia].
Qed.

(** An argument that does not fit eight bits is converted before the
    function sees it: the call examines the output at the index modulo
    [256]. *)
Lemma output_is_change_converts (key : keystore_t) (psbt : wally_psbt) (i : Z) :
  keystore_output_is_change key psbt (i + 256) = keystore_output_is_change key psbt i.
Proof.
  unfold keystore_output_is_change, u8.
  replace ((i + 256) mod 2 ^ 8) with (i mod 2 ^ 8); [reflexivity|].
  change 256 with (1 * 2 ^ 8). rewrite Z.mod_add by lia. reflexivity.
Qed.

(** The signing loop on inputs of which one has no witness UTXO: it
    returns [-1], unless an input before that one has no keypath to
    derive the key from, or the keystore has no root. *)
Lemma sign_inputs_missing_witness (key : keystore_t) (t : wally_tx)
    (ins : list wally_psbt_input) :
  forall (i : Z) (signed_ins : list wally_psbt_input),
    Exists (fun a => witness_utxo a = None) ins ->
    sign_inputs key t ins i signed_ins = Ret None
    \/ sign_inputs key t ins i signed_ins = Undefined.
Proof.
  induction ins as [|a ins IH]; intros i signed Hex; [inversion Hex|].
  simpl. destruct (witness_utxo a) as [u|] eqn:Hw; [|left; reflexivity].
  inversion Hex as [? ? Ha|? ? Hex']; subst; [congruence|].
  destruct (in_keypaths a) as [items|]; simpl; [|right; reflexivity].
  destruct (items !! 0%nat) as [item|]; simpl; [|right; reflexivity].
  destruct (root key) as [r|]; simpl; [|right; reflexivity].
  destruct (signed !! Z.to_nat i) as [s|]; simpl; [|right; reflexivity].
  apply IH. exact Hex'.
Qed.

Lemma sign_inputs_aborts (key : keystore_t) (r : ext_key) (t : wally_tx)
    (ins : list wally_psbt_input) :
  forall (k : nat) (input : wally_psbt_input) (i : Z)
         (signed_ins : list wally_psbt_input),
    root key = Some r ->
    ins !! k = Some input ->
    witness_utxo input = None ->
    Forall (fun a => exists item items, in_keypaths a = Some (item :: items))
      (take k ins) ->
    0 <= i ->
    i + Z.of_nat (length ins) <= Z.of_nat (length signed_ins) ->
    sign_inputs key t ins i signed_ins = Ret None.
Proof.
  induction ins as [|a ins IH]; intros k input i signed Hroot Hk Hw Hpre Hi Hlen;
    [discriminate Hk|].
  destruct k as [|k]; simpl in Hk.
  - injection Hk as ->. simpl. rewrite Hw. reflexivity.
  - simpl in Hpre. inversion Hpre as [|? ? (item & items & Hitems) Hpre']; subst.
    simpl. destruct (witness_utxo a) as [u|]; [|reflexivity].
    rewrite Hitems, Hroot. simpl in *.
    destruct (lookup_lt_is_Some_2 signed (Z.to_nat i)) as [s Hs]; [lia|].
    rewrite Hs. simpl.
    apply (IH k input); try assumption; [lia|].
    rewrite length_insert. lia.
Qed.

(** C4.  When some input [k] of the proposal has no witness UTXO, the
    signing pass does not return a signed proposal: it returns [-1] and
    leaves the caller's output slot as it was (or it stops in undefined
    behaviour before reaching input [k], without a result).  When the
    keystore has a root and every input before [k] has a keypath, as in
    every proposal that went through the policy check, it returns [-1]. *)
Theorem sign_psbt_missing_witness (key : keystore_t) (psbt : wally_psbt)
    (output : option cstring) (k : nat) (input : wally_psbt_input) :
  inputs psbt !! k = Some input ->
  witness_utxo input = None ->
  (keystore_sign_psbt key psbt output = Ret (-1, output)
   \/ keystore_sign_psbt key psbt output = Undefined)
  /\
  (root key <> None ->
   Forall (fun a => exists item items, in_keypaths a = Some (item :: items))
     (take k (inputs psbt)) ->
   keystore_sign_psbt key psbt output = Ret (-1, output)).
Proof.
  intros Hk Hw. unfold keystore_sign_psbt. split.
  - destruct (sign_inputs_missing_witness key (tx psbt) (inputs psbt) 0
                (inputs (wally_psbt_init psbt))) as [Hr|Hr].
    + apply Exists_exists. exists input. split; [|exact Hw].
      eapply list_elem_of_lookup_2. exact Hk.
    + rewrite Hr. left. reflexivity.
    + rewrite Hr. right. reflexivity.
  - intros Hroot Hpre. destruct (root key) as [r|] eqn:Hr; [|contradiction].
    rewrite (sign_inputs_aborts key r (tx psbt) (inputs psbt) k input);
      try assumption; [reflexivity|lia|].
    simpl. rewrite repeat_length. lia.
Qed.

End ChangeAndSign.

Lemma output_is_change_out_of_range_witness :
  num_outputs (Double.proposal []) <= 1 /\
  keystore_output_is_change Double.key (Double.proposal []) 1 = Ret 0 /\
  keystore_output_is_change Double.key (Double.proposal []) 255 = Ret 0.
Proof.
  split; [vm_compute; discriminate|].
  split; apply output_is_change_out_of_range;
    first [lia | vm_compute; discriminate].
Defined.

Lemma sign_psbt_missing_witness_witness :
  let psbt :=
    Double.proposal [Double.input_with (Some [Double.mine]);
                     Double.no_witness (Double.input_with (Some [Double.mine]))] in
  keystore_sign_psbt Double.key psbt None = Ret (-1, None).
Proof.
  intros psbt.
  apply (proj2 (sign_psbt_missing_witness Double.key psbt None 1%nat
                  (Double.no_witness (Double.input_with (Some [Double.mine])))
                  eq_refl eq_refl)).
  - discriminate.
  - repeat constructor. exists Double.mine, []. reflexivity.
Defined.

(** With a witness UTXO on every input the same pass returns [0] and
    fills the slot. *)
Example sign_psbt_complete :
  exists blob,
    keystore_sign_psbt Double.key
      (Double.proposal [Double.input_with (Some [Double.mine]);
                        Double.input_with (Some [Double.mine])]) None
    = Ret (0, Some blob).
Proof. eexists. reflexivity. Qed.

(* ===================================================================== *)
(** * 11. The extended-public-key encoder                                 *)
(* ===================================================================== *)

Lemma testbit_byte_mask (k n : Z) :
  0 <= k ->
  Z.testbit (Z.shiftl 0xff k) n = (k <=? n) && (n <? k + 8).
Proof.
  intros Hk. change 0xff with (Z.ones 8).
  destruct (Z.leb_spec k n) as [Hle|Hlt]; simpl.
  - rewrite Z.shiftl_spec, Z.testbit_ones_nonneg by lia.
    destruct (Z.ltb_spec (n - k) 8), (Z.ltb_spec n (k + 8)); try reflexivity; lia.
  - destruct (Z.neg_nonneg_cases n) as [Hneg|Hnn].
    + apply Z.testbit_neg_r. exact Hneg.
    + rewrite Z.shiftl_spec by lia. apply Z.testbit_neg_r. lia.
Qed.

Lemma testbit_ff (n : Z) : Z.testbit 0xff n = (0 <=? n) && (n <? 8).
Proof. apply (testbit_byte_mask 0 n). lia. Qed.
Lemma testbit_ff00 (n : Z) : Z.testbit 0xff00 n = (8 <=? n) && (n <? 16).
Proof. apply (testbit_byte_mask 8 n). lia. Qed.
Lemma testbit_ff0000 (n : Z) : Z.testbit 0xff0000 n = (16 <=? n) && (n <? 24).
Proof. apply (testbit_byte_mask 16 n). lia. Qed.
Lemma testbit_ff000000 (n : Z) : Z.testbit 0xff000000 n = (24 <=? n) && (n <? 32).
Proof. apply (testbit_byte_mask 24 n). lia. Qed.

Ltac byte_bits :=
  apply Z.bits_inj'; intros n Hn;
  repeat (rewrite ?Z.land_spec, ?Z.lor_spec, ?Z.shiftl_spec, ?Z.shiftr_spec by lia);
  rewrite ?testbit_ff, ?testbit_ff00, ?testbit_ff0000, ?testbit_ff000000;
  repeat match goal with
    | |- context [ (?a <=? ?b) ] => destruct (Z.leb_spec a b)
    | |- context [ (?a <? ?b) ] => destruct (Z.ltb_spec a b)
    end;
  simpl; rewrite ?andb_false_r, ?andb_true_r, ?orb_false_r, ?orb_false_l;
  try lia; try reflexivity;
  try (f_equal; lia).

(** The bytes that [memcpy] takes from the swapped word are the bytes of
    the version, most significant first. *)
Lemma word_bytes_be32 (v : Z) : word_bytes (cpu_to_be32 v) = be32_bytes v.
Proof.
  unfold word_bytes, be32_bytes, cpu_to_be32, bswap_32.
  f_equal; [|f_equal; [|f_equal; [|f_equal]]].
  - byte_bits.
  - byte_bits.
  - byte_bits.
  - byte_bits.
Qed.

Lemma land_1_odd (x : Z) : Z.land 1 x = if Z.odd x then 1 else 0.
Proof.
  rewrite Z.land_comm. change 1 with (Z.ones 1) at 1.
  rewrite Z.land_ones by lia. apply Zmod_odd.
Qed.

Lemma fill_chars_length (s : list ascii) :
  forall (derivation d' : list Z) (current : nat),
    fill_chars s derivation current = Ret (Some d') ->
    length d' = length derivation.
Proof.
  induction s as [|c s IH]; intros d d' cur Hfill; simpl in Hfill.
  - injection Hfill as <-. reflexivity.
  - destruct (Ascii.eqb c slash); [eapply IH; eassumption|].
    destruct (strchr VALID_CHARS c) as [val|]; [|discriminate].
    destruct (d !! cur) as [e|]; [|discriminate].
    destruct (BIP32_INITIAL_HARDENED_CHILD <=? e); [discriminate|].
    destruct (val <? 10); apply IH in Hfill; rewrite length_insert in Hfill;
      exact Hfill.
Qed.

(** A parsed path has as many elements as [*derlen] says, at least one. *)
Lemma parse_derivation_length (path : cstring) (derivation : list Z) (len : Z) :
  strlen path < SIZE_MAX ->
  parse_derivation path = Ret (Some (derivation, len)) ->
  Z.of_nat (length derivation) = len /\ 1 <= len.
Proof.
  intros Hlen Hparse.
  pose proof (parse_derivation_never_empty path derivation len Hlen Hparse) as Hpos.
  split; [|exact Hpos].
  destruct (body path) as [b|] eqn:Hbody.
  - rewrite (parse_derivation_body path b Hlen Hbody) in Hparse.
    unfold parse_chars in Hparse.
    destruct (count_chars b 1) as [n|]; [|discriminate].
    destruct (fill_chars b _ 0) as [[d|]|] eqn:Hfill; simpl in Hparse;
      try discriminate.
    injection Hparse as -> ->.
    apply fill_chars_length in Hfill. rewrite Hfill, repeat_length. lia.
  - apply body_None in Hbody. destruct Hbody as [-> | [-> | ->]]; discriminate.
Qed.

Section Encoder.
Context {W : Wally}.

(** With the flag's lowest bit set and a path of at least one element,
    the version the code selects is the one of the SLIP132 table. *)
Lemma select_version_slip132 (network : network_t) (derivation : list Z)
    (use_slip132 : Z) :
  derivation <> [] ->
  Z.odd use_slip132 = true ->
  select_version network derivation (Z.of_nat (length derivation)) use_slip132
  = Ret (cpu_to_be32 (slip132_version network derivation)).
Proof.
  intros Hne Hodd. unfold select_version, slip132_version.
  destruct derivation as [|d0 rest]; [contradiction|].
  remember (Z.of_nat (length (d0 :: rest))) as n eqn:Hn.
  destruct (Z.ltb_spec 0 n) as [_|Hle]; [|simpl in Hn; lia].
  rewrite land_1_odd, Hodd. simpl.
  destruct (d0 =? BIP32_INITIAL_HARDENED_CHILD + 84); [reflexivity|].
  destruct (d0 =? BIP32_INITIAL_HARDENED_CHILD + 49); [reflexivity|].
  destruct (d0 =? BIP32_INITIAL_HARDENED_CHILD + 48); [|reflexivity].
  destruct (Z.leb_spec 4 n) as [Hge|Hlt];
    destruct rest as [|d1 [|d2 [|d3 rest]]]; simpl in Hn; try lia;
    try reflexivity.
  simpl.
  destruct (d3 =? BIP32_INITIAL_HARDENED_CHILD + 1); [reflexivity|].
  destruct (d3 =? BIP32_INITIAL_HARDENED_CHILD + 2); reflexivity.
Qed.

(** A flag with its lowest bit clear, [0] or [2] for instance, leaves
    the plain version: the source combines the flag with [&]. *)
Lemma select_version_plain (network : network_t) (derivation : list Z)
    (len use_slip132 : Z) :
  Z.odd use_slip132 = false ->
  select_version network derivation len use_slip132
  = Ret (cpu_to_be32 (xpub network)).
Proof.
  intros Hodd. unfold select_version.
  destruct (0 <? len); [rewrite land_1_odd, Hodd|]; reflexivity.
Qed.

(** C6.  For a key derived along a parsed path and requested with
    SLIP132 tagging (the flag [use_slip132] passed as [1]; the source
    tests its lowest bit), the first four bytes of the serialization
    that is handed to the base58 encoder are the bytes, most significant
    first, of the version of the SLIP132 table [slip132_version]: [zpub]
    for a first element [84'], [ypub] for [49'], [Ypub] and [Zpub] for
    [48'] with a fourth element [1'] and [2'], and [xpub] otherwise. *)
Theorem get_xpub_slip132_header (key : keystore_t) (r : ext_key) (path : cstring)
    (network : network_t) (use_slip132 : Z) (derivation : list Z) (len : Z) :
  strlen path < SIZE_MAX ->
  root key = Some r ->
  parse_derivation path = Ret (Some (derivation, len)) ->
  Z.odd use_slip132 = true ->
  exists xpub_raw : bytes,
    keystore_get_xpub_raw key path network use_slip132 = Ret (Some xpub_raw)
    /\ take 4 xpub_raw = be32_bytes (slip132_version network derivation)
    /\ keystore_get_xpub key path network use_slip132
       = Ret (Some (wally_base58_from_bytes xpub_raw)).
Proof.
  intros Hlen Hroot Hparse Hodd.
  destruct (parse_derivation_length path derivation len Hlen Hparse) as [Hl Hpos].
  unfold keystore_get_xpub, keystore_get_xpub_raw.
  rewrite Hparse, Hroot. simpl bind. subst len.
  rewrite select_version_slip132; [|destruct derivation; [simpl in Hpos; lia|discriminate]|exact Hodd].
  simpl bind. eexists. split; [reflexivity|]. split; [|reflexivity].
  unfold memcpy. rewrite word_bytes_be32.
  apply take_app_length'. reflexivity.
Qed.

End Encoder.

Lemma slip132_version_table (network : network_t) (derivation : list Z) (d0 : Z) :
  derivation !! 0%nat = Some d0 ->
  (d0 = H + 84 -> slip132_version network derivation = zpub network) /\
  (d0 = H + 49 -> slip132_version network derivation = ypub network) /\
  (d0 = H + 48 -> derivation !! 3%nat = Some (H + 1) ->
   slip132_version network derivation = Ypub network) /\
  (d0 = H + 48 -> derivation !! 3%nat = Some (H + 2) ->
   slip132_version network derivation = Zpub network) /\
  (d0 <> H + 84 -> d0 <> H + 49 ->
   (d0 = H + 48 -> derivation !! 3%nat <> Some (H + 1)
                   /\ derivation !! 3%nat <> Some (H + 2)) ->
   slip132_version network derivation = xpub network).
Proof.
  intros Hd0. unfold slip132_version, H. rewrite Hd0.
  repeat split.
  - intros ->. reflexivity.
  - intros ->. reflexivity.
  - intros -> ->. reflexivity.
  - intros -> ->. reflexivity.
  - intros H84 H49 H48.
    destruct (Z.eqb_spec d0 (BIP32_INITIAL_HARDENED_CHILD + 84)); [contradiction|].
    destruct (Z.eqb_spec d0 (BIP32_INITIAL_HARDENED_CHILD + 49)); [contradiction|].
    destruct (Z.eqb_spec d0 (BIP32_INITIAL_HARDENED_CHILD + 48)) as [E|_];
      [|reflexivity].
    destruct (H48 E) as [H1 H2].
    destruct (derivation !! 3%nat) as [d3|]; [|reflexivity].
    destruct (Z.eqb_spec d3 (BIP32_INITIAL_HARDENED_CHILD + 1)) as [->|_];
      [contradiction H1; reflexivity|].
    destruct (Z.eqb_spec d3 (BIP32_INITIAL_HARDENED_CHILD + 2)) as [->|_];
      [contradiction H2; reflexivity|reflexivity].
Qed.

Lemma get_xpub_slip132_header_witness :
  exists xpub_raw : bytes,
    keystore_get_xpub_raw Double.key (str "m/48h/0h/0h/2h") Double.mainnet 1
    = Ret (Some xpub_raw)
    /\ take 4 xpub_raw = be32_bytes (Zpub Double.mainnet)
    /\ keystore_get_xpub Double.key (str "m/48h/0h/0h/2h") Double.mainnet 1
       = Ret (Some (wally_base58_from_bytes xpub_raw)).
Proof.
  apply (get_xpub_slip132_header Double.key Double.root_key
           (str "m/48h/0h/0h/2h") Double.mainnet 1 [H + 48; H; H; H + 2] 4);
    reflexivity.
Defined.

(** The same request with the flag passed as [2] is answered with the
    plain version. *)
Example get_xpub_flag_two :
  keystore_get_xpub Double.key (str "m/84h/0h/0h") Double.mainnet 2
  = keystore_get_xpub Double.key (str "m/84h/0h/0h") Double.mainnet 0.
Proof. reflexivity. Qed.

(* ===================================================================== *)
(** * 12. The wallet descriptor check                                     *)
(* ===================================================================== *)

Lemma memcmp_buf_prefix (a : list ascii) :
  forall b c : list ascii, memcmp_buf (a ++ b) (a ++ c) (length a) = Ret true.
Proof.
  induction a as [|x a IH]; intros b c; simpl; [reflexivity|].
  rewrite Ascii.eqb_refl. apply IH.
Qed.

(** A comparison that is settled on the cells of [a] is settled in the
    same way whatever cells follow them. *)
Lemma memcmp_buf_app (n : nat) :
  forall (a b t : list ascii) (r : bool),
    memcmp_buf a b n = Ret r -> memcmp_buf (a ++ t) b n = Ret r.
Proof.
  induction n as [|n IH]; intros a b t r Hr; [exact Hr|].
  destruct a as [|x a]; [discriminate|]. destruct b as [|y b]; [discriminate|].
  cbn [memcmp_buf app] in *.
  destruct (Ascii.eqb x y); [apply IH; exact Hr | exact Hr].
Qed.

(** ** Strings inside arrays *)

Lemma until_nul_string (s : cstring) (t : list ascii) :
  Forall (fun c => c <> NUL) s -> until_nul (s ++ NUL :: t) = Some s.
Proof.
  induction s as [|c s IH]; intros Hs; cbn [app until_nul].
  - rewrite Ascii.eqb_refl. reflexivity.
  - inversion Hs as [|? ? Hc Hs']; subst.
    destruct (Ascii.eqb_spec c NUL) as [->|_]; [contradiction|].
    rewrite (IH Hs'). reflexivity.
Qed.

Lemma until_nul_terminated (s t : list ascii) :
  exists s', until_nul (s ++ NUL :: t) = Some s'.
Proof.
  induction s as [|c s [s' IH]]; cbn [app until_nul].
  - rewrite Ascii.eqb_refl. eauto.
  - destruct (Ascii.eqb c NUL); [eauto|]. rewrite IH. eauto.
Qed.

Lemma load_in_inside (pre post : list ascii) (c : ascii) :
  Z.of_nat (length pre) < 2 ^ 32 ->
  load_in (pre ++ c :: post) (Z.of_nat (length pre)) = Some c.
Proof.
  intros Hlen. unfold load_in.
  rewrite size_wrap_small by lia.
  rewrite length_app. cbn [length].
  destruct (Z.ltb_spec (Z.of_nat (length pre))
              (Z.of_nat (length pre + S (length post)))) as [_|Hge]; [|lia].
  rewrite Nat2Z.id. rewrite lookup_app_r by lia.
  rewrite Nat.sub_diag. reflexivity.
Qed.

Lemma load_in_wrap (obj : list ascii) (idx : Z) :
  load_in obj (idx + 2 ^ 32) = load_in obj idx.
Proof.
  unfold load_in, size_wrap.
  replace (idx + 2 ^ 32) with (idx + 1 * 2 ^ 32) by lia.
  rewrite Z.mod_add by lia. reflexivity.
Qed.

(** The parser on a region [cur ++ [c]] of an array: as in a string of
    its own, it is [parse_chars] on the region without its trailing
    separator, whatever cells surround the region. *)
Lemma parse_from_in_chars (pre cur : list ascii) (c : ascii) (post : list ascii) :
  Z.of_nat (length (pre ++ cur ++ [c])) < SIZE_MAX ->
  parse_from_in (pre ++ cur ++ c :: post) (Z.of_nat (length pre))
    (Z.of_nat (length (cur ++ [c])))
  = parse_chars (strip_slash (cur ++ [c])).
Proof.
  intros Hlen. unfold parse_from_in.
  assert (Hb : Z.of_nat (length pre) + Z.of_nat (length cur) + 1 < 2 ^ 32 - 1).
  { rewrite !length_app in Hlen. cbn [length] in Hlen. unfold SIZE_MAX in Hlen. lia. }
  rewrite !length_app. cbn [length].
  rewrite (size_wrap_small (Z.of_nat (length cur + 1) - 1)) by lia.
  replace (Z.of_nat (length pre) + (Z.of_nat (length cur + 1) - 1))
    with (Z.of_nat (length (pre ++ cur))) by (rewrite length_app; lia).
  replace (pre ++ cur ++ c :: post) with ((pre ++ cur) ++ c :: post) at 1
    by (rewrite <- app_assoc; reflexivity).
  rewrite load_in_inside by (rewrite length_app; lia).
  cbn [deref_char bind]. rewrite Nat2Z.id, drop_app_length.
  rewrite strip_slash_snoc.
  unfold parse_chars.
  destruct (Ascii.eqb c slash).
  - rewrite count_loop_chars by (rewrite ?length_app; cbn [length]; lia).
    rewrite Z.sub_0_r.
    replace (Z.to_nat (Z.of_nat (length cur + 1) - 1)) with (length cur) by lia.
    rewrite take_app_length. cbn [bind].
    destruct (count_chars cur 1) as [derivationLen|]; [|reflexivity].
    rewrite fill_loop_chars by (rewrite ?length_app; cbn [length]; lia).
    rewrite Z.sub_0_r.
    replace (Z.to_nat (Z.of_nat (length cur + 1) - 1)) with (length cur) by lia.
    rewrite take_app_length. reflexivity.
  - assert (Htake : take (Z.to_nat (Z.of_nat (length cur + 1))) (cur ++ c :: post)
                    = cur ++ [c]).
    { replace (cur ++ c :: post) with ((cur ++ [c]) ++ post)
        by (rewrite <- app_assoc; reflexivity).
      apply take_app_length'. rewrite length_app. cbn [length]. lia. }
    rewrite count_loop_chars by (rewrite ?length_app; cbn [length]; lia).
    rewrite Z.sub_0_r, Htake. cbn [bind].
    destruct (count_chars (cur ++ [c]) 1) as [derivationLen|]; [|reflexivity].
    rewrite fill_loop_chars by (rewrite ?length_app; cbn [length]; lia).
    rewrite Z.sub_0_r, Htake. reflexivity.
Qed.

(** Called on a string that lies in an array, the parser is
    [parse_chars] on the string's [body], as on a string of its own:
    when the string has a body, no read leaves it. *)
Lemma parse_derivation_in_body (pre path post b : list ascii) :
  Z.of_nat (length (pre ++ path)) < SIZE_MAX ->
  Forall (fun c => c <> NUL) path ->
  body path = Some b ->
  parse_derivation_in (pre ++ path ++ NUL :: post) (length pre) = parse_chars b.
Proof.
  intros Hlen Hnul Hbody. unfold parse_derivation_in, string_at.
  rewrite drop_app_length, (until_nul_string path post Hnul). cbn [deref bind].
  assert (Hp : Z.of_nat (length pre) < 2 ^ 32)
    by (rewrite length_app in Hlen; unfold SIZE_MAX in Hlen; lia).
  destruct path as [|c0 tl]; [discriminate|].
  cbn [app]. rewrite (load_in_inside pre _ c0 Hp). cbn [deref_char bind].
  cbn [body] in Hbody.
  destruct (Ascii.eqb c0 "m"%char).
  - destruct tl as [|c1 [|c2 tl]]; [discriminate| |].
    + destruct (Ascii.eqb c1 slash) eqn:Hc1; [discriminate|].
      injection Hbody as <-.
      unfold parse_from_in.
      assert (Hload : load_in (pre ++ c0 :: [c1] ++ NUL :: post)
                        (Z.of_nat (length pre) + 2
                         + size_wrap (size_wrap (strlen [c0; c1] - 2) - 1))
                      = Some c1).
      { assert (Hp2 : Z.of_nat (length pre) + 2 < 2 ^ 32).
        { rewrite length_app in Hlen. cbn [length app] in Hlen.
          unfold SIZE_MAX in Hlen. lia. }
        change (size_wrap (size_wrap (strlen [c0; c1] - 2) - 1)) with (2 ^ 32 - 1).
        replace (Z.of_nat (length pre) + 2 + (2 ^ 32 - 1))
          with (Z.of_nat (length (pre ++ [c0])) + 2 ^ 32)
          by (rewrite length_app; cbn [length]; lia).
        rewrite load_in_wrap.
        replace (pre ++ c0 :: [c1] ++ NUL :: post)
          with ((pre ++ [c0]) ++ c1 :: NUL :: post)
          by (rewrite <- app_assoc; reflexivity).
        apply load_in_inside. rewrite length_app. cbn [length]. lia. }
      rewrite Hload. cbn [deref_char bind]. rewrite Hc1.
      change (size_wrap (strlen [c0; c1] - 2)) with 0.
      rewrite count_loop_chars by lia.
      change (Z.to_nat (0 - 0)) with 0%nat. rewrite take_0. cbn [count_chars bind].
      rewrite fill_loop_chars by lia.
      change (Z.to_nat (0 - 0)) with 0%nat. rewrite take_0. reflexivity.
    + injection Hbody as <-.
      destruct (snoc_of_nonempty (c2 :: tl)) as (cur & c & Hcur); [discriminate|].
      rewrite Hcur. rewrite Hcur in Hlen.
      replace (size_wrap (strlen (c0 :: c1 :: cur ++ [c]) - 2))
        with (Z.of_nat (length (cur ++ [c]))).
      * match goal with
        | |- parse_from_in ?o _ _ = _ =>
            replace o with ((pre ++ [c0; c1]) ++ cur ++ c :: NUL :: post)
              by (rewrite <- !app_assoc; cbn [app]; rewrite <- ?app_assoc;
                  reflexivity)
        end.
        replace (Z.of_nat (length pre) + 2)
          with (Z.of_nat (length (pre ++ [c0; c1])))
          by (rewrite length_app; cbn [length]; lia).
        apply parse_from_in_chars.
        repeat (rewrite ?length_app in *; cbn [length app] in * ). lia.
      * unfold strlen, SIZE_MAX in *.
        repeat (rewrite ?length_app in *; cbn [length app] in * ).
        rewrite size_wrap_small; lia.
  - injection Hbody as <-.
    destruct (snoc_of_nonempty (c0 :: tl)) as (cur & c & Hcur); [discriminate|].
    change (c0 :: tl ++ NUL :: post) with ((c0 :: tl) ++ NUL :: post).
    rewrite Hcur. rewrite Hcur in Hlen. unfold strlen.
    match goal with
    | |- parse_from_in ?o _ _ = _ =>
        replace o with (pre ++ cur ++ c :: NUL :: post)
          by (rewrite <- !app_assoc; reflexivity)
    end.
    apply parse_from_in_chars. exact Hlen.
Qed.

(** When the parser stays inside a string, it returns the same for the
    string inside an array as for the string alone. *)
Lemma parse_derivation_in_string (pre path post : list ascii) :
  Z.of_nat (length (pre ++ path)) < SIZE_MAX ->
  Forall (fun c => c <> NUL) path ->
  parse_derivation path <> Undefined ->
  parse_derivation_in (pre ++ path ++ NUL :: post) (length pre)
  = parse_derivation path.
Proof.
  intros Hlen Hnul Hdef.
  assert (Hl : strlen path < SIZE_MAX).
  { unfold strlen. rewrite !length_app in Hlen. lia. }
  destruct (body path) as [b|] eqn:Hbody.
  - rewrite (parse_derivation_in_body pre path post b Hlen Hnul Hbody).
    symmetry. apply parse_derivation_body; assumption.
  - exfalso. apply Hdef. apply parse_derivation_Undefined; [exact Hl|].
    apply body_None. exact Hbody.
Qed.

(** A string of its own is the array that holds it and its terminator. *)
Lemma parse_derivation_in_storage (path : cstring) :
  Forall (fun c => c <> NUL) path ->
  parse_derivation_in (storage path) 0 = parse_derivation path.
Proof.
  intros Hnul. unfold parse_derivation_in, string_at, storage.
  rewrite drop_0, (until_nul_string path [] Hnul). reflexivity.
Qed.

Lemma string_at_stored (s t : list ascii) :
  exists s', string_at (s ++ NUL :: t) 0 = Ret s'.
Proof.
  unfold string_at. rewrite drop_0.
  destruct (until_nul_terminated s t) as [s' ->]. eauto.
Qed.

Section Wallet.
Context {W : Wally} {P : Platform}.

(** Without tagging the encoder needs nothing but the parsed path and
    the root. *)
Lemma get_xpub_plain_defined (key : keystore_t) (path : cstring)
    (network : network_t) (use_slip132 : Z) (tagged : cstring) :
  keystore_get_xpub key path network use_slip132 = Ret (Some tagged) ->
  exists plain, keystore_get_xpub key path network 0 = Ret (Some plain).
Proof.
  unfold keystore_get_xpub, keystore_get_xpub_raw. intros Hx.
  destruct (parse_derivation path) as [[[d len]|]|]; simpl in *; try discriminate.
  destruct (root key) as [r|]; simpl in *; [|discriminate].
  rewrite select_version_plain by reflexivity. simpl. eauto.
Qed.

(** The encoder is the parser followed by [xpub_of_parsed]. *)
Lemma get_xpub_of_parsed (key : keystore_t) (path : cstring)
    (network : network_t) (use_slip132 : Z) :
  keystore_get_xpub key path network use_slip132
  = (let* parsed := parse_derivation path in
     xpub_of_parsed key network use_slip132 parsed).
Proof.
  unfold keystore_get_xpub, keystore_get_xpub_raw, xpub_of_parsed.
  destruct (parse_derivation path) as [[[d len]|]|]; cbn [bind]; try reflexivity.
  destruct (root key) as [r|]; cbn [deref bind]; [|reflexivity].
  destruct (select_version network d len use_slip132); reflexivity.
Qed.

(** Whatever the encoder returns for a path, it returns for the same
    path inside an array. *)
Lemma get_xpub_in_string (key : keystore_t) (pre path post : list ascii)
    (network : network_t) (use_slip132 : Z) (r : option cstring) :
  Z.of_nat (length (pre ++ path)) < SIZE_MAX ->
  Forall (fun c => c <> NUL) path ->
  keystore_get_xpub key path network use_slip132 = Ret r ->
  keystore_get_xpub_in key (pre ++ path ++ NUL :: post) (length pre)
    network use_slip132
  = Ret r.
Proof.
  intros Hlen Hnul Hx. rewrite get_xpub_of_parsed in Hx.
  unfold keystore_get_xpub_in.
  rewrite parse_derivation_in_string; [exact Hx | exact Hlen | exact Hnul |].
  intros Hu. rewrite Hu in Hx. discriminate Hx.
Qed.

(** The entry of this keystore passes exactly when the recorded key is
    the plain encoding: both keys the loop compares with are requested
    with [use_slip132 = 0]. *)
Lemma check_cosigner_own_entry (keystore : keystore_t) (network : network_t)
    (sep : ascii) (path xpub plain : cstring) (stale : list ascii)
    (err : wallet_status) :
  length (fingerprint keystore) = 8%nat ->
  Z.of_nat (length path) < SIZE_MAX - 9 ->
  Forall (fun c => c <> NUL) path ->
  keystore_get_xpub keystore path network 0 = Ret (Some plain) ->
  check_cosigner keystore network
    ((fingerprint keystore ++ sep :: path) ++ NUL :: stale) xpub err
  = Ret (if string_equal plain xpub then inr WALLET_OK
         else inl KEYSTORE_WALLET_ERR_WRONG_XPUB).
Proof.
  intros Hfp Hlen Hnul Hplain. unfold check_cosigner, storage.
  rewrite <- app_assoc.
  pose proof (memcmp_buf_prefix (fingerprint keystore)
                ((sep :: path) ++ NUL :: stale) [NUL]) as Hm.
  rewrite Hfp in Hm. rewrite Hm. clear Hm. cbn [bind].
  assert (Hcells : fingerprint keystore ++ (sep :: path) ++ NUL :: stale
                   = (fingerprint keystore ++ [sep]) ++ path ++ NUL :: stale)
    by (rewrite <- app_assoc; reflexivity).
  assert (H9 : 9%nat = length (fingerprint keystore ++ [sep]))
    by (rewrite length_app, Hfp; reflexivity).
  rewrite Hcells, H9.
  rewrite (get_xpub_in_string keystore _ path stale network 0 (Some plain));
    [| rewrite !length_app, Hfp; cbn [length]; lia | exact Hnul | exact Hplain].
  cbn [bind deref]. rewrite orb_diag.
  destruct (string_equal plain xpub); reflexivity.
Qed.

(** C2.  A descriptor whose first cosigner entry is this keystore's and
    records the SLIP132 encoding of the locally derived key is refused
    with [WRONG_XPUB] whenever that encoding differs from the plain
    one: the descriptor check never asks the encoder for SLIP132
    tagging. *)
Theorem check_wallet_rejects_slip132 (keystore : keystore_t) (network : network_t)
    (buf : cstring) (sep : ascii) (path xpub : cstring) :
  5 <= hdr_res (sscanf_header buf) ->
  header_fits buf (sscanf_header buf) ->
  0 < hdr_n (sscanf_header buf) ->
  sscanf_entry (hdr_rest (sscanf_header buf))
  = (2, Some (fingerprint keystore ++ sep :: path), Some xpub) ->
  (length (fingerprint keystore ++ sep :: path) < 150)%nat ->
  (length xpub < 150)%nat ->
  length (fingerprint keystore) = 8%nat ->
  Forall (fun c => c <> NUL) path ->
  keystore_get_xpub keystore path network 1 = Ret (Some xpub) ->
  keystore_get_xpub keystore path network 0 <> Ret (Some xpub) ->
  keystore_check_wallet keystore network buf = Ret KEYSTORE_WALLET_ERR_WRONG_XPUB.
Proof.
  intros Hres (Hname & Htype & Hfit) Hn Hscan Hld Hlx Hfp Hnul Hslip Hplain.
  destruct (get_xpub_plain_defined _ _ _ _ _ Hslip) as [plain Hp].
  unfold keystore_check_wallet. cbv zeta.
  destruct (Z.leb_spec 1 (hdr_res (sscanf_header buf))) as [_|]; [|lia].
  destruct (Z.leb_spec 2 (hdr_res (sscanf_header buf))) as [_|]; [|lia].
  destruct (Z.leb_spec 5 (hdr_res (sscanf_header buf))) as [_|]; [|lia].
  destruct (Z.ltb_spec (hdr_res (sscanf_header buf)) 5) as [Hlt|_]; [lia|].
  unfold store_string at 1 2 3.
  destruct (Nat.ltb_spec (length (hdr_name (sscanf_header buf))) 100) as [_|]; [|lia].
  destruct (Nat.ltb_spec (length (hdr_type (sscanf_header buf))) 10) as [_|]; [|lia].
  destruct (Nat.ltb_spec (length (hdr_rest (sscanf_header buf))) (S (length buf)))
    as [_|]; [|lia].
  cbn [bind].
  destruct (Z.to_nat (hdr_n (sscanf_header buf))) as [|count] eqn:Hcount; [lia|].
  cbn [cosigner_loop]. change (0 <? S (length buf))%nat with true. cbn [bind].
  rewrite drop_0, Hscan. unfold store_string.
  destruct (Nat.ltb_spec (length (fingerprint keystore ++ sep :: path)) 150)
    as [_|Hge]; [|lia].
  destruct (Nat.ltb_spec (length xpub) 150) as [_|Hge]; [|lia].
  cbn [bind]. rewrite !drop_nil.
  destruct (string_at_stored (fingerprint keystore ++ sep :: path) []) as [s1 ->].
  destruct (string_at_stored xpub []) as [s2 ->].
  cbn [bind deref]. change (2 <? 2) with false. cbv iota.
  rewrite (check_cosigner_own_entry _ _ _ _ _ plain _ _ Hfp); try assumption.
  - cbn [bind]. unfold string_equal.
    destruct (bool_decide_reflect (plain = xpub)) as [->|_]; [|reflexivity].
    contradiction.
  - rewrite length_app, Hfp in Hld. cbn [length] in Hld. unfold SIZE_MAX. lia.
Qed.

End Wallet.

Lemma check_wallet_rejects_slip132_witness :
  keystore_get_xpub Double.key (str "48h/0h/0h/2h") Double.mainnet 1
  = Ret (Some (str "02aa7ed30402a1b2c3d409ebbbbbbd")) /\
  keystore_check_wallet Double.key Double.mainnet
    (Double.descriptor "02aa7ed30402a1b2c3d409ebbbbbbd")
  = Ret KEYSTORE_WALLET_ERR_WRONG_XPUB.
Proof.
  split; [reflexivity|].
  apply (check_wallet_rejects_slip132 Double.key Double.mainnet _
           "/"%char (str "48h/0h/0h/2h") (str "02aa7ed30402a1b2c3d409ebbbbbbd")).
  - vm_compute. discriminate.
  - repeat split; vm_compute; lia.
  - vm_compute. reflexivity.
  - reflexivity.
  - vm_compute. lia.
  - vm_compute. lia.
  - reflexivity.
  - repeat (constructor; [discriminate|]). constructor.
  - reflexivity.
  - vm_compute. discriminate.
Defined.

(** The same descriptor with the plain encoding is accepted. *)
Example check_wallet_plain_descriptor :
  keystore_check_wallet Double.key Double.mainnet
    (Double.descriptor "0488b21e0402a1b2c3d409ebbbbbbd")
  = Ret WALLET_OK.
Proof. vm_compute. reflexivity. Qed.

(* ===================================================================== *)
(** * 13. More on the parser                                              *)
(* ===================================================================== *)

Lemma strip_slash_keeps_char (pre post : list ascii) (c : ascii) :
  c <> slash ->
  exists post', strip_slash (pre ++ c :: post) = pre ++ c :: post'.
Proof.
  intros Hc. destruct post as [|z post _] using rev_ind.
  - exists []. rewrite strip_slash_snoc.
    destruct (Ascii.eqb_spec c slash); [contradiction|reflexivity].
  - replace (pre ++ c :: post ++ [z]) with ((pre ++ c :: post) ++ [z])
      by (rewrite <- app_assoc; reflexivity).
    rewrite strip_slash_snoc. destruct (Ascii.eqb z slash).
    + exists post. reflexivity.
    + exists (post ++ [z]). rewrite <- app_assoc. reflexivity.
Qed.

(** A character that is not a separator and does not lie in the two
    skipped positions after a leading ['m'] is one of the characters the
    loops run over. *)
Lemma body_processed (pre post : list ascii) (c : ascii) :
  c <> slash ->
  head (pre ++ c :: post) <> Some "m"%char \/ (2 <= length pre)%nat ->
  exists pre' post', body (pre ++ c :: post) = Some (pre' ++ c :: post').
Proof.
  intros Hc Hpos. destruct pre as [|c0 pre].
  - simpl in *. destruct Hpos as [Hhd|Hlen]; [|lia].
    destruct (Ascii.eqb_spec c "m"%char) as [->|_];
      [contradiction Hhd; reflexivity|].
    destruct (strip_slash_keeps_char [] post c Hc) as [post' Hs].
    simpl in Hs. rewrite Hs. exists [], post'. reflexivity.
  - simpl. destruct (Ascii.eqb_spec c0 "m"%char) as [->|Hne].
    + destruct Hpos as [Hhd|Hlen]; [contradiction Hhd; reflexivity|].
      destruct pre as [|c1 pre]; [simpl in Hlen; lia|].
      destruct (strip_slash_keeps_char pre post c Hc) as [post' Hs].
      assert (Hcur : exists x tl, pre ++ c :: post = x :: tl)
        by (destruct pre; simpl; eauto).
      destruct Hcur as (x & tl & Hcur). simpl. rewrite Hcur, <- Hcur, Hs.
      exists pre, post'. reflexivity.
    + destruct (strip_slash_keeps_char (c0 :: pre) post c Hc) as [post' Hs].
      simpl in Hs. rewrite Hs. exists (c0 :: pre), post'. reflexivity.
Qed.

Lemma count_chars_invalid (pre post : list ascii) (c : ascii) :
  forall derivationLen,
    strchr VALID_CHARS c = None ->
    count_chars (pre ++ c :: post) derivationLen = None.
Proof.
  induction pre as [|x pre IH]; intros dl Hc; simpl.
  - rewrite Hc. reflexivity.
  - destruct (strchr VALID_CHARS x); [apply IH; exact Hc|reflexivity].
Qed.

(** X1.  A character that is not a digit, a separator or a hardening
    marker, anywhere in the part of the path that the parser processes,
    makes [parse_derivation] return [NULL]. *)
Theorem parse_derivation_invalid_character
    (path pre post : cstring) (c : ascii) :
  strlen path < SIZE_MAX ->
  path = pre ++ c :: post ->
  strchr VALID_CHARS c = None ->
  head path <> Some "m"%char \/ (2 <= length pre)%nat ->
  parse_derivation path = Ret None.
Proof.
  intros Hlen -> Hc Hpos.
  assert (Hns : c <> slash) by (intros ->; discriminate Hc).
  destruct (body_processed pre post c Hns Hpos) as (pre' & post' & Hbody).
  rewrite (parse_derivation_body _ _ Hlen Hbody).
  unfold parse_chars. rewrite count_chars_invalid by exact Hc. reflexivity.
Qed.

Lemma parse_derivation_invalid_character_witness :
  parse_derivation (str "m/44h/0x1") = Ret None /\
  parse_derivation (str "44 /1") = Ret None.
Proof.
  split.
  - apply (parse_derivation_invalid_character
             (str "m/44h/0x1") (str "m/44h/0") (str "1") "x"%char);
      [reflexivity | reflexivity | reflexivity | right; simpl; lia].
  - apply (parse_derivation_invalid_character
             (str "44 /1") (str "44") (str "/1") " "%char);
      [reflexivity | reflexivity | reflexivity | left; discriminate].
Defined.

(** X3.  After a leading ['m'] the parser skips the next character
    without looking at it: whatever stands there, the result is that of
    the path with ["m/"] in front. *)
Theorem parse_derivation_skips_second_character
    (c : ascii) (cur : list ascii) :
  strlen ("m"%char :: c :: cur) < SIZE_MAX ->
  cur <> [] ->
  parse_derivation ("m"%char :: c :: cur)
  = parse_derivation ("m"%char :: slash :: cur).
Proof.
  intros Hlen Hcur.
  assert (Hb : forall x, body ("m"%char :: x :: cur) = Some (strip_slash cur)).
  { intros x. simpl. destruct cur; [contradiction|reflexivity]. }
  rewrite (parse_derivation_body _ _ Hlen (Hb c)).
  assert (Hlen' : strlen ("m"%char :: slash :: cur) < SIZE_MAX) by exact Hlen.
  rewrite (parse_derivation_body _ _ Hlen' (Hb slash)). reflexivity.
Qed.

Lemma parse_derivation_skips_second_character_witness :
  parse_derivation (str "m84h/0h") = parse_derivation (str "m/4h/0h") /\
  parse_derivation (str "m84h/0h") = Ret (Some ([H + 4; H], 2)).
Proof.
  split; [|reflexivity].
  apply (parse_derivation_skips_second_character "8"%char (str "4h/0h"));
    [reflexivity | discriminate].
Defined.

Lemma as_h_slash (c : ascii) : Ascii.eqb (as_h c) slash = Ascii.eqb c slash.
Proof. unfold as_h. destruct (Ascii.eqb_spec c "'"%char) as [->|_]; reflexivity. Qed.

Lemma as_h_m (c : ascii) : Ascii.eqb (as_h c) "m"%char = Ascii.eqb c "m"%char.
Proof. unfold as_h. destruct (Ascii.eqb_spec c "'"%char) as [->|_]; reflexivity. Qed.

Lemma strip_slash_as_h (s : list ascii) :
  strip_slash (map as_h s) = map as_h (strip_slash s).
Proof.
  destruct s as [|c s _] using rev_ind; [reflexivity|].
  rewrite map_app. simpl. rewrite !strip_slash_snoc, as_h_slash.
  destruct (Ascii.eqb c slash); [reflexivity|].
  rewrite map_app. reflexivity.
Qed.

Lemma body_as_h (path : cstring) :
  body (map as_h path)
  = match body path with Some b => Some (map as_h b) | None => None end.
Proof.
  destruct path as [|c0 tl]; [reflexivity|]. simpl. rewrite as_h_m.
  destruct (Ascii.eqb c0 "m"%char).
  - destruct tl as [|c1 [|c2 tl]]; [reflexivity| |].
    + simpl. rewrite as_h_slash. destruct (Ascii.eqb c1 slash); reflexivity.
    + simpl. f_equal. apply (strip_slash_as_h (c2 :: tl)).
  - f_equal. apply (strip_slash_as_h (c0 :: tl)).
Qed.

Lemma count_chars_as_h (s : list ascii) :
  forall derivationLen,
    count_chars (map as_h s) derivationLen = count_chars s derivationLen.
Proof.
  induction s as [|c s IH]; intros dl; [reflexivity|]. simpl.
  rewrite as_h_slash.
  assert (Hv : match strchr VALID_CHARS (as_h c), strchr VALID_CHARS c with
               | Some _, Some _ | None, None => True
               | _, _ => False
               end).
  { unfold as_h. destruct (Ascii.eqb_spec c "'"%char) as [->|_]; [exact I|].
    destruct (strchr VALID_CHARS c); exact I. }
  destruct (strchr VALID_CHARS (as_h c)), (strchr VALID_CHARS c);
    try contradiction; [apply IH | reflexivity].
Qed.

Lemma fill_chars_as_h (s : list ascii) :
  forall derivation current,
    fill_chars (map as_h s) derivation current = fill_chars s derivation current.
Proof.
  induction s as [|c s IH]; intros d cur; [reflexivity|]. simpl.
  rewrite as_h_slash. destruct (Ascii.eqb c slash); [apply IH|].
  unfold as_h. destruct (Ascii.eqb_spec c "'"%char) as [->|_].
  - change (strchr VALID_CHARS "h"%char) with (Some 12).
    change (strchr VALID_CHARS "'"%char) with (Some 11).
    destruct (d !! cur) as [e|]; [|reflexivity].
    destruct (BIP32_INITIAL_HARDENED_CHILD <=? e); [reflexivity|].
    change (12 <? 10) with false. change (11 <? 10) with false. apply IH.
  - destruct (strchr VALID_CHARS c) as [val|]; [|reflexivity].
    destruct (d !! cur) as [e|]; [|reflexivity].
    destruct (BIP32_INITIAL_HARDENED_CHILD <=? e); [reflexivity|].
    destruct (val <? 10); apply IH.
Qed.

(** X2.  The two hardening markers are interchangeable: writing every
    ['] of a path as [h] does not change what the parser returns. *)
Theorem parse_derivation_marker_notation (path : cstring) :
  strlen path < SIZE_MAX ->
  parse_derivation (map as_h path) = parse_derivation path.
Proof.
  intros Hlen.
  assert (Hlen' : strlen (map as_h path) < SIZE_MAX)
    by (unfold strlen in *; rewrite length_map; exact Hlen).
  destruct (body path) as [b|] eqn:Hbody.
  - rewrite (parse_derivation_body path b Hlen Hbody).
    assert (Hb' : body (map as_h path) = Some (map as_h b))
      by (rewrite body_as_h, Hbody; reflexivity).
    rewrite (parse_derivation_body _ _ Hlen' Hb').
    unfold parse_chars. rewrite count_chars_as_h.
    destruct (count_chars b 1); [|reflexivity].
    rewrite fill_chars_as_h. reflexivity.
  - apply body_None in Hbody. destruct Hbody as [-> | [-> | ->]]; reflexivity.
Qed.

Lemma parse_derivation_marker_notation_witness :
  parse_derivation (str "84h/0h/0h/0/5") = parse_derivation (str "84'/0'/0h/0/5").
Proof.
  apply (parse_derivation_marker_notation (str "84'/0'/0h/0/5")). reflexivity.
Defined.

Lemma fill_chars_range (s : list ascii) :
  forall (derivation d' : list Z) (current : nat),
    Forall (fun x => 0 <= x < 2 ^ 32) derivation ->
    fill_chars s derivation current = Ret (Some d') ->
    Forall (fun x => 0 <= x < 2 ^ 32) d'.
Proof.
  assert (Hu : forall z, 0 <= u32 z < 2 ^ 32).
  { intros z. unfold u32. apply Z.mod_pos_bound. lia. }
  induction s as [|c s IH]; intros d d' cur Hd Hfill; simpl in Hfill.
  - injection Hfill as <-. exact Hd.
  - destruct (Ascii.eqb c slash); [eapply IH; eassumption|].
    destruct (strchr VALID_CHARS c) as [val|]; [|discriminate].
    destruct (d !! cur) as [e|]; [|discriminate].
    destruct (BIP32_INITIAL_HARDENED_CHILD <=? e); [discriminate|].
    destruct (val <? 10);
      (eapply IH; [|exact Hfill]; apply Forall_insert; [exact Hd | apply Hu]).
Qed.

(** X6.  What a successful parse returns: as many elements as [*derlen]
    says, one more than there are separators among the characters
    processed, hence never none; and every element below [2^32]. *)
Theorem parse_derivation_result_shape
    (path : cstring) (derivation : list Z) (n : Z) :
  strlen path < SIZE_MAX ->
  parse_derivation path = Ret (Some (derivation, n)) ->
  Z.of_nat (length derivation) = n /\
  (exists b, body path = Some b /\ n = 1 + slashes b) /\
  Forall (fun x => 0 <= x < 2 ^ 32) derivation.
Proof.
  intros Hlen Hparse.
  destruct (body path) as [b|] eqn:Hbody.
  - rewrite (parse_derivation_body path b Hlen Hbody) in Hparse.
    pose proof (body_length _ _ Hbody) as Hbl.
    unfold parse_chars, strlen, SIZE_MAX in *.
    destruct (count_chars b 1) as [k|] eqn:Hcount; [|discriminate].
    apply count_chars_Some in Hcount as [-> _]; [|lia|lia].
    destruct (fill_chars b _ 0) as [[d|]|] eqn:Hfill; simpl in Hparse;
      try discriminate.
    injection Hparse as -> <-.
    pose proof (slashes_bounds b) as Hs.
    split; [|split].
    + apply fill_chars_length in Hfill. rewrite Hfill, repeat_length. lia.
    + exists b. split; reflexivity.
    + eapply fill_chars_range; [|exact Hfill].
      apply List.Forall_forall. intros x Hx. apply repeat_spec in Hx. lia.
  - apply body_None in Hbody. destruct Hbody as [-> | [-> | ->]]; discriminate.
Qed.

Lemma parse_derivation_result_shape_witness :
  Z.of_nat (length [H + 44; 0; 7]) = 3 /\
  (exists b, body (str "m/44h//7/") = Some b /\ 3 = 1 + slashes b) /\
  Forall (fun x => 0 <= x < 2 ^ 32) [H + 44; 0; 7].
Proof.
  apply (parse_derivation_result_shape (str "m/44h//7/")); reflexivity.
Defined.

Lemma digit_char_spec (d : Z) :
  0 <= d < 10 ->
  strchr VALID_CHARS (digit_char d) = Some d /\
  Ascii.eqb (digit_char d) slash = false /\
  Ascii.eqb (digit_char d) "m"%char = false.
Proof.
  intros Hd.
  assert (Hcases : d = 0 \/ d = 1 \/ d = 2 \/ d = 3 \/ d = 4 \/ d = 5 \/ d = 6
                   \/ d = 7 \/ d = 8 \/ d = 9) by lia.
  repeat (destruct Hcases as [-> | Hcases]; [repeat split; reflexivity|]).
  subst d. repeat split; reflexivity.
Qed.

Lemma decimal_upto_digits (width : nat) :
  forall n, 0 <= n -> Forall digit_like (decimal_upto width n).
Proof.
  induction width as [|w IH]; intros n Hn; simpl; [constructor|].
  apply Forall_app. split.
  - destruct (n / 10 =? 0); [constructor|]. apply IH. apply Z.div_pos; lia.
  - constructor; [|constructor]. exists (n mod 10). split; [|reflexivity].
    apply Z.mod_pos_bound. lia.
Qed.

Lemma decimal_upto_nonempty (width : nat) (n : Z) :
  width <> 0%nat -> decimal_upto width n <> [].
Proof.
  destruct width as [|w]; [contradiction|]. intros _. simpl.
  destruct (if n / 10 =? 0 then [] else decimal_upto w (n / 10)); discriminate.
Qed.

Lemma decimal_upto_length (width : nat) :
  forall n, (length (decimal_upto width n) <= width)%nat.
Proof.
  induction width as [|w IH]; intros n; simpl; [lia|].
  rewrite length_app. simpl.
  destruct (n / 10 =? 0); [simpl; lia|]. specialize (IH (n / 10)). lia.
Qed.

Lemma segment_app (s t : list ascii) :
  forall a,
    segment (s ++ t) a
    = match segment s a with Some v => segment t v | None => None end.
Proof.
  induction s as [|c s IH]; intros a; simpl; [reflexivity|].
  destruct (BIP32_INITIAL_HARDENED_CHILD <=? a); [reflexivity|].
  destruct (strchr VALID_CHARS c); [apply IH|reflexivity].
Qed.

(** Reading one more digit [d] after the value [a]. *)
Lemma segment_digit (a d : Z) :
  0 <= a < BIP32_INITIAL_HARDENED_CHILD -> 0 <= d < 10 ->
  segment [digit_char d] a = Some (u32 (a * 10 + d)).
Proof.
  intros Ha Hd. cbn [segment].
  destruct (Z.leb_spec BIP32_INITIAL_HARDENED_CHILD a); [lia|].
  destruct (digit_char_spec d Hd) as (-> & _ & _).
  destruct (Z.ltb_spec d 10); [reflexivity|lia].
Qed.

Lemma decimal_upto_segment (width : nat) :
  forall n,
    (width <= 9)%nat -> 0 <= n < 10 ^ Z.of_nat width ->
    segment (decimal_upto width n) 0 = Some n.
Proof.
  induction width as [|w IH]; intros n Hw Hn.
  - change (10 ^ Z.of_nat 0) with 1 in Hn. cbn [decimal_upto segment].
    f_equal. lia.
  - assert (Hpow : 10 ^ Z.of_nat (S w) = 10 * 10 ^ Z.of_nat w)
      by (rewrite Nat2Z.inj_succ, Z.pow_succ_r; lia).
    assert (H9 : 10 ^ Z.of_nat w <= 100000000).
    { change 100000000 with (10 ^ 8). apply Z.pow_le_mono_r; lia. }
    rewrite Hpow in Hn. clear Hpow.
    remember (10 ^ Z.of_nat w) as p eqn:Hp.
    assert (Hq : 0 <= n / 10 < p).
    { split; [apply Z.div_pos; lia|]. apply Z.div_lt_upper_bound; lia. }
    pose proof (Z.mod_pos_bound n 10 ltac:(lia)) as Hr.
    pose proof (Z.div_mod n 10 ltac:(lia)) as Hdm.
    cbn [decimal_upto].
    destruct (Z.eqb_spec (n / 10) 0) as [Hz|Hnz].
    + change ([] ++ [digit_char (n mod 10)]) with [digit_char (n mod 10)].
      rewrite segment_digit; [|split; [lia|reflexivity]|exact Hr].
      f_equal. unfold u32. rewrite Z.mod_small; lia.
    + rewrite segment_app, IH by (subst p; lia).
      rewrite segment_digit;
        [|unfold BIP32_INITIAL_HARDENED_CHILD; lia|exact Hr].
      f_equal. unfold u32. rewrite Z.mod_small; lia.
Qed.

(** A decimal numeral of up to ten digits leaves its value modulo
    [2^32] in the array element. *)
Lemma decimal_segment (n : Z) :
  0 <= n < 10000000000 ->
  segment (decimal n) 0 = Some (n mod 2 ^ 32).
Proof.
  intros Hn. unfold decimal.
  assert (Hq : 0 <= n / 10 < 1000000000).
  { split; [apply Z.div_pos; lia|]. apply Z.div_lt_upper_bound; lia. }
  pose proof (Z.mod_pos_bound n 10 ltac:(lia)) as Hr.
  pose proof (Z.div_mod n 10 ltac:(lia)) as Hdm.
  change (decimal_upto 10 n)
    with ((if n / 10 =? 0 then [] else decimal_upto 9 (n / 10))
          ++ [digit_char (n mod 10)]).
  destruct (Z.eqb_spec (n / 10) 0) as [Hz|Hnz].
  - change ([] ++ [digit_char (n mod 10)]) with [digit_char (n mod 10)].
    rewrite segment_digit; [|split; [lia|reflexivity]|exact Hr].
    f_equal. unfold u32. f_equal. lia.
  - rewrite segment_app, decimal_upto_segment;
      [|lia|change (10 ^ Z.of_nat 9) with 1000000000; exact Hq].
    rewrite segment_digit;
      [|unfold BIP32_INITIAL_HARDENED_CHILD; lia|exact Hr].
    f_equal. unfold u32. f_equal. lia.
Qed.

(** The second loop over one segment that it accepts. *)
Lemma fill_chars_segment (seg : list ascii) :
  forall (rest : list ascii) (derivation : list Z) (current : nat) (a v : Z),
    Forall (fun c => Ascii.eqb c slash = false) seg ->
    derivation !! current = Some a ->
    segment seg a = Some v ->
    fill_chars (seg ++ rest) derivation current
    = fill_chars rest (<[current := v]> derivation) current.
Proof.
  induction seg as [|c seg IH]; intros rest d cur a v Hns Ha Hseg; simpl in *.
  - injection Hseg as <-. rewrite list_insert_id by exact Ha. reflexivity.
  - inversion Hns as [|? ? Hc Hns']; subst. rewrite Hc, Ha.
    destruct (BIP32_INITIAL_HARDENED_CHILD <=? a); [discriminate|].
    destruct (strchr VALID_CHARS c) as [val|]; [|discriminate].
    assert (Hcur : (cur < length d)%nat)
      by (apply lookup_lt_is_Some; eauto).
    destruct (val <? 10);
      (erewrite IH; [|exact Hns'|apply list_lookup_insert_eq; exact Hcur|exact Hseg];
       rewrite list_insert_insert_eq; reflexivity).
Qed.

Lemma count_chars_no_slash (s : list ascii) :
  forall derivationLen,
    Forall (fun c => valid_char c /\ Ascii.eqb c slash = false) s ->
    count_chars s derivationLen = Some derivationLen.
Proof.
  induction s as [|c s IH]; intros dl HF; simpl; [reflexivity|].
  inversion HF as [|? ? [[val Hval] Hc] HF']; subst.
  rewrite Hval, Hc. apply IH. exact HF'.
Qed.

(** A text without ['m'] in front and without a separator at the end is
    processed as it stands. *)
Lemma body_plain (s : list ascii) (c0 : ascii) (tl : list ascii) :
  s = c0 :: tl ->
  Ascii.eqb c0 "m"%char = false ->
  (forall s' c, s = s' ++ [c] -> Ascii.eqb c slash = false) ->
  body s = Some s.
Proof.
  intros -> Hm Hlast. simpl. rewrite Hm. f_equal.
  destruct (snoc_of_nonempty (c0 :: tl)) as (s' & c & Hs); [discriminate|].
  rewrite Hs, strip_slash_snoc, (Hlast s' c Hs). reflexivity.
Qed.

Lemma digit_like_valid (c : ascii) :
  digit_like c ->
  valid_char c /\ Ascii.eqb c slash = false /\ Ascii.eqb c "m"%char = false.
Proof.
  intros (d & Hd & ->). destruct (digit_char_spec d Hd) as (Hv & Hs & Hm).
  repeat split; try assumption. unfold valid_char. rewrite Hv. eauto.
Qed.

(** X5.  An index written as a decimal numeral of up to ten digits is
    accepted whatever its size: the element is the number modulo
    [2^32], so that a number from [2^31] on yields a hardened element
    without any marker. *)
Theorem parse_derivation_decimal_index (n : Z) :
  0 <= n < 10000000000 ->
  parse_derivation (decimal n) = Ret (Some ([n mod 2 ^ 32], 1)).
Proof.
  intros Hn.
  pose proof (decimal_upto_digits 10 n ltac:(lia)) as Hdig.
  pose proof (decimal_upto_length 10 n) as Hlen.
  fold (decimal n) in Hdig, Hlen.
  assert (Hall : Forall (fun c => valid_char c /\ Ascii.eqb c slash = false
                                  /\ Ascii.eqb c "m"%char = false) (decimal n)).
  { eapply Forall_impl; [exact Hdig|]. intros c Hc. apply digit_like_valid, Hc. }
  assert (Hbody : body (decimal n) = Some (decimal n)).
  { destruct (decimal n) as [|c0 tl] eqn:Hd.
    - exfalso. eapply (decimal_upto_nonempty 10 n); [discriminate|exact Hd].
    - eapply body_plain; [reflexivity| |].
      + inversion Hall as [|? ? (_ & _ & Hm) _]. exact Hm.
      + intros s' c Hs. rewrite Hs in Hall. apply Forall_app in Hall as [_ Hc].
        inversion Hc as [|? ? (_ & Hsl & _) _]. exact Hsl. }
  assert (Hsz : strlen (decimal n) < SIZE_MAX).
  { unfold strlen, SIZE_MAX, decimal. pose proof (decimal_upto_length 10 n). lia. }
  rewrite (parse_derivation_body _ _ Hsz Hbody).
  unfold parse_chars.
  rewrite count_chars_no_slash
    by (eapply Forall_impl; [exact Hall|]; intros c (Hv & Hs & _); auto).
  simpl repeat.
  rewrite <- (app_nil_r (decimal n)) at 1.
  rewrite (fill_chars_segment (decimal n) [] [0] 0%nat 0 (n mod 2 ^ 32));
    [reflexivity | | reflexivity | apply decimal_segment; exact Hn].
  eapply Forall_impl; [exact Hall|]. intros c (_ & Hs & _). exact Hs.
Qed.

Lemma parse_derivation_decimal_index_witness :
  parse_derivation (str "2147483732") = Ret (Some ([H + 84], 1)) /\
  parse_derivation (str "4294967380") = Ret (Some ([84], 1)).
Proof.
  split.
  - apply (parse_derivation_decimal_index 2147483732). lia.
  - apply (parse_derivation_decimal_index 4294967380). lia.
Defined.

Lemma count_chars_join (segs : list (list ascii)) :
  forall (seg : list ascii) (derivationLen : Z),
    0 <= derivationLen ->
    derivationLen + Z.of_nat (length segs) < 2 ^ 32 ->
    Forall plain_segment (seg :: segs) ->
    count_chars (join seg segs) derivationLen
    = Some (derivationLen + Z.of_nat (length segs)).
Proof.
  assert (Happ : forall s t dl,
             Forall (fun c => valid_char c /\ Ascii.eqb c slash = false
                              /\ Ascii.eqb c "m"%char = false) s ->
             count_chars (s ++ t) dl = count_chars t dl).
  { induction s as [|c s IH]; intros t dl HF; [reflexivity|]. simpl.
    inversion HF as [|? ? ([val Hval] & Hc & _) HF']; subst.
    rewrite Hval, Hc. apply IH. exact HF'. }
  induction segs as [|seg' segs IH]; intros seg dl Hdl Hlen HF.
  - simpl. rewrite <- (app_nil_r seg), Happ; [simpl; f_equal; lia|].
    inversion HF as [|? ? [_ Hs] _]. exact Hs.
  - inversion HF as [|? ? [_ Hs] HF']; subst.
    simpl join. rewrite Happ by exact Hs. simpl.
    change (strchr VALID_CHARS slash) with (Some 10).
    change (Ascii.eqb slash slash) with true. cbv iota.
    rewrite size_wrap_small by (simpl length in Hlen; lia).
    rewrite IH; [f_equal; simpl length; lia|lia|simpl length in Hlen; lia|exact HF'].
Qed.

(** The second loop over segments it accepts: element after element of
    the zero-initialised array receives the value of its segment. *)
Lemma fill_chars_join (segs : list (list ascii)) :
  forall (seg : list ascii) (v : Z) (vals done : list Z),
    Forall plain_segment (seg :: segs) ->
    segment seg 0 = Some v ->
    Forall2 (fun s x => segment s 0 = Some x) segs vals ->
    fill_chars (join seg segs) (done ++ repeat 0 (S (length segs))) (length done)
    = Ret (Some (done ++ v :: vals)).
Proof.
  induction segs as [|seg' segs IH]; intros seg v vals done HF Hv Hvals.
  - inversion Hvals; subst. simpl.
    inversion HF as [|? ? [_ Hs] _]; subst.
    rewrite <- (app_nil_r seg).
    rewrite (fill_chars_segment seg [] _ _ 0 v);
      [| eapply Forall_impl; [exact Hs|]; intros c (_ & Hc & _); exact Hc
       | rewrite lookup_app_r, Nat.sub_diag by lia; reflexivity
       | exact Hv].
    simpl. rewrite insert_app_r_alt, Nat.sub_diag by lia. reflexivity.
  - inversion Hvals as [|? v' ? vals' Hv' Hvals']; subst.
    inversion HF as [|? ? [_ Hs] HF']; subst.
    simpl join.
    rewrite (fill_chars_segment seg _ _ _ 0 v);
      [| eapply Forall_impl; [exact Hs|]; intros c (_ & Hc & _); exact Hc
       | rewrite lookup_app_r, Nat.sub_diag by lia; reflexivity
       | exact Hv].
    simpl fill_chars. change (Ascii.eqb slash slash) with true. cbv iota.
    rewrite insert_app_r_alt, Nat.sub_diag by lia. simpl.
    replace (done ++ v :: 0 :: repeat 0 (length segs))
      with ((done ++ [v]) ++ repeat 0 (S (length segs)))
      by (rewrite <- app_assoc; reflexivity).
    replace (S (length done)) with (length (done ++ [v]))
      by (rewrite length_app; simpl; lia).
    rewrite (IH seg' v' vals' (done ++ [v]) HF' Hv' Hvals').
    rewrite <- app_assoc. reflexivity.
Qed.

Lemma join_snoc (segs : list (list ascii)) :
  forall seg, Forall plain_segment (seg :: segs) ->
    exists s' c, join seg segs = s' ++ [c] /\ Ascii.eqb c slash = false.
Proof.
  induction segs as [|seg' segs IH]; intros seg HF.
  - inversion HF as [|? ? [Hne Hs] _]; subst.
    destruct (snoc_of_nonempty seg Hne) as (s' & c & ->).
    exists s', c. split; [reflexivity|].
    apply Forall_app in Hs as [_ Hc]. inversion Hc as [|? ? (_ & Hsl & _) _].
    exact Hsl.
  - inversion HF as [|? ? _ HF']; subst.
    destruct (IH seg' HF') as (s' & c & Hj & Hc).
    exists (seg ++ slash :: s'), c. split; [|exact Hc].
    simpl. rewrite Hj, <- app_assoc. reflexivity.
Qed.

Lemma parse_chars_join (seg : list ascii) (segs : list (list ascii))
    (v : Z) (vals : list Z) :
  Z.of_nat (length segs) < 2 ^ 32 - 1 ->
  Forall plain_segment (seg :: segs) ->
  segment seg 0 = Some v ->
  Forall2 (fun s x => segment s 0 = Some x) segs vals ->
  parse_chars (join seg segs)
  = Ret (Some (v :: vals, Z.of_nat (S (length segs)))).
Proof.
  intros Hlen HF Hv Hvals. unfold parse_chars.
  rewrite count_chars_join by (try exact HF; lia).
  replace (Z.to_nat (1 + Z.of_nat (length segs))) with (S (length segs)) by lia.
  pose proof (fill_chars_join segs seg v vals [] HF Hv Hvals) as Hfill.
  change ([] ++ repeat 0 (S (length segs))) with (repeat 0 (S (length segs))) in Hfill.
  change (length (@nil Z)) with 0%nat in Hfill. rewrite Hfill.
  cbn [bind app]. do 3 f_equal. lia.
Qed.

Lemma join_length (segs : list (list ascii)) :
  forall seg, (length segs <= length (join seg segs))%nat.
Proof.
  induction segs as [|seg' segs IH]; intros seg; simpl; [lia|].
  rewrite length_app. simpl. specialize (IH seg'). lia.
Qed.

Lemma render_element_segment (m : ascii) (e : Z * bool) :
  is_marker m = true ->
  0 <= fst e < BIP32_INITIAL_HARDENED_CHILD ->
  plain_segment (render_element m e) /\
  segment (render_element m e) 0 = Some (element_value e).
Proof.
  intros Hm He. destruct e as [n hard]. simpl in He.
  unfold render_element, element_value, BIP32_INITIAL_HARDENED_CHILD in *. simpl.
  pose proof (decimal_upto_digits 10 n ltac:(lia)) as Hdig. fold (decimal n) in Hdig.
  assert (Hdec : Forall (fun c => valid_char c /\ Ascii.eqb c slash = false
                                  /\ Ascii.eqb c "m"%char = false) (decimal n)).
  { eapply Forall_impl; [exact Hdig|]. intros c Hc. apply digit_like_valid, Hc. }
  assert (Hseg : segment (decimal n) 0 = Some n).
  { rewrite decimal_segment by lia. f_equal. apply Z.mod_small. lia. }
  destruct (marker_val m Hm) as (Hms & val & Hval & Hval10).
  assert (Hmm : Ascii.eqb m "m"%char = false).
  { unfold is_marker in Hm. apply orb_true_iff in Hm as [Hm|Hm];
      apply Ascii.eqb_eq in Hm; subst m; reflexivity. }
  split.
  - split.
    + intros Hnil. apply app_eq_nil in Hnil as [Hnil _].
      eapply (decimal_upto_nonempty 10 n); [discriminate|exact Hnil].
    + apply Forall_app. split; [exact Hdec|].
      destruct hard; constructor; [|constructor].
      repeat split; try assumption. unfold valid_char. rewrite Hval. eauto.
  - rewrite segment_app, Hseg. destruct hard; cbn [segment].
    + unfold BIP32_INITIAL_HARDENED_CHILD.
      destruct (Z.leb_spec 2147483648 n); [lia|].
      rewrite Hval, Hval10. f_equal. unfold u32. apply Z.mod_small. lia.
    + f_equal. lia.
Qed.

(** The parser on a rendered path, shared by the statements about the
    parser and about the paths that [wallet_get_addresses] formats. *)
Lemma render_path_parsed (prefix : bool) (m : ascii)
    (e : Z * bool) (es : list (Z * bool)) :
  is_marker m = true ->
  Forall (fun x => 0 <= fst x < BIP32_INITIAL_HARDENED_CHILD) (e :: es) ->
  strlen (render_path prefix m e es) < SIZE_MAX ->
  parse_derivation (render_path prefix m e es)
  = Ret (Some (map element_value (e :: es), Z.of_nat (S (length es)))).
Proof.
  intros Hm Hrange Hlen.
  set (seg := render_element m e).
  set (segs := map (render_element m) es).
  assert (HF : Forall plain_segment (seg :: segs)).
  { subst seg segs. change (Forall plain_segment (map (render_element m) (e :: es))).
    apply Forall_map. eapply Forall_impl; [exact Hrange|].
    intros x Hx. apply (render_element_segment m x Hm Hx). }
  assert (Hv : segment seg 0 = Some (element_value e)).
  { inversion Hrange; subst. apply render_element_segment; assumption. }
  assert (Hvals : Forall2 (fun s x => segment s 0 = Some x) segs
                    (map element_value es)).
  { subst segs. inversion Hrange as [|? ? _ Hes]; subst. clear -Hes Hm.
    induction es as [|x es IH]; simpl; constructor.
    - inversion Hes; subst. apply render_element_segment; assumption.
    - apply IH. inversion Hes; assumption. }
  destruct (join_snoc segs seg HF) as (s' & c & Hj & Hc).
  assert (Hstrip : strip_slash (join seg segs) = join seg segs)
    by (rewrite Hj, strip_slash_snoc, Hc; reflexivity).
  assert (Hbody : body (render_path prefix m e es) = Some (join seg segs)).
  { unfold render_path. fold seg segs. destruct prefix.
    - change (str "m/" ++ join seg segs) with ("m"%char :: slash :: join seg segs).
      simpl. rewrite <- Hstrip at 2.
      destruct (join seg segs) eqn:Hjs; [|reflexivity].
      destruct s'; discriminate Hj.
    - simpl. rewrite <- Hstrip at 2.
      destruct (join seg segs) as [|c0 tl] eqn:Hjs; [destruct s'; discriminate Hj|].
      assert (Hc0 : Ascii.eqb c0 "m"%char = false).
      { inversion HF as [|? ? [Hne Hs] _]; subst.
        destruct seg as [|x seg']; [contradiction|].
        destruct segs; simpl in Hjs; injection Hjs as <- _;
          inversion Hs as [|? ? (_ & _ & Hx) _]; exact Hx. }
      simpl. rewrite Hc0. reflexivity. }
  rewrite (parse_derivation_body _ _ Hlen Hbody).
  rewrite (parse_chars_join seg segs (element_value e) (map element_value es));
    try assumption.
  - subst segs. rewrite length_map. reflexivity.
  - pose proof (join_length segs seg) as Hjl.
    apply body_length in Hbody. unfold strlen, SIZE_MAX in Hlen. lia.
Qed.

(** X4.  A path written out from its elements is parsed back to them:
    indices below [2^31] as decimal numerals, hardened ones followed by
    either marker, joined by separators, with or without ["m/"] in
    front, give the array of the elements, a hardened index [i] as
    [2^31 + i]. *)
Theorem parse_derivation_render (prefix : bool) (m : ascii)
    (e : Z * bool) (es : list (Z * bool)) :
  is_marker m = true ->
  Forall (fun x => 0 <= fst x < BIP32_INITIAL_HARDENED_CHILD) (e :: es) ->
  strlen (render_path prefix m e es) < SIZE_MAX ->
  parse_derivation (render_path prefix m e es)
  = Ret (Some (map element_value (e :: es), Z.of_nat (S (length es)))).
Proof.
  intros Hm Hrange Hlen. apply render_path_parsed; assumption.
Qed.

Lemma parse_derivation_render_witness :
  parse_derivation (str "m/84h/0h/0h/0/5") = Ret (Some ([H + 84; H; H; 0; 5], 5)) /\
  parse_derivation (str "48'/1'/0'/2'") = Ret (Some ([H + 48; H + 1; H; H + 2], 4)).
Proof.
  split.
  - apply (parse_derivation_render true "h"%char (84, true)
             [(0, true); (0, true); (0, false); (5, false)]);
      [reflexivity | repeat constructor; simpl; lia | reflexivity].
  - apply (parse_derivation_render false "'"%char (48, true)
             [(1, true); (0, true); (2, true)]);
      [reflexivity | repeat constructor; simpl; lia | reflexivity].
Defined.

(* ===================================================================== *)
(** * 14. More on the encoder, the addresses and the initialisation       *)
(* ===================================================================== *)

Section EncoderMore.
Context {W : Wally}.

(** X7.  With a root key, [keystore_get_xpub] reports a failure, [-1],
    exactly when the parser returns [NULL]; no other step of it is
    checked. *)
Theorem get_xpub_fails_only_on_path (key : keystore_t) (r : ext_key)
    (path : cstring) (network : network_t) (use_slip132 : Z) :
  root key = Some r ->
  parse_derivation path <> Undefined ->
  (keystore_get_xpub key path network use_slip132 = Ret None
   <-> parse_derivation path = Ret None).
Proof.
  intros Hroot Hdef. unfold keystore_get_xpub, keystore_get_xpub_raw.
  destruct (parse_derivation path) as [[[d len]|]|]; [| |contradiction].
  - rewrite Hroot. simpl bind. split; [|discriminate].
    destruct (select_version network d len use_slip132); simpl; discriminate.
  - simpl. split; reflexivity.
Qed.

(** X8.  Tagging touches nothing but the four header bytes: whatever
    the flag, the serialization from the fifth byte on is the same, and
    with an even flag the header is the network's plain version, most
    significant byte first. *)
Theorem get_xpub_tagging_only_header (key : keystore_t) (path : cstring)
    (network : network_t) (f1 f2 : Z) (raw1 raw2 : bytes) :
  keystore_get_xpub_raw key path network f1 = Ret (Some raw1) ->
  keystore_get_xpub_raw key path network f2 = Ret (Some raw2) ->
  drop 4 raw1 = drop 4 raw2 /\
  (Z.odd f2 = false -> take 4 raw2 = be32_bytes (xpub network)).
Proof.
  unfold keystore_get_xpub_raw. intros H1 H2.
  destruct (parse_derivation path) as [[[d len]|]|]; simpl in *; try discriminate.
  destruct (root key) as [r|]; simpl in *; [|discriminate].
  destruct (select_version network d len f1) as [v1|] eqn:Hv1; simpl in H1;
    [|discriminate].
  destruct (select_version network d len f2) as [v2|] eqn:Hv2; simpl in H2;
    [|discriminate].
  injection H1 as <-. injection H2 as <-. unfold memcpy. split.
  - rewrite !drop_app_length' by reflexivity. reflexivity.
  - intros Hodd. rewrite select_version_plain in Hv2 by exact Hodd.
    injection Hv2 as <-. rewrite word_bytes_be32.
    apply take_app_length'. reflexivity.
Qed.

End EncoderMore.

Lemma get_xpub_fails_only_on_path_witness :
  keystore_get_xpub Double.key (str "m/44h/x") Double.mainnet 1 = Ret None.
Proof.
  apply (get_xpub_fails_only_on_path Double.key Double.root_key
           (str "m/44h/x") Double.mainnet 1 eq_refl);
    [discriminate | reflexivity].
Defined.

Lemma get_xpub_tagging_only_header_witness :
  exists raw1 raw2,
    keystore_get_xpub_raw Double.key (str "m/84h/0h") Double.mainnet 1 = Ret (Some raw1) /\
    keystore_get_xpub_raw Double.key (str "m/84h/0h") Double.mainnet 0 = Ret (Some raw2) /\
    drop 4 raw1 = drop 4 raw2 /\ take 4 raw2 = be32_bytes (xpub Double.mainnet).
Proof.
  eexists. eexists. split; [reflexivity|]. split; [reflexivity|].
  destruct (get_xpub_tagging_only_header Double.key (str "m/84h/0h")
              Double.mainnet 1 0 _ _ eq_refl eq_refl) as [Hd Ht].
  split; [exact Hd | apply Ht; reflexivity].
Defined.

Lemma sprintf_d_length (n : Z) : (length (sprintf_d n) <= 11)%nat.
Proof.
  unfold sprintf_d, decimal. destruct (n <? 0).
  - pose proof (decimal_upto_length 10 (- n)). cbn [length]. lia.
  - pose proof (decimal_upto_length 10 n). lia.
Qed.

(** For an index that is not negative the formatted path is the
    rendering of the five elements [84', bip32', 0', 0, address]. *)
Lemma default_path_render (network : network_t) (address : Z) :
  0 <= bip32 network -> 0 <= address ->
  default_path network address
  = render_path true "h"%char (84, true)
      [(bip32 network, true); (0, true); (0, false); (address, false)].
Proof.
  intros Hb Ha. unfold default_path, sprintf_d.
  destruct (Z.ltb_spec (bip32 network) 0) as [|_]; [lia|].
  destruct (Z.ltb_spec address 0) as [|_]; [lia|].
  unfold render_path, render_element, str.
  cbn [map join fst snd list_ascii_of_string].
  change (decimal 84) with ["8"%char; "4"%char].
  change (decimal 0) with ["0"%char].
  repeat (rewrite <- app_assoc || cbn [app]).
  rewrite ?app_nil_r. reflexivity.
Qed.

Section AddressesMore.
Context {W : Wally} {F : WalletFiles}.

(** X9.  For the single-key wallet ([val = 0]) with a coin type and an
    address index that are not negative, [wallet_get_addresses] returns
    [0] and fills both slots with the addresses of the key derived at
    [m/84'/bip32'/0'/0/address]: the native segwit address and the
    script-hash-wrapped one. *)
Theorem wallet_get_addresses_default (wallet : wallet_t) (r : ext_key)
    (base58_addr bech32_addr : option cstring) :
  w_val wallet = 0 ->
  root (w_keystore wallet) = Some r ->
  0 <= bip32 (w_network wallet) < BIP32_INITIAL_HARDENED_CHILD ->
  0 <= w_address wallet < BIP32_INITIAL_HARDENED_CHILD ->
  let network := w_network wallet in
  let child :=
    set_version
      (bip32_key_from_parent_path r
         [H + 84; H + bip32 network; H; 0; w_address wallet])
      (xprv network) in
  wallet_get_addresses wallet base58_addr bech32_addr
  = Ret (0,
         Some (wally_bip32_key_to_address child WALLY_ADDRESS_TYPE_P2SH_P2WPKH
                 (p2sh network)),
         Some (wally_bip32_key_to_addr_segwit child (bech32 network))).
Proof.
  intros Hval Hroot Hb Ha network child. subst child network.
  set (network := w_network wallet) in *.
  assert (Hparse : parse_derivation (default_path network (w_address wallet))
                   = Ret (Some ([H + 84; H + bip32 network; H; 0; w_address wallet], 5))).
  { rewrite default_path_render by lia.
    rewrite render_path_parsed.
    - unfold element_value, H, BIP32_INITIAL_HARDENED_CHILD. cbn.
      do 2 f_equal. apply f_equal2; [|reflexivity].
      repeat (apply (f_equal2 cons); [lia|]). reflexivity.
    - reflexivity.
    - repeat constructor; cbn [fst]; unfold BIP32_INITIAL_HARDENED_CHILD in *; lia.
    - rewrite <- default_path_render by lia. unfold default_path, strlen, SIZE_MAX.
      rewrite !length_app.
      pose proof (sprintf_d_length (bip32 network)).
      pose proof (sprintf_d_length (w_address wallet)).
      change (length (str "m/84h/")) with 6%nat.
      change (length (str "h/0h/0/")) with 7%nat. lia. }
  unfold wallet_get_addresses. rewrite Hval. cbn [Z.eqb].
  unfold keystore_get_addr. fold network. rewrite Hparse, Hroot.
  reflexivity.
Qed.

(** X10.  For the single-key wallet with a negative address index the
    formatted path carries a minus sign, the parser rejects it, and
    [wallet_get_addresses] still returns [0], leaving both slots as they
    were. *)
Theorem wallet_get_addresses_negative_index (wallet : wallet_t)
    (base58_addr bech32_addr : option cstring) :
  w_val wallet = 0 ->
  w_address wallet < 0 ->
  wallet_get_addresses wallet base58_addr bech32_addr
  = Ret (0, base58_addr, bech32_addr).
Proof.
  intros Hval Ha.
  assert (Hparse : parse_derivation
                     (default_path (w_network wallet) (w_address wallet))
                   = Ret None).
  { unfold default_path, sprintf_d at 2.
    destruct (Z.ltb_spec (w_address wallet) 0) as [_|]; [|lia].
    set (pre := str "m/84h/" ++ sprintf_d (bip32 (w_network wallet)) ++ str "h/0h/0/").
    set (post := decimal (- w_address wallet)).
    assert (Hrej : forall path : cstring,
               strlen path < SIZE_MAX ->
               path = pre ++ "-"%char :: post ->
               strchr VALID_CHARS "-"%char = None ->
               (2 <= length pre)%nat ->
               parse_derivation path = Ret None).
    { intros path Hlen -> Hc Hpos.
      destruct (body_processed pre post "-"%char ltac:(discriminate) (or_intror Hpos))
        as (pre' & post' & Hbody).
      rewrite (parse_derivation_body _ _ Hlen Hbody).
      unfold parse_chars. rewrite count_chars_invalid by exact Hc. reflexivity. }
    apply Hrej; subst pre post.
    - unfold strlen, SIZE_MAX. rewrite !length_app. cbn [length].
      pose proof (sprintf_d_length (bip32 (w_network wallet))).
      pose proof (decimal_upto_length 10 (- w_address wallet)).
      fold (decimal (- w_address wallet)) in *.
      change (length (str "m/84h/")) with 6%nat.
      change (length (str "h/0h/0/")) with 7%nat. lia.
    - rewrite <- !app_assoc. reflexivity.
    - reflexivity.
    - rewrite length_app. change (length (str "m/84h/")) with 6%nat. lia. }
  unfold wallet_get_addresses. rewrite Hval. cbn [Z.eqb].
  unfold keystore_get_addr. rewrite Hparse. reflexivity.
Qed.

End AddressesMore.

Lemma wallet_get_addresses_default_witness :
  exists base58 bech32,
    wallet_get_addresses (Double2.default_wallet 3) None None
    = Ret (0, Some base58, Some bech32).
Proof.
  eexists. eexists.
  apply (wallet_get_addresses_default (Double2.default_wallet 3) Double.root_key
           None None eq_refl eq_refl);
    split; vm_compute; congruence.
Defined.

Lemma wallet_get_addresses_negative_index_witness :
  wallet_get_addresses (Double2.default_wallet (-1)) None (Some (str "old"))
  = Ret (0, None, Some (str "old")).
Proof.
  apply (wallet_get_addresses_negative_index (Double2.default_wallet (-1)));
    reflexivity.
Defined.

Lemma hex_char_lower (d : Z) :
  0 <= d < 16 -> In (hex_char d) (str "0123456789abcdef").
Proof.
  intros Hd.
  assert (Hcases : d = 0 \/ d = 1 \/ d = 2 \/ d = 3 \/ d = 4 \/ d = 5 \/ d = 6
                   \/ d = 7 \/ d = 8 \/ d = 9 \/ d = 10 \/ d = 11 \/ d = 12
                   \/ d = 13 \/ d = 14 \/ d = 15) by lia.
  repeat (destruct Hcases as [-> | Hcases]; [vm_compute; tauto|]).
  subst d. vm_compute. tauto.
Qed.

Lemma sprintf_02x_shape (b : Z) :
  length (sprintf_02x b) = 2%nat /\
  Forall (fun c => In c (str "0123456789abcdef")) (sprintf_02x b).
Proof.
  split; [reflexivity|]. unfold sprintf_02x.
  constructor; [apply hex_char_lower; apply Z.mod_pos_bound; lia|].
  constructor; [apply hex_char_lower; apply Z.mod_pos_bound; lia|constructor].
Qed.

Section InitMore.
Context {W : Wally} {B : WallySeed}.

(** X11.  Initialised with a mnemonic, the keystore holds the root key
    derived from the seed, whatever it held before, and a fingerprint of
    exactly eight lowercase hexadecimal characters; the call returns
    [0]. *)
Theorem keystore_init_fingerprint (words : cstring) (password : option cstring)
    (k : keystore_t) :
  let r := bip32_key_from_seed (bip39_mnemonic_to_seed words password)
             BIP32_VER_TEST_PRIVATE in
  (4 <= length (wally_hash160 (pub_key r)))%nat ->
  exists fp,
    keystore_init (Some words) password (Some k)
    = Ret (0, Some {| root := Some r; fingerprint := fp |})
    /\ length fp = 8%nat
    /\ Forall (fun c => In c (str "0123456789abcdef")) fp.
Proof.
  intros r Hlen. unfold keystore_init, fingerprint_of. fold r.
  destruct (wally_hash160 (pub_key r)) as [|b0 [|b1 [|b2 [|b3 rest]]]];
    simpl in Hlen; try lia.
  exists (sprintf_02x b0 ++ sprintf_02x b1 ++ sprintf_02x b2 ++ sprintf_02x b3).
  split; [reflexivity|]. split; [reflexivity|].
  repeat (apply Forall_app; split); apply sprintf_02x_shape.
Qed.

(** X12.  Initialised without a mnemonic, the keystore is left without
    a root key although the call returns [0], and the policy check then
    reads through the null root on every proposal. *)
Theorem keystore_init_without_mnemonic (password : option cstring)
    (k : keystore_t) (psbt : wally_psbt) :
  exists k',
    keystore_init None password (Some k) = Ret (0, Some k')
    /\ root k' = None
    /\ fingerprint k' = fingerprint k
    /\ keystore_check_psbt k' psbt = Undefined.
Proof.
  eexists. split; [reflexivity|]. repeat split.
Qed.

End InitMore.

Lemma keystore_init_fingerprint_witness :
  exists fp r,
    keystore_init (Some (str "abandon ability")) None
      (Some {| root := None; fingerprint := [] |})
    = Ret (0, Some {| root := Some r; fingerprint := fp |})
    /\ length fp = 8%nat.
Proof.
  destruct (keystore_init_fingerprint (str "abandon ability") None
              {| root := None; fingerprint := [] |}) as (fp & Hinit & Hlen & _).
  - vm_compute. lia.
  - exists fp. eexists. split; [exact Hinit | exact Hlen].
Defined.

(* ===================================================================== *)
(** * 15. More on the policy check, change detection and signing          *)
(* ===================================================================== *)

Section PolicyMore.
Variable h160 : bytes.

Lemma check_inputs_not_single (a : wally_psbt_input) (ins : list wally_psbt_input)
    (err : psbt_status) :
  single_keypath a = false ->
  check_inputs h160 (a :: ins) err <> PSBT_OK.
Proof.
  unfold single_keypath. intros Hs. simpl.
  destruct (in_keypaths a) as [items|]; [|discriminate].
  destruct (negb (can_sign_loop h160 items) && is_zero err); [discriminate|].
  destruct items as [|i1 [|i2 items]]; [discriminate|discriminate Hs|discriminate].
Qed.

Lemma check_inputs_ok (ins : list wally_psbt_input) :
  forall err,
    check_inputs h160 ins err = PSBT_OK <->
    Forall (fun a => single_keypath a = true) ins /\
    (if is_zero err then Forall (fun a => signable h160 a = true) ins
     else exists pre post,
         ins = pre ++ post /\ post <> [] /\
         Forall (fun a => signable h160 a = false) pre /\
         Forall (fun a => signable h160 a = true) post).
Proof.
  induction ins as [|a ins IH]; intros err.
  - simpl. destruct err; simpl; split; try discriminate; auto.
    + intros [_ (pre & post & Heq & Hne & _)].
      destruct pre, post; try discriminate; contradiction.
    + intros [_ (pre & post & Heq & Hne & _)].
      destruct pre, post; try discriminate; contradiction.
    + intros [_ (pre & post & Heq & Hne & _)].
      destruct pre, post; try discriminate; contradiction.
  - destruct (single_keypath a) eqn:Hsingle.
    2:{ split.
        - intros Hok. exfalso. eapply check_inputs_not_single; eassumption.
        - intros [HF _]. inversion HF; congruence. }
    rewrite (check_inputs_single h160 a ins err Hsingle).
    destruct (signable h160 a) eqn:Hsa.
    + rewrite (IH PSBT_OK). simpl is_zero. cbv iota. split.
      * intros [HFs HFg]. split; [constructor; assumption|].
        destruct (is_zero err); [constructor; assumption|].
        exists [], (a :: ins). repeat split; [discriminate|constructor|].
        constructor; assumption.
      * intros [HFs Hrest]. inversion HFs; subst. split; [assumption|].
        destruct (is_zero err).
        -- inversion Hrest; assumption.
        -- destruct Hrest as (pre & post & Heq & Hne & Hpre & Hpost).
           destruct pre as [|b pre].
           ++ simpl in Heq. subst post. inversion Hpost; assumption.
           ++ injection Heq as -> _. inversion Hpre; congruence.
    + destruct (is_zero err) eqn:Hz.
      * split; [discriminate|].
        intros [_ HFg]. inversion HFg; congruence.
      * rewrite (IH err), Hz. split.
        -- intros [HFs (pre & post & Heq & Hne & Hpre & Hpost)].
           split; [constructor; assumption|].
           exists (a :: pre), post. subst ins.
           repeat split; [assumption|constructor; assumption|assumption].
        -- intros [HFs (pre & post & Heq & Hne & Hpre & Hpost)].
           inversion HFs; subst. split; [assumption|].
           destruct pre as [|b pre].
           ++ simpl in Heq. subst post. inversion Hpost; congruence.
           ++ injection Heq as <- ->. inversion Hpre; subst.
              exists pre, post. repeat split; assumption.
Qed.

End PolicyMore.

Section PolicyMoreClaims.
Context {W : Wally}.

(** X13.  The policy check returns [0] exactly for the proposals in
    which every input has exactly one keypath and the inputs are a run
    of inputs that are not signable, possibly empty, followed by a run
    of signable inputs that is not empty.  In particular a proposal
    without inputs never passes, and an input that is not signable
    passes when it comes before all signable ones. *)
Theorem check_psbt_ok_iff (key : keystore_t) (r : ext_key) (psbt : wally_psbt) :
  root key = Some r ->
  keystore_check_psbt key psbt = Ret PSBT_OK <->
  Forall (fun a => single_keypath a = true) (inputs psbt) /\
  exists pre post,
    inputs psbt = pre ++ post /\ post <> [] /\
    Forall (fun a => signable (wally_hash160 (pub_key r)) a = false) pre /\
    Forall (fun a => signable (wally_hash160 (pub_key r)) a = true) post.
Proof.
  intros Hroot. unfold keystore_check_psbt. rewrite Hroot. simpl bind.
  pose proof (check_inputs_ok (wally_hash160 (pub_key r)) (inputs psbt)
                KEYSTORE_PSBTERR_CANNOT_SIGN) as Hok.
  simpl is_zero in Hok. cbv iota in Hok. rewrite <- Hok.
  split; [intros [= ->]; reflexivity | intros ->; reflexivity].
Qed.

End PolicyMoreClaims.

Lemma check_psbt_ok_iff_witness :
  keystore_check_psbt Double.key
    (Double.proposal [Double.input_with (Some [Double.foreign]);
                      Double.input_with (Some [Double.mine]);
                      Double.input_with (Some [Double.mine])])
  = Ret PSBT_OK.
Proof.
  apply (check_psbt_ok_iff Double.key Double.root_key _ eq_refl).
  split; [repeat constructor|].
  exists [Double.input_with (Some [Double.foreign])],
         [Double.input_with (Some [Double.mine]);
          Double.input_with (Some [Double.mine])].
  repeat split; try discriminate; repeat constructor.
Defined.

Section ChangeMore.
Context {W : Wally} {P : Platform}.

(** X14.  At an index that the eight-bit parameter holds, an output
    whose keypaths set is missing, or holds a number of entries other
    than one, is never reported as change: the detector returns [0]
    before it touches the key or the transaction. *)
Theorem output_is_change_needs_one_keypath (key : keystore_t) (psbt : wally_psbt)
    (i : Z) (output : wally_psbt_output) :
  0 <= i < 256 ->
  outputs psbt !! Z.to_nat i = Some output ->
  (forall item, out_keypaths output <> Some [item]) ->
  keystore_output_is_change key psbt i = Ret 0.
Proof.
  intros Hi Hout Hk. unfold keystore_output_is_change, num_outputs.
  rewrite (u8_small i Hi). cbv zeta.
  assert (Hlt : (Z.to_nat i < length (outputs psbt))%nat)
    by (apply lookup_lt_is_Some; eauto).
  destruct (Z.leb_spec (Z.of_nat (length (outputs psbt))) i) as [|_]; [lia|].
  rewrite Hout. simpl bind.
  destruct (out_keypaths output) as [[|item [|item2 items]]|]; try reflexivity.
  exfalso. apply (Hk item). reflexivity.
Qed.

(** X15.  At an index that the eight-bit parameter holds, an output
    whose script is none of pay-to-witness-pubkey-hash,
    pay-to-script-hash and pay-to-pubkey-hash is never reported as
    change, whatever its keypath and whether or not the keystore has a
    root key. *)
Theorem output_is_change_unknown_script (key : keystore_t) (psbt : wally_psbt)
    (i : Z) (output : wally_psbt_output) (item : keypath_item)
    (txout : wally_tx_output) :
  0 <= i < 256 ->
  outputs psbt !! Z.to_nat i = Some output ->
  out_keypaths output = Some [item] ->
  tx_outputs (tx psbt) !! Z.to_nat i = Some txout ->
  wally_scriptpubkey_get_type (script txout) <> WALLY_SCRIPT_TYPE_P2WPKH ->
  wally_scriptpubkey_get_type (script txout) <> WALLY_SCRIPT_TYPE_P2SH ->
  wally_scriptpubkey_get_type (script txout) <> WALLY_SCRIPT_TYPE_P2PKH ->
  keystore_output_is_change key psbt i = Ret 0.
Proof.
  intros Hi Hout Hk Htx H1 H2 H3. unfold keystore_output_is_change, num_outputs.
  rewrite (u8_small i Hi). cbv zeta.
  assert (Hlt : (Z.to_nat i < length (outputs psbt))%nat)
    by (apply lookup_lt_is_Some; eauto).
  destruct (Z.leb_spec (Z.of_nat (length (outputs psbt))) i) as [|_]; [lia|].
  rewrite Hout. simpl bind. rewrite Hk. simpl. rewrite Htx. simpl bind.
  destruct (wally_scriptpubkey_get_type (script txout));
    try reflexivity; contradiction.
Qed.

End ChangeMore.

Lemma output_is_change_needs_one_keypath_witness :
  keystore_output_is_change Double.key
    {| tx := tx (Double.proposal []); inputs := [];
       outputs := [ {| out_keypaths := Some [Double.mine; Double.foreign] |} ] |} 0
  = Ret 0.
Proof.
  apply (output_is_change_needs_one_keypath Double.key _ 0
           {| out_keypaths := Some [Double.mine; Double.foreign] |});
    [lia | reflexivity | discriminate].
Defined.

Lemma output_is_change_unknown_script_witness :
  keystore_output_is_change {| root := None; fingerprint := [] |}
    {| tx := {| tx_version := 2; tx_inputs := [];
                tx_outputs := [ {| satoshi := 5; script := [0x6a; 1; 0] |} ];
                tx_locktime := 0 |};
       inputs := [];
       outputs := [ {| out_keypaths := Some [Double.mine] |} ] |} 0
  = Ret 0.
Proof.
  apply (output_is_change_unknown_script _ _ 0
           {| out_keypaths := Some [Double.mine] |} Double.mine
           {| satoshi := 5; script := [0x6a; 1; 0] |});
    try reflexivity; try discriminate; lia.
Defined.

Section SignMore.
Context {W : Wally}.

(** The loop on inputs that all have a witness UTXO and a keypath,
    entered with blank inputs left in [signed_psbt]: each blank input
    receives the one signature of the input at its index. *)
Lemma sign_inputs_blank (key : keystore_t) (r : ext_key) (t : wally_tx)
    (ins : list wally_psbt_input) :
  forall done : list wally_psbt_input,
    root key = Some r ->
    Forall (fun a => witness_utxo a <> None /\
                     exists item items, in_keypaths a = Some (item :: items)) ins ->
    exists new,
      sign_inputs key t ins (Z.of_nat (length done))
        (done ++ repeat blank_input (length ins))
      = Ret (Some (done ++ new))
      /\ length new = length ins
      /\ forall k input utxo item items,
          ins !! k = Some input ->
          witness_utxo input = Some utxo ->
          in_keypaths input = Some (item :: items) ->
          let pk := bip32_key_from_parent_path r (origin_path item) in
          new !! k
          = Some {| witness_utxo := None; in_keypaths := None;
                    partial_sigs :=
                      Some [(pub_key pk,
                             wally_ec_sig_to_der
                               (wally_ec_sig_from_bytes (drop 1 (priv_key pk))
                                  (wally_tx_get_btc_signature_hash t
                                     (Z.of_nat (length done + k))
                                     (wally_scriptpubkey_p2pkh_from_bytes (pub_key pk))
                                     (satoshi utxo)))
                             ++ [WALLY_SIGHASH_ALL])] |}.
Proof.
  induction ins as [|a ins IH]; intros done Hroot Hok.
  - exists []. simpl. rewrite app_nil_r. repeat split.
    intros k input utxo item items Hk. discriminate Hk.
  - inversion Hok as [|? ? [Hw (item & items & Hitems)] Hok']; subst.
    destruct (witness_utxo a) as [utxo|] eqn:Hutxo; [|contradiction].
    cbn [sign_inputs]. rewrite Hutxo, Hitems, Hroot. cbn [deref bind].
    change ((item :: items) !! 0%nat) with (Some item). cbn [deref bind].
    rewrite Nat2Z.id.
    cbn [length repeat].
    rewrite lookup_app_r, Nat.sub_diag by lia. cbn [lookup list_lookup deref bind].
    rewrite insert_app_r_alt, Nat.sub_diag by lia. cbn [insert list_insert].
    set (s := add_new_partial_sig blank_input _ _).
    replace (done ++ s :: repeat blank_input (length ins))
      with ((done ++ [s]) ++ repeat blank_input (length ins))
      by (rewrite <- app_assoc; reflexivity).
    replace (Z.of_nat (length done) + 1) with (Z.of_nat (length (done ++ [s])))
      by (rewrite length_app; simpl; lia).
    destruct (IH (done ++ [s]) Hroot Hok') as (new & Hrun & Hlen & Hsig).
    exists (s :: new). rewrite Hrun, <- app_assoc. split; [reflexivity|].
    split; [simpl; lia|].
    intros k input utxo' item' items' Hk Hw' Hi'.
    destruct k as [|k].
    + injection Hk as <-. rewrite Hutxo in Hw'. injection Hw' as <-.
      rewrite Hitems in Hi'. injection Hi' as <- <-.
      rewrite Nat.add_0_r. reflexivity.
    + simpl in Hk. simpl. rewrite (Hsig k input utxo' item' items' Hk Hw' Hi').
      rewrite length_app. simpl length.
      replace (length done + 1 + k)%nat with (length done + S k)%nat by lia.
      reflexivity.
Qed.

(** X16.  When the keystore has a root key and every input has a
    witness UTXO and a keypath, the signing pass returns [0] and hands
    out the encoding of a proposal with the same transaction, as many
    inputs as the proposal has, and on input [k] exactly one partial
    signature: keyed by the public key derived at the first keypath of
    input [k], made over the signature hash of input [k] with that
    input's amount, and ending in the byte [SIGHASH_ALL].  The
    fingerprint of the keypath plays no part. *)
Theorem sign_psbt_signs_every_input (key : keystore_t) (r : ext_key)
    (psbt : wally_psbt) (output : option cstring) :
  root key = Some r ->
  Forall (fun a => witness_utxo a <> None /\
                   exists item items, in_keypaths a = Some (item :: items))
    (inputs psbt) ->
  exists signed,
    keystore_sign_psbt key psbt output
    = Ret (0, Some (wally_psbt_to_base64
                      {| tx := tx psbt; inputs := signed;
                         outputs := repeat blank_output (length (outputs psbt)) |}))
    /\ length signed = length (inputs psbt)
    /\ forall k input utxo item items,
        inputs psbt !! k = Some input ->
        witness_utxo input = Some utxo ->
        in_keypaths input = Some (item :: items) ->
        let pk := bip32_key_from_parent_path r (origin_path item) in
        signed !! k
        = Some {| witness_utxo := None; in_keypaths := None;
                  partial_sigs :=
                    Some [(pub_key pk,
                           wally_ec_sig_to_der
                             (wally_ec_sig_from_bytes (drop 1 (priv_key pk))
                                (wally_tx_get_btc_signature_hash (tx psbt)
                                   (Z.of_nat k)
                                   (wally_scriptpubkey_p2pkh_from_bytes (pub_key pk))
                                   (satoshi utxo)))
                           ++ [WALLY_SIGHASH_ALL])] |}.
Proof.
  intros Hroot Hok.
  destruct (sign_inputs_blank key r (tx psbt) (inputs psbt) [] Hroot Hok)
    as (new & Hrun & Hlen & Hsig).
  exists new. unfold keystore_sign_psbt.
  change (inputs (wally_psbt_init psbt))
    with ([] ++ repeat blank_input (length (inputs psbt))).
  change 0 with (Z.of_nat (length (@nil wally_psbt_input))) at 1.
  rewrite Hrun. split; [reflexivity|]. split; [exact Hlen|exact Hsig].
Qed.

End SignMore.

Lemma sign_psbt_signs_every_input_witness :
  exists signed,
    keystore_sign_psbt Double.key
      (Double.proposal [Double.input_with (Some [Double.mine]);
                        Double.input_with (Some [Double.foreign])]) None
    = Ret (0, Some (wally_psbt_to_base64
                      {| tx := tx (Double.proposal
                                     [Double.input_with (Some [Double.mine]);
                                      Double.input_with (Some [Double.foreign])]);
                         inputs := signed;
                         outputs := [blank_output] |}))
    /\ length signed = 2%nat.
Proof.
  destruct (sign_psbt_signs_every_input Double.key Double.root_key
              (Double.proposal [Double.input_with (Some [Double.mine]);
                                Double.input_with (Some [Double.foreign])])
              None eq_refl) as (signed & Hrun & Hlen & _).
  - repeat constructor; try discriminate; eexists; eexists; reflexivity.
  - exists signed. split; [exact Hrun | exact Hlen].
Defined.

(* ===================================================================== *)
(** * 16. More on the wallet descriptor check                             *)
(* ===================================================================== *)

Lemma span_prefix (p : ascii -> bool) (s : list ascii) :
  forall rest,
    Forall (fun c => p c = true) s ->
    match rest with [] => True | c :: _ => p c = false end ->
    span p (s ++ rest) = (s, rest).
Proof.
  induction s as [|x s IH]; intros rest Hs Hrest.
  - destruct rest as [|c rest]; [reflexivity|]. simpl. rewrite Hrest. reflexivity.
  - inversion Hs as [|? ? Hx Hs']; subst. simpl. rewrite Hx.
    rewrite (IH rest Hs' Hrest). reflexivity.
Qed.

(** [sscanf] reads a well-formed cosigner line back, and what its second
    field ends at is a white-space character. *)
Lemma sscanf_entry_line (e : cstring * cstring) (sep : ascii) (rest : list ascii) :
  well_formed_cosigner e ->
  isspace sep = true ->
  sscanf_entry ("["%char :: fst e ++ "]"%char :: snd e ++ sep :: rest)
  = (2, Some (fst e), Some (snd e)).
Proof.
  intros (Hd & Hx & Hdc & Hxc & _ & _) Hsep. destruct e as [d x].
  cbn [fst snd] in *. cbn [sscanf_entry].
  change (Ascii.eqb "[" "[") with true. cbn [negb].
  rewrite (span_prefix _ d ("]"%char :: x ++ sep :: rest));
    [| eapply Forall_impl; [exact Hdc|];
       intros c Hc; destruct (Ascii.eqb_spec c "]"%char); [contradiction|reflexivity]
     | reflexivity].
  destruct d as [|d0 d]; [contradiction|].
  destruct x as [|x0 x]; [contradiction|].
  inversion Hxc as [|? ? Hx0 Hxc']; subst.
  cbn [app span]. rewrite Hx0. cbn [negb].
  change (x0 :: x ++ sep :: rest) with ((x0 :: x) ++ sep :: rest).
  rewrite (span_prefix _ (x0 :: x) (sep :: rest));
    [reflexivity
    | eapply Forall_impl; [exact Hxc|]; intros c Hc; rewrite Hc; reflexivity
    | rewrite Hsep; reflexivity].
Qed.

(** A text that does not begin with ['['] gives [sscanf] nothing to
    assign. *)
Lemma sscanf_entry_no_bracket (l : cstring) :
  head l <> Some "["%char ->
  exists res, sscanf_entry l = (res, None, None) /\ res < 2.
Proof.
  intros Hhead. destruct l as [|c l]; cbn [sscanf_entry].
  - exists (-1). split; [reflexivity|lia].
  - destruct (Ascii.eqb_spec c "["%char) as [->|_];
      [contradiction Hhead; reflexivity|].
    exists 0. split; [reflexivity|lia].
Qed.

Lemma drop_line (e : cstring * cstring) (sep : ascii) (rest : list ascii) :
  drop (length (fst e) + length (snd e) + 3)
    ("["%char :: fst e ++ "]"%char :: snd e ++ sep :: rest)
  = rest.
Proof.
  replace ("["%char :: fst e ++ "]"%char :: snd e ++ sep :: rest)
    with (("["%char :: fst e ++ "]"%char :: snd e ++ [sep]) ++ rest).
  - apply drop_app_length'. cbn [length]. rewrite length_app. cbn [length].
    rewrite length_app. cbn [length]. lia.
  - cbn [app]. rewrite <- !app_assoc. cbn [app]. rewrite <- !app_assoc.
    reflexivity.
Qed.

Lemma drop_inside {A : Type} (n : nat) (l : list A) :
  drop n l <> [] -> (n < length l)%nat.
Proof.
  intros Hne. destruct (Nat.lt_ge_cases n (length l)) as [Hlt|Hge]; [exact Hlt|].
  exfalso. apply Hne. apply drop_ge. exact Hge.
Qed.

Lemma render_cosigner_length (sep : ascii) (e : cstring * cstring) :
  length (render_cosigner sep e) = (length (fst e) + length (snd e) + 3)%nat.
Proof.
  unfold render_cosigner. cbn [length]. rewrite length_app. cbn [length].
  rewrite length_app. cbn [length]. lia.
Qed.

Lemma isspace_newline : isspace newline = true.
Proof. reflexivity. Qed.

(** Where the parser stops reading behind an origin of eight or nine
    characters, called at nine characters into the array. *)
Lemma parse_in_behind_terminator (s : list ascii) :
  length s = 8%nat -> parse_derivation_in (s ++ [NUL]) 9 = Undefined.
Proof.
  intros Hs. unfold parse_derivation_in, string_at.
  rewrite drop_ge by (rewrite length_app, Hs; cbn [length]; lia).
  reflexivity.
Qed.

Lemma parse_in_behind_slash (s : list ascii) :
  length s = 8%nat -> parse_derivation_in (s ++ [slash; NUL]) 9 = Undefined.
Proof.
  intros Hs.
  do 8 (destruct s as [|? s]; [discriminate Hs|]).
  destruct s; [|discriminate Hs].
  vm_compute. reflexivity.
Qed.

Lemma parse_in_empty_path (s stale : list ascii) (c : ascii) :
  length s = 8%nat ->
  c <> slash ->
  parse_derivation_in ((s ++ [c]) ++ NUL :: stale) 9 = Ret (Some ([0], 1)).
Proof.
  intros Hs Hc. unfold parse_derivation_in, string_at.
  assert (H9 : 9%nat = length (s ++ [c]))
    by (rewrite length_app, Hs; reflexivity).
  rewrite H9 at 1. rewrite drop_app_length.
  cbn [until_nul]. rewrite Ascii.eqb_refl. cbn [deref bind strlen length].
  rewrite H9, load_in_inside
    by (rewrite length_app, Hs; cbn [length]; lia).
  cbn [deref_char bind]. change (Ascii.eqb NUL "m"%char) with false. cbv iota.
  unfold parse_from_in. change (strlen []) with 0.
  assert (Hload : load_in ((s ++ [c]) ++ NUL :: stale)
                    (Z.of_nat (length (s ++ [c])) + size_wrap (0 - 1))
                  = Some c).
  { change (size_wrap (0 - 1)) with (2 ^ 32 - 1).
    replace (Z.of_nat (length (s ++ [c])) + (2 ^ 32 - 1))
      with (Z.of_nat (length s) + 2 ^ 32)
      by (rewrite length_app; cbn [length]; lia).
    rewrite load_in_wrap, <- app_assoc. apply load_in_inside. lia. }
  rewrite Hload. cbn [deref_char bind].
  destruct (Ascii.eqb_spec c slash) as [->|_]; [contradiction|].
  rewrite count_loop_chars by (cbn; lia).
  change (Z.to_nat (0 - 0)) with 0%nat. rewrite take_0.
  cbn [count_chars bind].
  rewrite fill_loop_chars by (cbn; lia).
  change (Z.to_nat (0 - 0)) with 0%nat. rewrite take_0. reflexivity.
Qed.

Section WalletMore.
Context {W : Wally} {P : Platform}.
Variables (keystore : keystore_t) (network : network_t).

(** The stores of the first [sscanf] when the header fits. *)
Lemma check_wallet_header (buf : cstring) :
  5 <= hdr_res (sscanf_header buf) ->
  header_fits buf (sscanf_header buf) ->
  keystore_check_wallet keystore network buf
  = cosigner_loop keystore network (Z.to_nat (hdr_n (sscanf_header buf)))
      (S (length buf)) (hdr_rest (sscanf_header buf)) 0 [] []
      KEYSTORE_WALLET_ERR_NOT_INCLUDED.
Proof.
  intros Hres (Hname & Htype & Hfit). unfold keystore_check_wallet. cbv zeta.
  destruct (Z.leb_spec 1 (hdr_res (sscanf_header buf))) as [_|]; [|lia].
  destruct (Z.leb_spec 2 (hdr_res (sscanf_header buf))) as [_|]; [|lia].
  destruct (Z.leb_spec 5 (hdr_res (sscanf_header buf))) as [_|]; [|lia].
  destruct (Z.ltb_spec (hdr_res (sscanf_header buf)) 5) as [Hlt|_]; [lia|].
  unfold store_string.
  destruct (Nat.ltb_spec (length (hdr_name (sscanf_header buf))) 100) as [_|]; [|lia].
  destruct (Nat.ltb_spec (length (hdr_type (sscanf_header buf))) 10) as [_|]; [|lia].
  destruct (Nat.ltb_spec (length (hdr_rest (sscanf_header buf))) (S (length buf)))
    as [_|]; [|lia].
  reflexivity.
Qed.

(** One round of the loop on a well-formed line: both fields are
    stored, and the round ends in [check_cosigner]. *)
Lemma cosigner_loop_line (count size : nat) (rest : cstring) (line : nat)
    (e : cstring * cstring) (sep : ascii) (tail : list ascii)
    (derivation xpub : list ascii) (err : wallet_status) :
  well_formed_cosigner e ->
  isspace sep = true ->
  (line < size)%nat ->
  drop line rest = "["%char :: fst e ++ "]"%char :: snd e ++ sep :: tail ->
  cosigner_loop keystore network (S count) size rest line derivation xpub err
  = (let derivation' := fst e ++ NUL :: drop (S (length (fst e))) derivation in
     let xpub' := snd e ++ NUL :: drop (S (length (snd e))) xpub in
     let* step := check_cosigner keystore network derivation' (snd e) err in
     match step with
     | inl status => Ret status
     | inr err' =>
         cosigner_loop keystore network count size rest
           (line + (length (fst e) + length (snd e) + 3)) derivation' xpub' err'
     end).
Proof.
  intros Hwf Hsep Hline Hdrop. cbn [cosigner_loop].
  destruct (Nat.ltb_spec line size) as [_|]; [|lia]. cbn [bind].
  rewrite Hdrop, (sscanf_entry_line e sep tail Hwf Hsep).
  destruct Hwf as (_ & _ & _ & _ & Hld & Hlx).
  unfold store_string.
  destruct (Nat.ltb_spec (length (fst e)) 150) as [_|]; [|lia].
  destruct (Nat.ltb_spec (length (snd e)) 150) as [_|]; [|lia].
  cbn [bind].
  destruct (string_at_stored (fst e) (drop (S (length (fst e))) derivation))
    as [s1 ->].
  destruct (string_at_stored (snd e) (drop (S (length (snd e))) xpub))
    as [s2 ->].
  cbn [bind deref]. change (2 <? 2) with false. cbv iota. reflexivity.
Qed.

Lemma check_cosigner_foreign (e : cstring * cstring) (stale : list ascii)
    (err : wallet_status) :
  foreign_line keystore e ->
  check_cosigner keystore network (fst e ++ NUL :: stale) (snd e) err
  = Ret (inr err).
Proof.
  unfold foreign_line, check_cosigner, storage. intros Hm.
  change (fst e ++ NUL :: stale) with (fst e ++ [NUL] ++ stale).
  rewrite app_assoc, (memcmp_buf_app _ _ _ stale _ Hm). reflexivity.
Qed.

Lemma check_cosigner_own_plain (e : cstring * cstring) (stale : list ascii)
    (err : wallet_status) :
  length (fingerprint keystore) = 8%nat ->
  (length (fst e) < 150)%nat ->
  own_plain_line keystore network e ->
  check_cosigner keystore network (fst e ++ NUL :: stale) (snd e) err
  = Ret (inr WALLET_OK).
Proof.
  intros Hfp Hlen (sep & path & Heq & Hnul & Hx). rewrite Heq in *.
  rewrite (check_cosigner_own_entry keystore network sep path (snd e) (snd e)
             stale err Hfp); [| |exact Hnul|exact Hx].
  - unfold string_equal. rewrite bool_decide_eq_true_2 by reflexivity. reflexivity.
  - rewrite length_app in Hlen. cbn [length] in Hlen. unfold SIZE_MAX. lia.
Qed.

(** An own line is no foreign line. *)
Lemma own_not_foreign (e : cstring * cstring) :
  length (fingerprint keystore) = 8%nat ->
  own_plain_line keystore network e ->
  foreign_line keystore e ->
  False.
Proof.
  intros Hfp (s & path & Heq & _) Hforeign.
  unfold foreign_line in Hforeign. rewrite Heq in Hforeign.
  unfold storage in Hforeign.
  rewrite <- app_assoc, <- Hfp, memcmp_buf_prefix in Hforeign. discriminate.
Qed.

Lemma render_cosigners_cons (sep : ascii) (e : cstring * cstring)
    (es : list (cstring * cstring)) (rest : list ascii) :
  render_cosigners sep (e :: es) ++ rest
  = "["%char :: fst e ++ "]"%char :: snd e ++ sep :: (render_cosigners sep es ++ rest).
Proof.
  unfold render_cosigners, render_cosigner. cbn [map concat app].
  rewrite <- !app_assoc. cbn [app]. rewrite <- !app_assoc. reflexivity.
Qed.

Lemma render_cosigners_length (sep : ascii) (e : cstring * cstring)
    (es : list (cstring * cstring)) :
  length (render_cosigners sep (e :: es))
  = (length (fst e) + length (snd e) + 3 + length (render_cosigners sep es))%nat.
Proof.
  unfold render_cosigners. cbn [map concat]. rewrite length_app.
  rewrite render_cosigner_length. reflexivity.
Qed.

(** The loop over lines that pass: it reaches the text after them with
    [err] cleared if one of the lines was the keystore's own, and, when
    there was a line, with a string in each of the two arrays. *)
Lemma cosigner_loop_lines (sep : ascii) (size : nat) (rest : cstring)
    (es : list (cstring * cstring)) :
  forall (count line : nat) (tail derivation xpub : list ascii)
         (err : wallet_status),
    isspace sep = true ->
    length (fingerprint keystore) = 8%nat ->
    Forall well_formed_cosigner es ->
    Forall (fun e => foreign_line keystore e \/ own_plain_line keystore network e) es ->
    (length rest < size)%nat ->
    drop line rest = render_cosigners sep es ++ tail ->
    exists err' derivation' xpub',
      cosigner_loop keystore network (length es + count) size rest line
        derivation xpub err
      = cosigner_loop keystore network count size rest
          (line + length (render_cosigners sep es)) derivation' xpub' err'
      /\ (es <> [] \/ holds_string derivation -> holds_string derivation')
      /\ (es <> [] \/ holds_string xpub -> holds_string xpub')
      /\ (Forall (foreign_line keystore) es -> err' = err)
      /\ (Exists (own_plain_line keystore network) es -> err' = WALLET_OK)
      /\ (err = WALLET_OK -> err' = WALLET_OK).
Proof.
  induction es as [|e es IH];
    intros count line tail derivation xpub err Hsep Hfp Hwf Hpass Hsize Hdrop.
  - exists err, derivation, xpub. cbn [length Nat.add render_cosigners map concat].
    rewrite Nat.add_0_r. split; [reflexivity|].
    repeat split; auto; try (intros [Hne|Hst]; [contradiction|exact Hst]).
    intros Hex. inversion Hex.
  - inversion Hwf as [|? ? Hwe Hwf']; subst.
    inversion Hpass as [|? ? Hpe Hpass']; subst.
    rewrite render_cosigners_cons in Hdrop. cbn [length Nat.add].
    assert (Hline : (line < size)%nat).
    { assert (line < length rest)%nat; [|lia].
      apply drop_inside. rewrite Hdrop. discriminate. }
    rewrite (cosigner_loop_line _ size rest line e sep _ derivation xpub err
               Hwe Hsep Hline Hdrop).
    cbv zeta.
    set (derivation1 := fst e ++ NUL :: drop (S (length (fst e))) derivation).
    set (xpub1 := snd e ++ NUL :: drop (S (length (snd e))) xpub).
    assert (Hd1 : holds_string derivation1) by (subst derivation1; red; eauto).
    assert (Hx1 : holds_string xpub1) by (subst xpub1; red; eauto).
    assert (Hnext : drop (line + (length (fst e) + length (snd e) + 3)) rest
                    = render_cosigners sep es ++ tail).
    { rewrite <- drop_drop, Hdrop. apply drop_line. }
    assert (Hpos : (line + (length (fst e) + length (snd e) + 3)
                    + length (render_cosigners sep es)
                    = line + length (render_cosigners sep (e :: es)))%nat)
      by (rewrite render_cosigners_length; lia).
    destruct Hpe as [Hforeign|Hown].
    + unfold derivation1 at 1.
      rewrite (check_cosigner_foreign e _ err Hforeign). cbn [bind].
      destruct (IH count _ tail derivation1 xpub1 err Hsep Hfp Hwf' Hpass' Hsize Hnext)
        as (err' & d' & x' & Hrun & Hd & Hx & Hf & Ho & Hk).
      exists err', d', x'. rewrite <- Hpos. split; [exact Hrun|].
      split; [intros _; apply Hd; right; exact Hd1|].
      split; [intros _; apply Hx; right; exact Hx1|].
      repeat split.
      * intros HF. inversion HF; auto.
      * intros Hex. inversion Hex as [? ? Hown|? ? Hex']; subst; [|auto].
        exfalso. exact (own_not_foreign e Hfp Hown Hforeign).
      * exact Hk.
    + unfold derivation1 at 1.
      destruct Hwe as (_ & _ & _ & _ & Hld & _).
      rewrite (check_cosigner_own_plain e _ err Hfp Hld Hown). cbn [bind].
      destruct (IH count _ tail derivation1 xpub1 WALLET_OK Hsep Hfp Hwf' Hpass'
                  Hsize Hnext)
        as (err' & d' & x' & Hrun & Hd & Hx & Hf & Ho & Hk).
      exists err', d', x'. rewrite <- Hpos. split; [exact Hrun|].
      split; [intros _; apply Hd; right; exact Hd1|].
      split; [intros _; apply Hx; right; exact Hx1|].
      rewrite (Hk eq_refl). repeat split.
      intros HF. inversion HF as [|? ? Hforeign _]; subst. exfalso.
      exact (own_not_foreign e Hfp Hown Hforeign).
Qed.

End WalletMore.

Section WalletMoreClaims.
Context {W : Wally} {P : Platform}.

(** X17.  A descriptor whose header fits its buffers, that declares [n]
    cosigners and whose text after the header begins with [n]
    well-formed lines, none of which carries the keystore's
    fingerprint, is answered with [NOT_INCLUDED]; what follows the [n]
    lines is not read. *)
Theorem check_wallet_not_included (keystore : keystore_t) (network : network_t)
    (buf : cstring) (sep : ascii) (es : list (cstring * cstring)) (rest : list ascii) :
  5 <= hdr_res (sscanf_header buf) ->
  header_fits buf (sscanf_header buf) ->
  hdr_n (sscanf_header buf) = Z.of_nat (length es) ->
  hdr_rest (sscanf_header buf) = render_cosigners sep es ++ rest ->
  isspace sep = true ->
  length (fingerprint keystore) = 8%nat ->
  Forall well_formed_cosigner es ->
  Forall (foreign_line keystore) es ->
  keystore_check_wallet keystore network buf = Ret KEYSTORE_WALLET_ERR_NOT_INCLUDED.
Proof.
  intros Hres Hfit Hn Hrest Hsep Hfp Hwf Hforeign.
  rewrite (check_wallet_header keystore network buf Hres Hfit).
  destruct Hfit as (_ & _ & Hfit).
  rewrite Hn, Nat2Z.id.
  destruct (cosigner_loop_lines keystore network sep (S (length buf))
              (hdr_rest (sscanf_header buf)) es 0 0 rest [] []
              KEYSTORE_WALLET_ERR_NOT_INCLUDED Hsep Hfp Hwf)
    as (err' & d' & x' & Hrun & _ & _ & Hf & _ & _).
  - eapply Forall_impl; [exact Hforeign|]. intros e He. left. exact He.
  - lia.
  - rewrite drop_0. exact Hrest.
  - rewrite Nat.add_0_r in Hrun. etransitivity; [exact Hrun|].
    rewrite (Hf Hforeign). reflexivity.
Qed.

(** X18.  A descriptor whose header fits its buffers, that declares [n]
    cosigners and whose text after the header begins with [n]
    well-formed lines is accepted, status [0], when at least one line
    is the keystore's own and every own line records the plain encoding
    of the key derived at its path.  The character between the
    fingerprint and the path is not examined. *)
Theorem check_wallet_accepted (keystore : keystore_t) (network : network_t)
    (buf : cstring) (sep : ascii) (es : list (cstring * cstring)) (rest : list ascii) :
  5 <= hdr_res (sscanf_header buf) ->
  header_fits buf (sscanf_header buf) ->
  hdr_n (sscanf_header buf) = Z.of_nat (length es) ->
  hdr_rest (sscanf_header buf) = render_cosigners sep es ++ rest ->
  isspace sep = true ->
  length (fingerprint keystore) = 8%nat ->
  Forall well_formed_cosigner es ->
  Forall (fun e => foreign_line keystore e \/ own_plain_line keystore network e) es ->
  Exists (own_plain_line keystore network) es ->
  keystore_check_wallet keystore network buf = Ret WALLET_OK.
Proof.
  intros Hres Hfit Hn Hrest Hsep Hfp Hwf Hpass Hown.
  rewrite (check_wallet_header keystore network buf Hres Hfit).
  destruct Hfit as (_ & _ & Hfit).
  rewrite Hn, Nat2Z.id.
  destruct (cosigner_loop_lines keystore network sep (S (length buf))
              (hdr_rest (sscanf_header buf)) es 0 0 rest [] []
              KEYSTORE_WALLET_ERR_NOT_INCLUDED Hsep Hfp Hwf Hpass)
    as (err' & d' & x' & Hrun & _ & _ & _ & Ho & _).
  - lia.
  - rewrite drop_0. exact Hrest.
  - rewrite Nat.add_0_r in Hrun. etransitivity; [exact Hrun|].
    rewrite (Ho Hown). reflexivity.
Qed.

(** X19.  A descriptor that declares more cosigners than it has lines is
    answered with the parse error when it has a line: after the lines
    that pass, a text that is empty or does not begin with ['['], as
    after a line ended by carriage return and line feed, gives the next
    [sscanf] nothing to assign, and the [printf] before the test reads
    the fields of the line before. *)
Theorem check_wallet_missing_line (keystore : keystore_t) (network : network_t)
    (buf : cstring) (sep : ascii) (es : list (cstring * cstring)) (rest : list ascii) :
  5 <= hdr_res (sscanf_header buf) ->
  header_fits buf (sscanf_header buf) ->
  es <> [] ->
  Z.of_nat (length es) < hdr_n (sscanf_header buf) ->
  hdr_rest (sscanf_header buf) = render_cosigners sep es ++ rest ->
  head rest <> Some "["%char ->
  isspace sep = true ->
  length (fingerprint keystore) = 8%nat ->
  Forall well_formed_cosigner es ->
  Forall (fun e => foreign_line keystore e \/ own_plain_line keystore network e) es ->
  keystore_check_wallet keystore network buf = Ret KEYSTORE_WALLET_ERR_PARSING.
Proof.
  intros Hres Hfit Hne Hn Hrest Hhead Hsep Hfp Hwf Hpass.
  rewrite (check_wallet_header keystore network buf Hres Hfit).
  destruct Hfit as (_ & _ & Hfit).
  replace (Z.to_nat (hdr_n (sscanf_header buf)))
    with (length es + S (Z.to_nat (hdr_n (sscanf_header buf)) - S (length es)))%nat
    by lia.
  destruct (cosigner_loop_lines keystore network sep (S (length buf))
              (hdr_rest (sscanf_header buf)) es
              (S (Z.to_nat (hdr_n (sscanf_header buf)) - S (length es))) 0 rest [] []
              KEYSTORE_WALLET_ERR_NOT_INCLUDED Hsep Hfp Hwf Hpass)
    as (err' & d' & x' & Hrun & Hd & Hx & _).
  - lia.
  - rewrite drop_0. exact Hrest.
  - etransitivity; [exact Hrun|]. cbn [cosigner_loop Nat.add].
    assert (Hlen : (length (render_cosigners sep es)
                    <= length (hdr_rest (sscanf_header buf)))%nat)
      by (rewrite Hrest, length_app; lia).
    destruct (Nat.ltb_spec (length (render_cosigners sep es)) (S (length buf)))
      as [_|]; [|lia].
    cbn [bind]. rewrite Hrest, drop_app_length.
    destruct (sscanf_entry_no_bracket rest Hhead) as (res & -> & Hlt).
    cbn [store_string bind].
    destruct (Hd (or_introl Hne)) as (s1 & t1 & ->).
    destruct (Hx (or_introl Hne)) as (s2 & t2 & ->).
    destruct (string_at_stored s1 t1) as [r1 ->].
    destruct (string_at_stored s2 t2) as [r2 ->].
    cbn [bind].
    destruct (Z.ltb_spec res 2) as [_|]; [reflexivity|lia].
Qed.

(** X20.  A first line of the keystore's own whose origin is the
    fingerprint alone, or the fingerprint and a separator, leaves the
    defined behaviour: the path is taken from nine characters into the
    array, which is behind the terminator of the origin in the first
    case; in the second the path is empty, the parser finds the
    separator in front of it, takes the length [0 - 1] and reads on
    behind the terminator, into cells that were never written. *)
Theorem check_wallet_own_line_without_path (keystore : keystore_t)
    (network : network_t) (buf : cstring) (origin xpub : cstring) (sep : ascii)
    (rest : list ascii) :
  5 <= hdr_res (sscanf_header buf) ->
  header_fits buf (sscanf_header buf) ->
  0 < hdr_n (sscanf_header buf) ->
  hdr_rest (sscanf_header buf)
  = "["%char :: origin ++ "]"%char :: xpub ++ sep :: rest ->
  isspace sep = true ->
  well_formed_cosigner (origin, xpub) ->
  length (fingerprint keystore) = 8%nat ->
  origin = fingerprint keystore \/ origin = fingerprint keystore ++ [slash] ->
  keystore_check_wallet keystore network buf = Undefined.
Proof.
  intros Hres Hfit Hn Hrest Hsep Hwf Hfp Horigin.
  rewrite (check_wallet_header keystore network buf Hres Hfit).
  destruct (Z.to_nat (hdr_n (sscanf_header buf))) as [|count] eqn:Hcount; [lia|].
  rewrite (cosigner_loop_line keystore network count _ _ 0 (origin, xpub) sep rest
             [] [] _ Hwf Hsep);
    [|lia|rewrite drop_0; exact Hrest].
  cbn [fst snd]. cbv zeta. rewrite !drop_nil.
  unfold check_cosigner, storage.
  assert (Hmine : memcmp_buf (origin ++ [NUL]) (fingerprint keystore ++ [NUL]) 8
                  = Ret true).
  { pose proof (memcmp_buf_prefix (fingerprint keystore)) as Hm.
    rewrite Hfp in Hm.
    destruct Horigin as [-> | ->]; [|rewrite <- app_assoc]; apply Hm. }
  rewrite Hmine. cbn [bind]. unfold keystore_get_xpub_in.
  destruct Horigin as [-> | ->].
  - rewrite (parse_in_behind_terminator _ Hfp). reflexivity.
  - rewrite <- app_assoc. cbn [app].
    rewrite (parse_in_behind_slash _ Hfp). reflexivity.
Qed.

(** X21.  A line of the keystore's own whose origin is the fingerprint
    and one more character that is no separator has an empty path: the
    parser, called at the terminator of the origin, looks at the
    character in front of it, runs no loop and returns the one-element
    path [0].  The line is therefore checked against the key derived at
    [m/0]: a descriptor with this one line is accepted when it records
    the plain encoding of that key, and refused otherwise. *)
Theorem check_wallet_own_line_empty_path (keystore : keystore_t)
    (network : network_t) (buf : cstring) (c : ascii) (xpub plain : cstring)
    (sep : ascii) (rest : list ascii) :
  5 <= hdr_res (sscanf_header buf) ->
  header_fits buf (sscanf_header buf) ->
  hdr_n (sscanf_header buf) = 1 ->
  hdr_rest (sscanf_header buf)
  = "["%char :: (fingerprint keystore ++ [c]) ++ "]"%char :: xpub ++ sep :: rest ->
  isspace sep = true ->
  well_formed_cosigner (fingerprint keystore ++ [c], xpub) ->
  length (fingerprint keystore) = 8%nat ->
  c <> slash ->
  keystore_get_xpub keystore (str "0") network 0 = Ret (Some plain) ->
  keystore_check_wallet keystore network buf
  = Ret (if string_equal plain xpub then WALLET_OK
         else KEYSTORE_WALLET_ERR_WRONG_XPUB).
Proof.
  intros Hres Hfit Hn Hrest Hsep Hwf Hfp Hc Hplain.
  rewrite (check_wallet_header keystore network buf Hres Hfit).
  rewrite Hn. change (Z.to_nat 1) with 1%nat.
  rewrite (cosigner_loop_line keystore network 0 _ _ 0
             (fingerprint keystore ++ [c], xpub) sep rest [] [] _ Hwf Hsep);
    [|lia|rewrite drop_0; exact Hrest].
  cbn [fst snd]. cbv zeta. rewrite !drop_nil.
  unfold check_cosigner, storage.
  pose proof (memcmp_buf_prefix (fingerprint keystore) ([c] ++ [NUL]) [NUL]) as Hm.
  rewrite Hfp, app_assoc in Hm. rewrite Hm. clear Hm. cbn [bind].
  unfold keystore_get_xpub_in.
  rewrite (parse_in_empty_path _ [] c Hfp Hc). cbn [bind].
  rewrite get_xpub_of_parsed in Hplain.
  change (parse_derivation (str "0")) with (@Ret (option (list Z * Z)) (Some ([0], 1)))
    in Hplain.
  cbn [bind] in Hplain. rewrite Hplain. cbn [bind deref]. rewrite orb_diag.
  destruct (string_equal plain xpub); reflexivity.
Qed.

(** X22.  When the first [sscanf] of the loop does not assign the key,
    because the text after the header does not begin with a cosigner
    line, the call leaves the defined behaviour instead of reporting
    the parse error: the [printf] in front of the test reads the array
    [xpub], in which nothing has been stored yet. *)
Theorem check_wallet_first_line_unreadable (keystore : keystore_t)
    (network : network_t) (buf : cstring) :
  5 <= hdr_res (sscanf_header buf) ->
  header_fits buf (sscanf_header buf) ->
  0 < hdr_n (sscanf_header buf) ->
  snd (sscanf_entry (hdr_rest (sscanf_header buf))) = None ->
  keystore_check_wallet keystore network buf = Undefined.
Proof.
  intros Hres Hfit Hn Hscan.
  rewrite (check_wallet_header keystore network buf Hres Hfit).
  destruct (Z.to_nat (hdr_n (sscanf_header buf))) as [|count] eqn:Hcount; [lia|].
  cbn [cosigner_loop]. change (0 <? S (length buf))%nat with true. cbn [bind].
  rewrite drop_0.
  destruct (sscanf_entry (hdr_rest (sscanf_header buf))) as [[res d] x].
  cbn [snd] in Hscan. subst x. cbn [store_string bind].
  destruct (store_string 150 [] d) as [cells|]; [|reflexivity]. cbn [bind].
  destruct (string_at cells 0); reflexivity.
Qed.

End WalletMoreClaims.

(** Each line of a descriptor of the double is well formed. *)
Ltac wf_line :=
  repeat split;
  try discriminate; try (vm_compute; lia);
  repeat (constructor; [first [discriminate | reflexivity]|]);
  try constructor.

Ltac no_nul := repeat (constructor; [discriminate|]); constructor.

Lemma check_wallet_not_included_witness :
  keystore_check_wallet Double.key Double.mainnet
    (Double2.descriptor_of "2" ["[deadbeef/48h/0h]xpubA"; "[cafebabe/48h/0h]xpubB"])
  = Ret KEYSTORE_WALLET_ERR_NOT_INCLUDED.
Proof.
  apply (check_wallet_not_included Double.key Double.mainnet _ newline
           [(str "deadbeef/48h/0h", str "xpubA"); (str "cafebabe/48h/0h", str "xpubB")] []).
  - vm_compute. discriminate.
  - repeat split; vm_compute; lia.
  - reflexivity.
  - reflexivity.
  - reflexivity.
  - reflexivity.
  - constructor; [wf_line|]. constructor; [wf_line|constructor].
  - repeat constructor.
Defined.

Lemma check_wallet_accepted_witness :
  keystore_check_wallet Double.key Double.mainnet
    (Double2.descriptor_of "2"
       ["[deadbeef/48h/0h]xpubA";
        "[a1b2c3d4:48h/0h/0h/2h]0488b21e0402a1b2c3d409ebbbbbbd"])
  = Ret WALLET_OK.
Proof.
  apply (check_wallet_accepted Double.key Double.mainnet _ newline
           [(str "deadbeef/48h/0h", str "xpubA");
            (str "a1b2c3d4:48h/0h/0h/2h", str "0488b21e0402a1b2c3d409ebbbbbbd")]
           []).
  - vm_compute. discriminate.
  - repeat split; vm_compute; lia.
  - reflexivity.
  - reflexivity.
  - reflexivity.
  - reflexivity.
  - constructor; [wf_line|]. constructor; [wf_line|constructor].
  - constructor; [left; reflexivity|].
    constructor; [|constructor].
    right. exists ":"%char, (str "48h/0h/0h/2h").
    split; [reflexivity|]. split; [no_nul | reflexivity].
  - apply Exists_cons_tl, Exists_cons_hd.
    exists ":"%char, (str "48h/0h/0h/2h").
    split; [reflexivity|]. split; [no_nul | reflexivity].
Defined.

Lemma check_wallet_missing_line_witness :
  keystore_check_wallet Double.key Double.mainnet
    (Double2.descriptor_of "2" ["[deadbeef/48h/0h]xpubA"])
  = Ret KEYSTORE_WALLET_ERR_PARSING.
Proof.
  apply (check_wallet_missing_line Double.key Double.mainnet _ newline
           [(str "deadbeef/48h/0h", str "xpubA")] []).
  - vm_compute. discriminate.
  - repeat split; vm_compute; lia.
  - discriminate.
  - vm_compute. reflexivity.
  - reflexivity.
  - discriminate.
  - reflexivity.
  - reflexivity.
  - constructor; [wf_line|constructor].
  - constructor; [left; reflexivity|constructor].
Defined.

Lemma check_wallet_own_line_without_path_witness :
  keystore_check_wallet Double.key Double.mainnet
    (Double2.descriptor_of "1" ["[a1b2c3d4]0488b21e0402a1b2c3d409"])
  = Undefined /\
  keystore_check_wallet Double.key Double.mainnet
    (Double2.descriptor_of "1" ["[a1b2c3d4/]0488b21e0402a1b2c3d409"])
  = Undefined.
Proof.
  split.
  - apply (check_wallet_own_line_without_path Double.key Double.mainnet _
             (str "a1b2c3d4") (str "0488b21e0402a1b2c3d409") newline []).
    + vm_compute. discriminate.
    + repeat split; vm_compute; lia.
    + vm_compute. reflexivity.
    + reflexivity.
    + reflexivity.
    + wf_line.
    + reflexivity.
    + left. reflexivity.
  - apply (check_wallet_own_line_without_path Double.key Double.mainnet _
             (str "a1b2c3d4/") (str "0488b21e0402a1b2c3d409") newline []).
    + vm_compute. discriminate.
    + repeat split; vm_compute; lia.
    + vm_compute. reflexivity.
    + reflexivity.
    + reflexivity.
    + wf_line.
    + reflexivity.
    + right. reflexivity.
Defined.

Lemma check_wallet_own_line_empty_path_witness :
  keystore_check_wallet Double.key Double.mainnet
    (Double2.descriptor_of "1" ["[a1b2c3d4:]0488b21e0102a1b2c3d40900"])
  = Ret WALLET_OK /\
  keystore_check_wallet Double.key Double.mainnet
    (Double2.descriptor_of "1" ["[a1b2c3d4:]0488b21e0402a1b2c3d409ebbbbbbd"])
  = Ret KEYSTORE_WALLET_ERR_WRONG_XPUB.
Proof.
  split.
  - apply (check_wallet_own_line_empty_path Double.key Double.mainnet _
             ":"%char (str "0488b21e0102a1b2c3d40900")
             (str "0488b21e0102a1b2c3d40900") newline []).
    + vm_compute. discriminate.
    + repeat split; vm_compute; lia.
    + reflexivity.
    + reflexivity.
    + reflexivity.
    + wf_line.
    + reflexivity.
    + discriminate.
    + reflexivity.
  - apply (check_wallet_own_line_empty_path Double.key Double.mainnet _
             ":"%char (str "0488b21e0402a1b2c3d409ebbbbbbd")
             (str "0488b21e0102a1b2c3d40900") newline []).
    + vm_compute. discriminate.
    + repeat split; vm_compute; lia.
    + reflexivity.
    + reflexivity.
    + reflexivity.
    + wf_line.
    + reflexivity.
    + discriminate.
    + reflexivity.
Defined.

Lemma check_wallet_first_line_unreadable_witness :
  keystore_check_wallet Double.key Double.mainnet
    (Double2.descriptor_of "2" ["deadbeef/48h/0h]xpubA"; "[cafebabe/48h/0h]xpubB"])
  = Undefined /\
  keystore_check_wallet Double.key Double.mainnet
    (Double2.descriptor_of "1" ["[a1b2c3d4/48h/0h/0h/2h]"])
  = Undefined.
Proof.
  split.
  - apply (check_wallet_first_line_unreadable Double.key Double.mainnet).
    + vm_compute. discriminate.
    + repeat split; vm_compute; lia.
    + vm_compute. reflexivity.
    + reflexivity.
  - apply (check_wallet_first_line_unreadable Double.key Double.mainnet).
    + vm_compute. discriminate.
    + repeat split; vm_compute; lia.
    + vm_compute. reflexivity.
    + reflexivity.
Defined.
